(** * HTTP authentication core of neon ([src/ne_auth.c])

    A shallow embedding of the challenge parser, the Basic, Digest and
    Negotiate scheme functions, the scheme table and the request hooks,
    followed by the properties of the Digest session that the
    specification states.

    Conventions of the embedding.
    - A [char *] that may be [NULL] is an [option string]; a local
      [char *] that may also be read before it is written is a [cstr].
    - [unsigned int] is a [Z] in [0, 2^32) with the wrap-around written
      out; [int] status values are [Z].
    - A C function that can dereference [NULL], read an unwritten local
      or call through a null function pointer returns an [outcome]:
      [Ret v] when it returns [v], [Fault f] when the C program has no
      defined behaviour.
    - An MD5 context is the byte string absorbed so far; the digest
      itself, base64 and the security providers are fields of the
      [Platform] class. *)

From Stdlib Require Import ZArith String Ascii List Bool Lia.
From stdpp Require Import base option list strings pretty sorting.

Open Scope Z_scope.

(** ** Outcomes of C functions *)

Inductive fault : Type :=
  | NullString      (* strlen, strcmp, ne_strcasecmp or ne_shave on NULL *)
  | NullContext     (* ne_md5_process_bytes on a NULL context *)
  | NullHandler     (* chall->handler->creds with handler == NULL *)
  | NullProtocol    (* sess->protocol->name with protocol == NULL *)
  | NullCall        (* call through a NULL function pointer *)
  | UninitRead      (* read of a local that was never written *)
  | ScanOverflow    (* sscanf conversion that does not fit the object *)
  | OutOfFuel.      (* loop bound of the embedding exhausted; never reached *)

Inductive outcome (A : Type) : Type :=
  | Ret (a : A)
  | Fault (f : fault).
Arguments Ret {A} a.
Arguments Fault {A} f.

#[global] Instance outcome_ret : MRet outcome := @Ret.
#[global] Instance outcome_bind : MBind outcome := fun A B k m =>
  match m with
  | Ret a => k a
  | Fault f => Fault f
  end.
#[global] Instance outcome_fmap : FMap outcome := fun A B g m =>
  match m with
  | Ret a => Ret (g a)
  | Fault f => Fault f
  end.

(** A local [char *]: not yet written, [NULL], or pointing at a string. *)
Inductive cstr : Type :=
  | CUninit
  | CNull
  | CStr (s : string).

(** ** Characters and string helpers *)

Definition DQUOTE : ascii := "034"%char.
Definition SQUOTE : ascii := "039"%char.
Definition TAB : ascii := "009"%char.
Definition LF : ascii := "010"%char.
Definition CR : ascii := "013"%char.
Definition NUL : ascii := "000"%char.

Definition dq : string := String DQUOTE "".
Definition CRLF : string := String CR (String LF "").

(** [strchr(set, c) != NULL] for a character [c] other than NUL. *)
Fixpoint strchr_in (set : string) (c : ascii) : bool :=
  match set with
  | EmptyString => false
  | String d set' => Ascii.eqb c d || strchr_in set' c
  end.

Fixpoint skip_leading (set : string) (s : string) : string :=
  match s with
  | EmptyString => EmptyString
  | String c s' => if strchr_in set c then skip_leading set s' else s
  end.

Fixpoint drop_trailing (set : string) (s : string) : string :=
  match s with
  | EmptyString => EmptyString
  | String c s' =>
      match drop_trailing set s' with
      | EmptyString => if strchr_in set c then EmptyString else String c EmptyString
      | r => String c r
      end
  end.

(** Modelled from the spec: [ne_shave] of ne_string.c, which is not among
    the sources; "values have surrounding ... quotes stripped": every
    leading and every trailing character of [whitespace] is removed. *)
Definition ne_shave (str whitespace : string) : string :=
  drop_trailing whitespace (skip_leading whitespace str).

(** Modelled from the spec: [ne_token] of ne_string.c, which is not among
    the sources; it cuts [str] at the first [separator] and returns the
    part before it together with the new value of [*str]: the part after
    the separator, or [None] (the NULL pointer) when there was none. *)
Fixpoint ne_token (str : string) (separator : ascii) : string * option string :=
  match str with
  | EmptyString => (EmptyString, None)
  | String c s' =>
      if Ascii.eqb c separator then (EmptyString, Some s')
      else let '(t, r) := ne_token s' separator in (String c t, r)
  end.

Definition TOLOWER (c : ascii) : Z :=
  let n := Z.of_nat (nat_of_ascii c) in
  if (65 <=? n) && (n <=? 90) then n + 32 else n.

(** Modelled from the spec: [ne_strcasecmp] of ne_string.c, which is not
    among the sources; "compare case-insensitively": zero exactly when the
    two strings agree after ASCII case folding. *)
Fixpoint ne_strcasecmp (a b : string) : Z :=
  match a, b with
  | EmptyString, EmptyString => 0
  | EmptyString, String d _ => - TOLOWER d
  | String c _, EmptyString => TOLOWER c
  | String c a', String d b' =>
      if TOLOWER c =? TOLOWER d then ne_strcasecmp a' b'
      else TOLOWER c - TOLOWER d
  end.

(** [strcmp(a, b) != 0] *)
Definition strcmp_ne (a b : string) : bool := negb (String.eqb a b).

(** [ne_concat(a1, ..., NULL)] and [ne_buffer_concat(buf, a1, ..., NULL)]:
    the argument list ends at the first NULL pointer, wherever it is. *)
Fixpoint ne_concat (args : list (option string)) : string :=
  match args with
  | Some a :: rest => a +:+ ne_concat rest
  | _ => EmptyString
  end.

Definition ne_buffer_concat (buf : string) (args : list (option string)) : string :=
  buf +:+ ne_concat args.

(** ** Unsigned arithmetic and hexadecimal conversions *)

Definition UINT_MOD : Z := 2 ^ 32.

(** [n++] on an [unsigned int] *)
Definition uint_incr (n : Z) : Z := (n + 1) mod UINT_MOD.

Definition hex_digit (d : Z) : ascii :=
  if d <? 10 then ascii_of_nat (Z.to_nat (48 + d))
  else ascii_of_nat (Z.to_nat (87 + d)).

Definition nibble (n : Z) (i : Z) : Z := (n / 16 ^ i) mod 16.

(** [ne_snprintf(buf, 9, "%08x", n)] for an [unsigned int] [n]: eight
    lower-case hexadecimal digits, most significant first. *)
Definition snprintf_08x (n : Z) : string :=
  String (hex_digit (nibble n 7)) (String (hex_digit (nibble n 6))
  (String (hex_digit (nibble n 5)) (String (hex_digit (nibble n 4))
  (String (hex_digit (nibble n 3)) (String (hex_digit (nibble n 2))
  (String (hex_digit (nibble n 1)) (String (hex_digit (nibble n 0))
   EmptyString))))))).

Definition hex_value (c : ascii) : option Z :=
  let n := Z.of_nat (nat_of_ascii c) in
  if (48 <=? n) && (n <=? 57) then Some (n - 48)
  else if (97 <=? n) && (n <=? 102) then Some (n - 87)
  else if (65 <=? n) && (n <=? 70) then Some (n - 55)
  else None.

(** The longest run of hexadecimal digits at the head of [s], as a
    number; [acc] is [None] until a digit has been read. *)
Fixpoint scan_hex_digits (acc : option Z) (s : string) : option Z :=
  match s with
  | EmptyString => acc
  | String c s' =>
      match hex_value c with
      | Some d => scan_hex_digits (Some (16 * default 0 acc + d)) s'
      | None => acc
      end
  end.

Inductive scan_result : Type :=
  | ScanFail               (* no conversion: sscanf returns 0 or EOF *)
  | ScanOK (v : Z)         (* one conversion: the object now holds v *)
  | ScanUndefined.         (* the value does not fit an unsigned int *)

Definition isspace_set : string :=
  String " " (String TAB (String LF (String "011" (String "012" (String CR ""))))).

Definition is_hex (c : ascii) : bool :=
  match hex_value c with Some _ => true | None => false end.

(** An optional sign. *)
Definition scan_sign (s : string) : bool * string :=
  match s with
  | String "-" r => (true, r)
  | String "+" r => (false, r)
  | _ => (false, s)
  end.

(** An optional [0x] or [0X], taken only when a digit follows. *)
Definition scan_prefix (s : string) : string :=
  match s with
  | String "0" (String x (String h r)) =>
      if (Ascii.eqb x "x" || Ascii.eqb x "X") && is_hex h
      then String h r else s
  | _ => s
  end.

(** [sscanf(s, "%x", &n)] of the C library: white space is skipped, then
    an optional sign, an optional [0x] and hexadecimal digits are read as
    by [strtoul] with base 16, and the value is stored in an
    [unsigned int]. *)
Definition sscanf_x (s : string) : scan_result :=
  let '(neg, s) := scan_sign (skip_leading isspace_set s) in
  match scan_hex_digits None (scan_prefix s) with
  | None => ScanFail
  | Some v =>
      if v <? UINT_MOD
      then ScanOK (if neg then (UINT_MOD - v) mod UINT_MOD else v)
      else ScanUndefined
  end.

(** ** Constants of the public headers *)

(** Modelled from the spec: the status constants of ne_utils.h, which is
    not among the sources ("Surface constants: OK, RETRY, AUTH, PROXYAUTH,
    ERROR"), with the values neon gives them; the code relies on
    [NE_OK] being zero. *)
Definition NE_OK : Z := 0.
Definition NE_ERROR : Z := 1.
Definition NE_AUTH : Z := 3.
Definition NE_PROXYAUTH : Z := 4.
Definition NE_RETRY : Z := 8.

(** Modelled from the spec: the protocol identifiers of ne_auth.h, which
    is not among the sources ("distinct single-bit values ORed into a
    mask"). *)
Definition NE_AUTH_BASIC : Z := 1.
Definition NE_AUTH_DIGEST : Z := 2.
Definition NE_AUTH_NEGOTIATE : Z := 4.

Definition AUTH_FLAG_OPAQUE_PARAM : Z := 1.
Definition AUTH_FLAG_VERIFY_NON40x : Z := 2.

(** ** Data model *)

Inductive auth_algorithm : Type :=
  | auth_alg_md5
  | auth_alg_md5_sess
  | auth_alg_unknown.

Inductive auth_qop : Type :=
  | auth_qop_none
  | auth_qop_auth.

Inductive auth_context : Type :=
  | AUTH_ANY
  | AUTH_CONNECT
  | AUTH_NOTCONNECT.

(** One call of the credentials callback: the realm and the attempt
    number it was given. *)
Definition prompt : Type := (string * Z)%type.

(** What the callback leaves behind: its return value and the contents
    of the username and password buffers. *)
Record creds_reply : Type := {
  cr_status : Z;
  cr_username : string;
  cr_password : string
}.

(** [ne_auth_creds] together with its [userdata]: the callback sees the
    calls made so far, the realm, the attempt number and the username
    buffer as it stands. *)
Definition ne_auth_creds : Type :=
  list prompt -> string -> Z -> string -> creds_reply.

Record auth_handler : Type := {
  protomask : Z;
  creds : ne_auth_creds
}.

(** A row of the [protocols] table; a [const struct auth_protocol *] is
    the name of the row it points at. *)
Inductive proto_ref : Type :=
  | Proto_Basic
  | Proto_Digest
  | Proto_GSS_Negotiate
  | Proto_SSPI_NTLM
  | Proto_SSPI_Negotiate.

(** [struct auth_challenge]; the name [auth_challenge] is kept for the
    function. *)
Record auth_chall : Type := {
  ch_protocol : proto_ref;
  ch_handler : option auth_handler;
  ch_realm : option string;
  ch_nonce : option string;
  ch_opaque : option string;
  ch_stale : bool;
  ch_got_qop : bool;
  ch_qop_auth : bool;
  ch_alg : auth_algorithm
}.

Record auth_class : Type := {
  class_id : string;
  req_hdr : string;
  resp_hdr : string;
  resp_info_hdr : string;
  status_code : Z;
  fail_code : Z
}.

Definition HOOK_SERVER_ID : string := "http://webdav.org/neon/hooks/server-auth".
Definition HOOK_PROXY_ID : string := "http://webdav.org/neon/hooks/proxy-auth".

Definition ah_server_class : auth_class :=
  {| class_id := HOOK_SERVER_ID;
     req_hdr := "Authorization";
     resp_hdr := "WWW-Authenticate";
     resp_info_hdr := "Authentication-Info";
     status_code := 401;
     fail_code := NE_AUTH |}.

Definition ah_proxy_class : auth_class :=
  {| class_id := HOOK_PROXY_ID;
     req_hdr := "Proxy-Authorization";
     resp_hdr := "Proxy-Authenticate";
     resp_info_hdr := "Proxy-Authentication-Info";
     status_code := 407;
     fail_code := NE_PROXYAUTH |}.

(** [struct ne_md5_ctx]: the bytes absorbed so far. *)
Definition ne_md5_ctx : Type := string.

Definition ne_md5_create_ctx : ne_md5_ctx := EmptyString.

Definition ne_md5_process_bytes (buf : string) (ctx : ne_md5_ctx) : ne_md5_ctx :=
  ctx +:+ buf.

(** [auth_session].  [h_a1] is the first 32 bytes of the buffer of that
    name.  [error] is the error string of the owning [ne_session];
    [prompts] and [rand_calls] record what the session has asked of its
    environment: the credential callbacks made and the number of client
    nonces drawn.  The fields [gssname], [gssmech], [host], [uri_scheme]
    and [port] are neither read nor written by the functions embedded
    here. *)
Record auth_session : Type := {
  context : auth_context;
  spec : auth_class;
  protocol : option proto_ref;
  handlers : list auth_handler;
  username : string;
  basic : option string;
  gssapi_token : option string;
  gssctx : option nat;
  sspi_token : option string;
  sspi_context : option nat;
  realm : option string;
  nonce : option string;
  cnonce : option string;
  opaque : option string;
  qop : auth_qop;
  alg : auth_algorithm;
  nonce_count : Z;
  h_a1 : string;
  stored_rdig : option ne_md5_ctx;
  error : string;
  prompts : list prompt;
  rand_calls : nat
}.

Record auth_request : Type := {
  req_uri : string;
  req_method : string;
  req_attempt : Z
}.

(** *** Field assignments *)

Definition set_protocol (v : option proto_ref) (s : auth_session) : auth_session :=
  Build_auth_session (context s) (spec s) v (handlers s) (username s) (basic s)
    (gssapi_token s) (gssctx s) (sspi_token s) (sspi_context s) (realm s) (nonce s)
    (cnonce s) (opaque s) (qop s) (alg s) (nonce_count s) (h_a1 s) (stored_rdig s)
    (error s) (prompts s) (rand_calls s).

Definition set_handlers (v : list auth_handler) (s : auth_session) : auth_session :=
  Build_auth_session (context s) (spec s) (protocol s) v (username s) (basic s)
    (gssapi_token s) (gssctx s) (sspi_token s) (sspi_context s) (realm s) (nonce s)
    (cnonce s) (opaque s) (qop s) (alg s) (nonce_count s) (h_a1 s) (stored_rdig s)
    (error s) (prompts s) (rand_calls s).

Definition set_username (v : string) (s : auth_session) : auth_session :=
  Build_auth_session (context s) (spec s) (protocol s) (handlers s) v (basic s)
    (gssapi_token s) (gssctx s) (sspi_token s) (sspi_context s) (realm s) (nonce s)
    (cnonce s) (opaque s) (qop s) (alg s) (nonce_count s) (h_a1 s) (stored_rdig s)
    (error s) (prompts s) (rand_calls s).

Definition set_basic (v : option string) (s : auth_session) : auth_session :=
  Build_auth_session (context s) (spec s) (protocol s) (handlers s) (username s) v
    (gssapi_token s) (gssctx s) (sspi_token s) (sspi_context s) (realm s) (nonce s)
    (cnonce s) (opaque s) (qop s) (alg s) (nonce_count s) (h_a1 s) (stored_rdig s)
    (error s) (prompts s) (rand_calls s).

Definition set_gssapi_token (v : option string) (s : auth_session) : auth_session :=
  Build_auth_session (context s) (spec s) (protocol s) (handlers s) (username s) (basic s)
    v (gssctx s) (sspi_token s) (sspi_context s) (realm s) (nonce s)
    (cnonce s) (opaque s) (qop s) (alg s) (nonce_count s) (h_a1 s) (stored_rdig s)
    (error s) (prompts s) (rand_calls s).

Definition set_gssctx (v : option nat) (s : auth_session) : auth_session :=
  Build_auth_session (context s) (spec s) (protocol s) (handlers s) (username s) (basic s)
    (gssapi_token s) v (sspi_token s) (sspi_context s) (realm s) (nonce s)
    (cnonce s) (opaque s) (qop s) (alg s) (nonce_count s) (h_a1 s) (stored_rdig s)
    (error s) (prompts s) (rand_calls s).

Definition set_sspi_token (v : option string) (s : auth_session) : auth_session :=
  Build_auth_session (context s) (spec s) (protocol s) (handlers s) (username s) (basic s)
    (gssapi_token s) (gssctx s) v (sspi_context s) (realm s) (nonce s)
    (cnonce s) (opaque s) (qop s) (alg s) (nonce_count s) (h_a1 s) (stored_rdig s)
    (error s) (prompts s) (rand_calls s).

Definition set_sspi_context (v : option nat) (s : auth_session) : auth_session :=
  Build_auth_session (context s) (spec s) (protocol s) (handlers s) (username s) (basic s)
    (gssapi_token s) (gssctx s) (sspi_token s) v (realm s) (nonce s)
    (cnonce s) (opaque s) (qop s) (alg s) (nonce_count s) (h_a1 s) (stored_rdig s)
    (error s) (prompts s) (rand_calls s).

Definition set_realm (v : option string) (s : auth_session) : auth_session :=
  Build_auth_session (context s) (spec s) (protocol s) (handlers s) (username s) (basic s)
    (gssapi_token s) (gssctx s) (sspi_token s) (sspi_context s) v (nonce s)
    (cnonce s) (opaque s) (qop s) (alg s) (nonce_count s) (h_a1 s) (stored_rdig s)
    (error s) (prompts s) (rand_calls s).

Definition set_nonce (v : option string) (s : auth_session) : auth_session :=
  Build_auth_session (context s) (spec s) (protocol s) (handlers s) (username s) (basic s)
    (gssapi_token s) (gssctx s) (sspi_token s) (sspi_context s) (realm s) v
    (cnonce s) (opaque s) (qop s) (alg s) (nonce_count s) (h_a1 s) (stored_rdig s)
    (error s) (prompts s) (rand_calls s).

Definition set_cnonce (v : option string) (s : auth_session) : auth_session :=
  Build_auth_session (context s) (spec s) (protocol s) (handlers s) (username s) (basic s)
    (gssapi_token s) (gssctx s) (sspi_token s) (sspi_context s) (realm s) (nonce s)
    v (opaque s) (qop s) (alg s) (nonce_count s) (h_a1 s) (stored_rdig s)
    (error s) (prompts s) (rand_calls s).

Definition set_opaque (v : option string) (s : auth_session) : auth_session :=
  Build_auth_session (context s) (spec s) (protocol s) (handlers s) (username s) (basic s)
    (gssapi_token s) (gssctx s) (sspi_token s) (sspi_context s) (realm s) (nonce s)
    (cnonce s) v (qop s) (alg s) (nonce_count s) (h_a1 s) (stored_rdig s)
    (error s) (prompts s) (rand_calls s).

Definition set_qop (v : auth_qop) (s : auth_session) : auth_session :=
  Build_auth_session (context s) (spec s) (protocol s) (handlers s) (username s) (basic s)
    (gssapi_token s) (gssctx s) (sspi_token s) (sspi_context s) (realm s) (nonce s)
    (cnonce s) (opaque s) v (alg s) (nonce_count s) (h_a1 s) (stored_rdig s)
    (error s) (prompts s) (rand_calls s).

Definition set_alg (v : auth_algorithm) (s : auth_session) : auth_session :=
  Build_auth_session (context s) (spec s) (protocol s) (handlers s) (username s) (basic s)
    (gssapi_token s) (gssctx s) (sspi_token s) (sspi_context s) (realm s) (nonce s)
    (cnonce s) (opaque s) (qop s) v (nonce_count s) (h_a1 s) (stored_rdig s)
    (error s) (prompts s) (rand_calls s).

Definition set_nonce_count (v : Z) (s : auth_session) : auth_session :=
  Build_auth_session (context s) (spec s) (protocol s) (handlers s) (username s) (basic s)
    (gssapi_token s) (gssctx s) (sspi_token s) (sspi_context s) (realm s) (nonce s)
    (cnonce s) (opaque s) (qop s) (alg s) v (h_a1 s) (stored_rdig s)
    (error s) (prompts s) (rand_calls s).

Definition set_h_a1 (v : string) (s : auth_session) : auth_session :=
  Build_auth_session (context s) (spec s) (protocol s) (handlers s) (username s) (basic s)
    (gssapi_token s) (gssctx s) (sspi_token s) (sspi_context s) (realm s) (nonce s)
    (cnonce s) (opaque s) (qop s) (alg s) (nonce_count s) v (stored_rdig s)
    (error s) (prompts s) (rand_calls s).

Definition set_stored_rdig (v : option ne_md5_ctx) (s : auth_session) : auth_session :=
  Build_auth_session (context s) (spec s) (protocol s) (handlers s) (username s) (basic s)
    (gssapi_token s) (gssctx s) (sspi_token s) (sspi_context s) (realm s) (nonce s)
    (cnonce s) (opaque s) (qop s) (alg s) (nonce_count s) (h_a1 s) v
    (error s) (prompts s) (rand_calls s).

(** [ne_set_error(sess->sess, msg)] *)
Definition ne_set_error (v : string) (s : auth_session) : auth_session :=
  Build_auth_session (context s) (spec s) (protocol s) (handlers s) (username s) (basic s)
    (gssapi_token s) (gssctx s) (sspi_token s) (sspi_context s) (realm s) (nonce s)
    (cnonce s) (opaque s) (qop s) (alg s) (nonce_count s) (h_a1 s) (stored_rdig s)
    v (prompts s) (rand_calls s).

Definition set_prompts (v : list prompt) (s : auth_session) : auth_session :=
  Build_auth_session (context s) (spec s) (protocol s) (handlers s) (username s) (basic s)
    (gssapi_token s) (gssctx s) (sspi_token s) (sspi_context s) (realm s) (nonce s)
    (cnonce s) (opaque s) (qop s) (alg s) (nonce_count s) (h_a1 s) (stored_rdig s)
    (error s) v (rand_calls s).

Definition set_rand_calls (v : nat) (s : auth_session) : auth_session :=
  Build_auth_session (context s) (spec s) (protocol s) (handlers s) (username s) (basic s)
    (gssapi_token s) (gssctx s) (sspi_token s) (sspi_context s) (realm s) (nonce s)
    (cnonce s) (opaque s) (qop s) (alg s) (nonce_count s) (h_a1 s) (stored_rdig s)
    (error s) (prompts s) v.

Definition non_null {A : Type} (p : option A) : bool :=
  match p with
  | Some _ => true
  | None => false
  end.

Definition set_ch_handler (v : option auth_handler) (c : auth_chall) : auth_chall :=
  Build_auth_chall (ch_protocol c) v (ch_realm c) (ch_nonce c) (ch_opaque c)
    (ch_stale c) (ch_got_qop c) (ch_qop_auth c) (ch_alg c).

Definition set_ch_realm (v : option string) (c : auth_chall) : auth_chall :=
  Build_auth_chall (ch_protocol c) (ch_handler c) v (ch_nonce c) (ch_opaque c)
    (ch_stale c) (ch_got_qop c) (ch_qop_auth c) (ch_alg c).

Definition set_ch_nonce (v : option string) (c : auth_chall) : auth_chall :=
  Build_auth_chall (ch_protocol c) (ch_handler c) (ch_realm c) v (ch_opaque c)
    (ch_stale c) (ch_got_qop c) (ch_qop_auth c) (ch_alg c).

Definition set_ch_opaque (v : option string) (c : auth_chall) : auth_chall :=
  Build_auth_chall (ch_protocol c) (ch_handler c) (ch_realm c) (ch_nonce c) v
    (ch_stale c) (ch_got_qop c) (ch_qop_auth c) (ch_alg c).

Definition set_ch_stale (v : bool) (c : auth_chall) : auth_chall :=
  Build_auth_chall (ch_protocol c) (ch_handler c) (ch_realm c) (ch_nonce c) (ch_opaque c)
    v (ch_got_qop c) (ch_qop_auth c) (ch_alg c).

Definition set_ch_got_qop (v : bool) (c : auth_chall) : auth_chall :=
  Build_auth_chall (ch_protocol c) (ch_handler c) (ch_realm c) (ch_nonce c) (ch_opaque c)
    (ch_stale c) v (ch_qop_auth c) (ch_alg c).

Definition set_ch_qop_auth (v : bool) (c : auth_chall) : auth_chall :=
  Build_auth_chall (ch_protocol c) (ch_handler c) (ch_realm c) (ch_nonce c) (ch_opaque c)
    (ch_stale c) (ch_got_qop c) v (ch_alg c).

Definition set_ch_alg (v : auth_algorithm) (c : auth_chall) : auth_chall :=
  Build_auth_chall (ch_protocol c) (ch_handler c) (ch_realm c) (ch_nonce c) (ch_opaque c)
    (ch_stale c) (ch_got_qop c) (ch_qop_auth c) v.

(** ** The static columns of the [protocols] table *)

Definition proto_id (p : proto_ref) : Z :=
  match p with
  | Proto_Basic => NE_AUTH_BASIC
  | Proto_Digest => NE_AUTH_DIGEST
  | Proto_GSS_Negotiate | Proto_SSPI_NTLM | Proto_SSPI_Negotiate => NE_AUTH_NEGOTIATE
  end.

Definition proto_strength (p : proto_ref) : Z :=
  match p with
  | Proto_Basic => 10
  | Proto_Digest => 20
  | Proto_GSS_Negotiate | Proto_SSPI_NTLM | Proto_SSPI_Negotiate => 30
  end.

Definition proto_name (p : proto_ref) : string :=
  match p with
  | Proto_Basic => "Basic"
  | Proto_Digest => "Digest"
  | Proto_SSPI_NTLM => "NTLM"
  | Proto_GSS_Negotiate | Proto_SSPI_Negotiate => "Negotiate"
  end.

Definition proto_flags (p : proto_ref) : Z :=
  match p with
  | Proto_Basic | Proto_Digest => 0
  | Proto_GSS_Negotiate | Proto_SSPI_NTLM | Proto_SSPI_Negotiate =>
      Z.lor AUTH_FLAG_OPAQUE_PARAM AUTH_FLAG_VERIFY_NON40x
  end.

(** ** The tokenizer *)

Inductive tok_state : Type :=
  | BEFORE_EQ
  | AFTER_EQ
  | AFTER_EQ_QUOTED.

(** What one successful call of [tokenize] leaves in its out-parameters.
    [tk_value] and [tk_sep] are [None] when the call did not write
    [*value] or [*sep]: the caller's variable keeps what it held. *)
Record token : Type := {
  tk_key : option string;
  tk_value : option (option string);
  tk_sep : option ascii;
  tk_hdr : string
}.

(** The return value of [tokenize]: 1, -1, or 0 with the token. *)
Inductive tokenized : Type :=
  | Tok_end
  | Tok_malformed
  | Tok_pair (t : token).

Definition app_char (s : string) (c : ascii) : string := s +:+ String c EmptyString.

(** The [do ... while] loop of [tokenize] from the character at [pnt]
    on, followed by the code after the loop when the string ends.  [key]
    holds the characters from [*key] up to [pnt], [value] those from
    [*value] up to [pnt]. *)
Fixpoint tok_scan (ischall : bool) (state : tok_state) (key : option string)
    (value : string) (pnt : string) : tokenized :=
  match pnt with
  | EmptyString =>
      match state with
      | BEFORE_EQ =>
          if ischall && non_null key
          then Tok_pair {| tk_key := key; tk_value := Some None;
                           tk_sep := Some NUL; tk_hdr := EmptyString |}
          else Tok_pair {| tk_key := key; tk_value := None;
                           tk_sep := None; tk_hdr := EmptyString |}
      | _ => Tok_pair {| tk_key := key; tk_value := Some (Some value);
                         tk_sep := None; tk_hdr := EmptyString |}
      end
  | String c pnt' =>
      match state with
      | BEFORE_EQ =>
          if Ascii.eqb c "=" then
            match key with
            | None => Tok_malformed
            | Some _ => tok_scan ischall AFTER_EQ key EmptyString pnt'
            end
          else if (Ascii.eqb c " " || Ascii.eqb c ",") && ischall && non_null key then
            Tok_pair {| tk_key := key; tk_value := Some None;
                        tk_sep := Some c; tk_hdr := pnt' |}
          else
            match key with
            | None =>
                if negb (strchr_in (String " " (String CR (String LF (String TAB "")))) c)
                then tok_scan ischall BEFORE_EQ (Some (String c EmptyString)) value pnt'
                else tok_scan ischall BEFORE_EQ None value pnt'
            | Some k => tok_scan ischall BEFORE_EQ (Some (app_char k c)) value pnt'
            end
      | AFTER_EQ =>
          if Ascii.eqb c "," then
            Tok_pair {| tk_key := key; tk_value := Some (Some value);
                        tk_sep := None; tk_hdr := pnt' |}
          else if Ascii.eqb c DQUOTE then
            tok_scan ischall AFTER_EQ_QUOTED key (app_char value c) pnt'
          else tok_scan ischall AFTER_EQ key (app_char value c) pnt'
      | AFTER_EQ_QUOTED =>
          if Ascii.eqb c DQUOTE then
            tok_scan ischall AFTER_EQ key (app_char value c) pnt'
          else tok_scan ischall AFTER_EQ_QUOTED key (app_char value c) pnt'
      end
  end.

Definition tokenize (hdr : string) (ischall : bool) : tokenized :=
  match hdr with
  | EmptyString => Tok_end
  | _ => tok_scan ischall BEFORE_EQ None EmptyString hdr
  end.

(** The caller's [val] and [sep] after a call that returned zero. *)
Definition assign_value (old : cstr) (t : token) : cstr :=
  match tk_value t with
  | None => old
  | Some None => CNull
  | Some (Some v) => CStr v
  end.

Definition assign_sep (old : option ascii) (t : token) : option ascii :=
  match tk_sep t with
  | None => old
  | Some c => Some c
  end.

(** ** The platform *)

Inductive gss_status : Type :=
  | GSS_S_COMPLETE
  | GSS_S_CONTINUE_NEEDED
  | GSS_S_FAILURE      (* any status for which GSS_ERROR holds *)
  | GSS_S_OTHER.       (* any other status *)

Record gss_reply : Type := {
  gss_major : gss_status;
  gss_context : option nat;     (* the context handle after the call *)
  gss_output : string;          (* the output token, empty when none *)
  gss_messages : string         (* what make_gss_error collects *)
}.

(** What the program takes from outside this file: the build
    configuration, the message digest and base64 of neon, the data
    [get_cnonce] hashes on its k-th call, the GSSAPI and SSPI providers,
    and [verify_negotiate_response], whose body compares the header
    through the difference of two pointers into different buffers. *)
Class Platform : Type := {
  HAVE_GSSAPI : bool;
  HAVE_SSPI : bool;
  md5_hex : string -> string;
  ne_base64 : string -> string;
  ne_unbase64 : string -> string;
  random_data : nat -> string;
  gss_init_sec_context : option nat -> string -> gss_reply;
  ne_sspi_create_context : bool -> Z * option nat;
  ne_sspi_authenticate : option nat -> option string -> Z * option string;
  verify_negotiate_response :
    auth_request -> auth_session -> string -> outcome (Z * auth_session)
}.

Section Model.

Context {P : Platform}.

(** [ne_md5_finish_ascii] *)
Definition ne_md5_finish_ascii (ctx : ne_md5_ctx) : string := md5_hex ctx.

(** ** Session *)

Definition clean_session (sess : auth_session) : auth_session :=
  let sess := set_opaque None (set_nonce None (set_cnonce None
                (set_basic None (set_realm None sess)))) in
  let sess := set_stored_rdig None sess in
  let sess := if HAVE_GSSAPI
              then set_gssapi_token None (set_gssctx None sess) else sess in
  let sess := if HAVE_SSPI
              then set_sspi_context None (set_sspi_token None sess) else sess in
  sess.

Definition get_cnonce (sess : auth_session) : string * auth_session :=
  let hash := ne_md5_create_ctx in
  let hash := ne_md5_process_bytes (random_data (rand_calls sess)) hash in
  (ne_md5_finish_ascii hash, set_rand_calls (S (rand_calls sess)) sess).

(** [get_credentials]: the return value of the callback, the password
    buffer and the session, whose [username] the callback has written.
    Both callers store a non-NULL [sess->realm] just before the call; the
    callback of the embedding takes a string, and a NULL realm is
    reported as a fault. *)
Definition get_credentials (sess : auth_session) (attempt : Z)
    (chall : auth_chall) : outcome (Z * string * auth_session) :=
  match ch_handler chall with
  | None => Fault NullHandler
  | Some handler =>
      match realm sess with
      | None => Fault NullString
      | Some r =>
          let reply := creds handler (prompts sess) r attempt (username sess) in
          Ret (cr_status reply, cr_password reply,
               set_prompts (prompts sess ++ [(r, attempt)])
                 (set_username (cr_username reply) sess))
      end
  end.

(** ** Basic *)

Definition basic_challenge (sess : auth_session) (attempt : Z)
    (parms : auth_chall) : outcome (Z * auth_session) :=
  match ch_realm parms with
  | None => Ret (-1, sess)
  | Some parms_realm =>
      let sess := clean_session sess in
      let sess := set_realm (Some parms_realm) sess in
      '(rc, password, sess) ← get_credentials sess attempt parms;
      if negb (rc =? 0) then Ret (-1, sess)
      else
        let tmp := ne_concat [Some (username sess); Some ":"; Some password] in
        Ret (0, set_basic (Some (ne_base64 tmp)) sess)
  end.

Definition request_basic (sess : auth_session) (req : auth_request)
    : outcome (option string * auth_session) :=
  Ret (Some (ne_concat [Some "Basic "; basic sess; Some CRLF]), sess).

(** ** Negotiate through GSSAPI *)

Definition request_negotiate (sess : auth_session) (req : auth_request)
    : outcome (option string * auth_session) :=
  match gssapi_token sess with
  | Some tok => Ret (Some (ne_concat [Some "Negotiate "; Some tok; Some CRLF]), sess)
  | None => Ret (None, sess)
  end.

Definition continue_negotiate (sess : auth_session) (token : option string)
    : Z * auth_session :=
  let input := match token with
               | Some t => ne_unbase64 t
               | None => EmptyString
               end in
  if non_null token && (String.length input =? 0)%nat then (-1, sess)
  else
    let sess := match token with
                | Some _ => sess
                | None => set_gssctx None sess
                end in
    let reply := gss_init_sec_context (gssctx sess) input in
    let sess := set_gssctx (gss_context reply) sess in
    match gss_major reply with
    | GSS_S_FAILURE =>
        (-1, ne_set_error ("GSSAPI authentication error (" +:+ gss_messages reply +:+ ")") sess)
    | major =>
        let ret := match major with
                   | GSS_S_CONTINUE_NEEDED | GSS_S_COMPLETE => 0
                   | _ => -1
                   end in
        let sess := match major with
                    | GSS_S_CONTINUE_NEEDED => sess
                    | _ => set_gssctx None sess
                    end in
        let sess := if (0 <? String.length (gss_output reply))%nat
                    then set_gssapi_token (Some (ne_base64 (gss_output reply))) sess
                    else sess in
        (ret, sess)
    end.

Definition negotiate_challenge (sess : auth_session) (attempt : Z)
    (chall : auth_chall) : outcome (Z * auth_session) :=
  let token := ch_opaque chall in
  if (attempt =? 0) || non_null token
  then Ret (continue_negotiate sess token)
  else Ret (-1, sess).

(** ** Negotiate and NTLM through SSPI *)

Definition sspi_challenge (sess : auth_session) (attempt : Z)
    (parms : auth_chall) : outcome (Z * auth_session) :=
  let ntlm := ne_strcasecmp (proto_name (ch_protocol parms)) "NTLM" =? 0 in
  let '(status, sess) :=
    match sspi_context sess with
    | Some _ => (0, sess)
    | None =>
        let '(status, ctx) := ne_sspi_create_context ntlm in
        (status, set_sspi_context ctx sess)
    end in
  if negb (status =? 0) then Ret (status, sess)
  else
    let '(status, response) := ne_sspi_authenticate (sspi_context sess) (ch_opaque parms) in
    if negb (status =? 0) then Ret (status, sess)
    else Ret (0, set_sspi_token response sess).

Definition request_sspi (sess : auth_session) (request : auth_request)
    : outcome (option string * auth_session) :=
  match protocol sess with
  | None => Fault NullProtocol
  | Some p =>
      Ret (Some (ne_concat [Some (proto_name p); Some " "; sspi_token sess; Some CRLF]),
           sess)
  end.

(** ** Digest *)

(** [digest_challenge] from the test of the callback's answer on.
    [parms_realm] and [parms_nonce] are the realm and the nonce of the
    challenge; the triple is what [get_credentials] has returned or, for a
    stale challenge, zero, a password buffer that is not read and the
    session as it was.  [sess->realm], [sess->nonce] and [sess->cnonce]
    are at the computation of H(A1) the copies of [parms_realm],
    [parms_nonce] and [cn] made before. *)
Definition digest_finish (parms : auth_chall) (parms_realm parms_nonce : string)
    (x : Z * string * auth_session) : outcome (Z * auth_session) :=
  let '(rc, password, sess) := x in
  if negb (rc =? 0) then Ret (-1, sess)
  else
    let sess := set_alg (ch_alg parms) sess in
    let sess := set_nonce (Some parms_nonce) sess in
    let '(cn, sess) := get_cnonce sess in
    let sess := set_cnonce (Some cn) sess in
    let sess := match ch_opaque parms with
                | Some o => set_opaque (Some o) sess
                | None => sess
                end in
    let sess := if ch_got_qop parms
                then set_qop auth_qop_auth (set_nonce_count 0 sess)
                else set_qop auth_qop_none sess in
    if negb (ch_stale parms) then
      let tmp := ne_md5_create_ctx in
      let tmp := ne_md5_process_bytes (username sess) tmp in
      let tmp := ne_md5_process_bytes ":" tmp in
      let tmp := ne_md5_process_bytes parms_realm tmp in
      let tmp := ne_md5_process_bytes ":" tmp in
      let tmp := ne_md5_process_bytes password tmp in
      match alg sess with
      | auth_alg_md5_sess =>
          let tmp_md5_ascii := ne_md5_finish_ascii tmp in
          let a1 := ne_md5_create_ctx in
          let a1 := ne_md5_process_bytes tmp_md5_ascii a1 in
          let a1 := ne_md5_process_bytes ":" a1 in
          let a1 := ne_md5_process_bytes parms_nonce a1 in
          let a1 := ne_md5_process_bytes ":" a1 in
          let a1 := ne_md5_process_bytes cn a1 in
          Ret (0, set_h_a1 (ne_md5_finish_ascii a1) sess)
      | _ => Ret (0, set_h_a1 (ne_md5_finish_ascii tmp) sess)
      end
    else Ret (0, sess).

Definition digest_challenge (sess : auth_session) (attempt : Z)
    (parms : auth_chall) : outcome (Z * auth_session) :=
  match ch_alg parms, ch_qop_auth parms, ch_realm parms, ch_nonce parms with
  | auth_alg_unknown, _, _, _ =>
      Ret (-1, ne_set_error "Unknown algorithm in Digest authentication challenge" sess)
  | auth_alg_md5_sess, false, _, _ =>
      Ret (-1, ne_set_error "Incompatible algorithm in Digest authentication challenge" sess)
  | _, _, None, _ | _, _, _, None =>
      Ret (-1, ne_set_error "Missing nonce or realm in Digest authentication challenge" sess)
  | _, _, Some parms_realm, Some parms_nonce =>
      (if negb (ch_stale parms) then
         (* Forget the old session details *)
         let sess := clean_session sess in
         let sess := set_realm (Some parms_realm) sess in
         get_credentials sess attempt parms
       else Ret (0, EmptyString, sess))
      ≫= digest_finish parms parms_realm parms_nonce
  end.

Definition alg_name (a : auth_algorithm) : string :=
  match a with
  | auth_alg_md5 => "MD5"
  | _ => "MD5-sess"
  end.

Definition qop_value_auth : string := "auth".

(** [request_digest].  The calls that absorb a fixed number of bytes,
    32 of [h_a1] and of [a2_md5_ascii] and 8 of [nc_value], absorb the
    whole of what these buffers hold. *)
Definition request_digest (sess : auth_session) (req : auth_request)
    : outcome (option string * auth_session) :=
  (* Increase the nonce-count *)
  let sess := match qop sess with
              | auth_qop_none => sess
              | _ => set_nonce_count (uint_incr (nonce_count sess)) sess
              end in
  let nc_value := match qop sess with
                  | auth_qop_none => EmptyString
                  | _ => snprintf_08x (nonce_count sess)
                  end in
  (* H(A2) *)
  let a2 := ne_md5_create_ctx in
  let a2 := ne_md5_process_bytes (req_method req) a2 in
  let a2 := ne_md5_process_bytes ":" a2 in
  let a2 := ne_md5_process_bytes (req_uri req) a2 in
  let a2_md5_ascii := ne_md5_finish_ascii a2 in
  (* Request-Digest *)
  let rdig := ne_md5_create_ctx in
  let rdig := ne_md5_process_bytes (h_a1 sess) rdig in
  let rdig := ne_md5_process_bytes ":" rdig in
  match nonce sess with
  | None => Fault NullString
  | Some sess_nonce =>
      let rdig := ne_md5_process_bytes sess_nonce rdig in
      let rdig := ne_md5_process_bytes ":" rdig in
      '(rdig, sess) ←
        match qop sess with
        | auth_qop_none => Ret (rdig, sess)
        | _ =>
            let rdig := ne_md5_process_bytes nc_value rdig in
            let rdig := ne_md5_process_bytes ":" rdig in
            match cnonce sess with
            | None => Fault NullString
            | Some sess_cnonce =>
                let rdig := ne_md5_process_bytes sess_cnonce rdig in
                let rdig := ne_md5_process_bytes ":" rdig in
                let sess := set_stored_rdig (Some rdig) sess in
                let rdig := ne_md5_process_bytes qop_value_auth rdig in
                let rdig := ne_md5_process_bytes ":" rdig in
                Ret (rdig, sess)
            end
        end;
      let rdig := ne_md5_process_bytes a2_md5_ascii rdig in
      let rdig_md5_ascii := ne_md5_finish_ascii rdig in
      let ret := EmptyString in
      let ret := ne_buffer_concat ret
        [Some ("Digest username=" +:+ dq); Some (username sess);
         Some (dq +:+ ", realm=" +:+ dq); realm sess;
         Some (dq +:+ ", nonce=" +:+ dq); Some sess_nonce;
         Some (dq +:+ ", uri=" +:+ dq); Some (req_uri req);
         Some (dq +:+ ", response=" +:+ dq); Some rdig_md5_ascii;
         Some (dq +:+ ", algorithm=" +:+ dq); Some (alg_name (alg sess));
         Some dq] in
      let ret := match opaque sess with
                 | Some o => ne_buffer_concat ret [Some (", opaque=" +:+ dq); Some o; Some dq]
                 | None => ret
                 end in
      let ret := match qop sess with
                 | auth_qop_none => ret
                 | _ => ne_buffer_concat ret
                          [Some (", cnonce=" +:+ dq); cnonce sess;
                           Some (dq +:+ ", nc="); Some nc_value;
                           Some (", qop=" +:+ dq); Some qop_value_auth; Some dq]
                 end in
      Ret (Some (ret +:+ CRLF), sess)
  end.

(** ** Verification of Authentication-Info *)

(** The locals of [verify_digest_response] while the header is read.
    [ai_nonce_count] is [None] until [sscanf] has stored a value. *)
Record auth_info : Type := {
  ai_pnt : string;
  ai_val : cstr;
  ai_qop : auth_qop;
  ai_qop_value : option string;
  ai_nextnonce : option string;
  ai_rspauth : option string;
  ai_cnonce : option string;
  ai_nc : option string;
  ai_nonce_count : option Z
}.

Definition auth_info_init (value : string) : auth_info :=
  {| ai_pnt := value; ai_val := CUninit; ai_qop := auth_qop_none;
     ai_qop_value := None; ai_nextnonce := None; ai_rspauth := None;
     ai_cnonce := None; ai_nc := None; ai_nonce_count := None |}.

(** The body of the [while] loop for one token. *)
Definition auth_info_step (st : auth_info) (t : token) : outcome auth_info :=
  match assign_value (ai_val st) t with
  | CUninit => Fault UninitRead
  | CNull => Fault NullString
  | CStr v =>
      let val := ne_shave v dq in
      let st := {| ai_pnt := tk_hdr t; ai_val := CStr val; ai_qop := ai_qop st;
                   ai_qop_value := ai_qop_value st; ai_nextnonce := ai_nextnonce st;
                   ai_rspauth := ai_rspauth st; ai_cnonce := ai_cnonce st;
                   ai_nc := ai_nc st; ai_nonce_count := ai_nonce_count st |} in
      match tk_key t with
      | None => Fault NullString
      | Some key =>
          if ne_strcasecmp key "qop" =? 0 then
            Ret {| ai_pnt := ai_pnt st; ai_val := ai_val st;
                   ai_qop := if ne_strcasecmp val "auth" =? 0
                             then auth_qop_auth else auth_qop_none;
                   ai_qop_value := Some val; ai_nextnonce := ai_nextnonce st;
                   ai_rspauth := ai_rspauth st; ai_cnonce := ai_cnonce st;
                   ai_nc := ai_nc st; ai_nonce_count := ai_nonce_count st |}
          else if ne_strcasecmp key "nextnonce" =? 0 then
            Ret {| ai_pnt := ai_pnt st; ai_val := ai_val st; ai_qop := ai_qop st;
                   ai_qop_value := ai_qop_value st; ai_nextnonce := Some val;
                   ai_rspauth := ai_rspauth st; ai_cnonce := ai_cnonce st;
                   ai_nc := ai_nc st; ai_nonce_count := ai_nonce_count st |}
          else if ne_strcasecmp key "rspauth" =? 0 then
            Ret {| ai_pnt := ai_pnt st; ai_val := ai_val st; ai_qop := ai_qop st;
                   ai_qop_value := ai_qop_value st; ai_nextnonce := ai_nextnonce st;
                   ai_rspauth := Some val; ai_cnonce := ai_cnonce st;
                   ai_nc := ai_nc st; ai_nonce_count := ai_nonce_count st |}
          else if ne_strcasecmp key "cnonce" =? 0 then
            Ret {| ai_pnt := ai_pnt st; ai_val := ai_val st; ai_qop := ai_qop st;
                   ai_qop_value := ai_qop_value st; ai_nextnonce := ai_nextnonce st;
                   ai_rspauth := ai_rspauth st; ai_cnonce := Some val;
                   ai_nc := ai_nc st; ai_nonce_count := ai_nonce_count st |}
          else if ne_strcasecmp key "nc" =? 0 then
            match sscanf_x val with
            | ScanUndefined => Fault ScanOverflow
            | scanned =>
                Ret {| ai_pnt := ai_pnt st; ai_val := ai_val st; ai_qop := ai_qop st;
                       ai_qop_value := ai_qop_value st; ai_nextnonce := ai_nextnonce st;
                       ai_rspauth := ai_rspauth st; ai_cnonce := ai_cnonce st;
                       ai_nc := Some val;
                       ai_nonce_count := match scanned with
                                         | ScanOK n => Some n
                                         | _ => ai_nonce_count st
                                         end |}
            end
          else Ret st
      end
  end.

(** [while (tokenize(&pnt, &key, &val, NULL, 0) == 0) ...]; every token
    shortens [pnt], so [fuel] above its length is never used up. *)
Fixpoint auth_info_loop (fuel : nat) (st : auth_info) : outcome auth_info :=
  match fuel with
  | O => Fault OutOfFuel
  | S fuel' =>
      match tokenize (ai_pnt st) false with
      | Tok_pair t => st' ← auth_info_step st t; auth_info_loop fuel' st'
      | _ => Ret st
      end
  end.

Definition parse_auth_info (value : string) : outcome auth_info :=
  auth_info_loop (S (String.length value)) (auth_info_init value).

(** The part of [verify_digest_response] after the header is read, up to
    the check for a nextnonce. *)
Definition verify_decide (req : auth_request) (sess : auth_session)
    (p : auth_info) : outcome (Z * auth_session) :=
  match ai_qop p with
  | auth_qop_none => Ret (NE_OK, sess)
  | auth_qop_auth =>
      match ai_rspauth p, ai_cnonce p, ai_nc p with
      | Some rspauth, Some cnonce_, Some _ =>
          match cnonce sess with
          | None => Fault NullString
          | Some sess_cnonce =>
              if strcmp_ne cnonce_ sess_cnonce then
                Ret (NE_ERROR,
                     ne_set_error
                       "Digest mutual authentication failure: client nonce mismatch" sess)
              else
                match ai_nonce_count p with
                | None => Fault UninitRead
                | Some nonce_count_ =>
                    if negb (nonce_count_ =? nonce_count sess) then
                      Ret (NE_ERROR,
                           ne_set_error
                             ("Digest mutual authentication failure: nonce count mismatch ("
                              +:+ pretty nonce_count_ +:+ " not "
                              +:+ pretty (nonce_count sess) +:+ ")") sess)
                    else
                      (* Modified H(A2) *)
                      let a2 := ne_md5_create_ctx in
                      let a2 := ne_md5_process_bytes ":" a2 in
                      let a2 := ne_md5_process_bytes (req_uri req) a2 in
                      let a2_md5_ascii := ne_md5_finish_ascii a2 in
                      match ai_qop_value p, stored_rdig sess with
                      | None, _ => Fault NullString
                      | _, None => Fault NullContext
                      | Some qop_value, Some rdig =>
                          let rdig := ne_md5_process_bytes qop_value rdig in
                          let rdig := ne_md5_process_bytes ":" rdig in
                          let rdig := ne_md5_process_bytes a2_md5_ascii rdig in
                          let rdig_md5_ascii := ne_md5_finish_ascii rdig in
                          let sess := set_stored_rdig None sess in
                          let ret := if ne_strcasecmp rdig_md5_ascii rspauth =? 0
                                     then NE_OK else NE_ERROR in
                          if negb (ret =? 0) then
                            Ret (ret,
                                 ne_set_error
                                   "Digest mutual authentication failure: request-digest mismatch"
                                   sess)
                          else Ret (ret, sess)
                      end
                end
          end
      | _, _, _ =>
          Ret (NE_ERROR,
               ne_set_error "Digest mutual authentication failure: missing parameters" sess)
      end
  end.

Definition verify_digest_response (req : auth_request) (sess : auth_session)
    (value : string) : outcome (Z * auth_session) :=
  p ← parse_auth_info value;
  '(ret, sess) ← verify_decide req sess p;
  (* Check for a nextnonce *)
  let sess := match ai_nextnonce p with
              | Some nextnonce => set_nonce (Some nextnonce) sess
              | None => sess
              end in
  Ret (ret, sess).

(** ** The protocols table *)

(** [struct auth_protocol]; [verify] is [None] for a NULL pointer. *)
Record auth_protocol : Type := {
  id_ : Z;
  strength : Z;
  name : string;
  challenge : auth_session -> Z -> auth_chall -> outcome (Z * auth_session);
  response : auth_session -> auth_request -> outcome (option string * auth_session);
  verify : option (auth_request -> auth_session -> string -> outcome (Z * auth_session));
  flags : Z
}.

Definition protocol_row (p : proto_ref) : auth_protocol :=
  match p with
  | Proto_Basic =>
      {| id_ := proto_id p; strength := proto_strength p; name := proto_name p;
         challenge := basic_challenge; response := request_basic;
         verify := None; flags := proto_flags p |}
  | Proto_Digest =>
      {| id_ := proto_id p; strength := proto_strength p; name := proto_name p;
         challenge := digest_challenge; response := request_digest;
         verify := Some verify_digest_response; flags := proto_flags p |}
  | Proto_GSS_Negotiate =>
      {| id_ := proto_id p; strength := proto_strength p; name := proto_name p;
         challenge := negotiate_challenge; response := request_negotiate;
         verify := Some verify_negotiate_response; flags := proto_flags p |}
  | Proto_SSPI_NTLM | Proto_SSPI_Negotiate =>
      {| id_ := proto_id p; strength := proto_strength p; name := proto_name p;
         challenge := sspi_challenge; response := request_sspi;
         verify := None; flags := proto_flags p |}
  end.

(** The rows before the terminating [{ 0 }], as the preprocessor leaves
    them. *)
Definition protocols : list proto_ref :=
  [Proto_Basic; Proto_Digest]
  ++ (if HAVE_GSSAPI then [Proto_GSS_Negotiate] else [])
  ++ (if HAVE_SSPI then [Proto_SSPI_NTLM; Proto_SSPI_Negotiate] else []).

(** ** Challenges *)

(** [ne_calloc(sizeof *ret)] followed by [ret->protocol = proto] *)
Definition new_challenge (proto : proto_ref) : auth_chall :=
  {| ch_protocol := proto; ch_handler := None; ch_realm := None; ch_nonce := None;
     ch_opaque := None; ch_stale := false; ch_got_qop := false; ch_qop_auth := false;
     ch_alg := auth_alg_md5 |}.

(** [insert_challenge]: the new list and the place of the new challenge
    in it, which stands for the pointer the C function returns. *)
Fixpoint insert_challenge (lst : list auth_chall) (proto : proto_ref)
    : list auth_chall * nat :=
  match lst with
  | [] => ([new_challenge proto], O)
  | chall :: rest =>
      if proto_strength proto >? proto_strength (ch_protocol chall)
      then (new_challenge proto :: chall :: rest, O)
      else let '(rest', i) := insert_challenge rest proto in (chall :: rest', S i)
  end.

(** The inner [for] loop of [auth_challenge] over the table rows. *)
Fixpoint match_protocol (key : option string) (mask : Z) (rows : list proto_ref)
    : outcome (option proto_ref) :=
  match rows with
  | [] => Ret None
  | p :: rows' =>
      if negb (Z.land (proto_id p) mask =? 0) then
        match key with
        | None => Fault NullString
        | Some k =>
            if ne_strcasecmp k (proto_name p) =? 0 then Ret (Some p)
            else match_protocol key mask rows'
        end
      else match_protocol key mask rows'
  end.

(** The outer [for] loop over the handlers: the protocol found and the
    handler [hdl] at which the loop stopped. *)
Fixpoint claim_challenge (key : option string) (hdls : list auth_handler)
    : outcome (option (proto_ref * auth_handler)) :=
  match hdls with
  | [] => Ret None
  | hdl :: rest =>
      proto ← match_protocol key (protomask hdl) protocols;
      match proto with
      | Some p => Ret (Some (p, hdl))
      | None => claim_challenge key rest
      end
  end.

(** The tokens of a [qop] value between commas, as the [do ... while]
    loop over [ne_token(&val, ',')] visits them. *)
Fixpoint comma_tokens (val : string) : list string :=
  match val with
  | EmptyString => [EmptyString]
  | String c val' =>
      if Ascii.eqb c "," then EmptyString :: comma_tokens val'
      else match comma_tokens val' with
           | tok :: toks => String c tok :: toks
           | [] => [String c EmptyString]
           end
  end.

Definition qop_offers_auth (val : string) : bool :=
  existsb (fun tok => ne_strcasecmp (ne_shave tok (String " " (String TAB ""))) "auth" =? 0)
          (comma_tokens val).

(** The locals of [auth_challenge] while the header is read; [cl_chall]
    is the place in [cl_challenges] that [chall] points at. *)
Record chall_locals : Type := {
  cl_pnt : string;
  cl_val : cstr;
  cl_sep : option ascii;
  cl_chall : option nat;
  cl_challenges : list auth_chall
}.

(** A key=value pair for the challenge at place [i]. *)
Definition challenge_param (key val : string) (i : nat)
    (l : list auth_chall) : list auth_chall * cstr :=
  if ne_strcasecmp key "realm" =? 0 then (alter (set_ch_realm (Some val)) i l, CStr val)
  else if ne_strcasecmp key "nonce" =? 0 then (alter (set_ch_nonce (Some val)) i l, CStr val)
  else if ne_strcasecmp key "opaque" =? 0 then (alter (set_ch_opaque (Some val)) i l, CStr val)
  else if ne_strcasecmp key "stale" =? 0 then
    (alter (set_ch_stale (ne_strcasecmp val "true" =? 0)) i l, CStr val)
  else if ne_strcasecmp key "algorithm" =? 0 then
    (alter (set_ch_alg (if ne_strcasecmp val "md5" =? 0 then auth_alg_md5
                        else if ne_strcasecmp val "md5-sess" =? 0 then auth_alg_md5_sess
                        else auth_alg_unknown)) i l, CStr val)
  else if ne_strcasecmp key "qop" =? 0 then
    (alter (fun c => let c := if qop_offers_auth val then set_ch_qop_auth true c else c in
                     set_ch_got_qop (ch_qop_auth c) c) i l, CNull)
  else (l, CStr val).

(** The result of one turn of the [while] loop: go on with new locals,
    or leave the loop through [break]. *)
Inductive loop_next : Type :=
  | Continue (st : chall_locals)
  | Break (challenges : list auth_chall).

Definition challenge_step (hdls : list auth_handler) (st : chall_locals) (t : token)
    : outcome loop_next :=
  let val := assign_value (cl_val st) t in
  let sep := assign_sep (cl_sep st) t in
  let pnt := tk_hdr t in
  match val with
  | CUninit => Fault UninitRead
  | CNull =>
      claimed ← claim_challenge (tk_key t) hdls;
      match claimed with
      | None =>
          Ret (Continue {| cl_pnt := pnt; cl_val := val; cl_sep := sep;
                           cl_chall := None; cl_challenges := cl_challenges st |})
      | Some (proto, hdl) =>
          let '(challenges, i) := insert_challenge (cl_challenges st) proto in
          let challenges := alter (set_ch_handler (Some hdl)) i challenges in
          if negb (Z.land (proto_flags proto) AUTH_FLAG_OPAQUE_PARAM =? 0) then
            match sep with
            | None => Fault UninitRead
            | Some c =>
                if Ascii.eqb c " " then
                  let '(tok, pnt') := ne_token pnt "," in
                  let challenges :=
                    alter (set_ch_opaque (Some (ne_shave tok (String " " (String TAB "")))))
                          i challenges in
                  match pnt' with
                  | None => Ret (Break challenges)
                  | Some pnt' =>
                      Ret (Continue {| cl_pnt := pnt'; cl_val := val; cl_sep := sep;
                                       cl_chall := Some i; cl_challenges := challenges |})
                  end
                else
                  Ret (Continue {| cl_pnt := pnt; cl_val := val; cl_sep := sep;
                                   cl_chall := Some i; cl_challenges := challenges |})
            end
          else
            Ret (Continue {| cl_pnt := pnt; cl_val := val; cl_sep := sep;
                             cl_chall := Some i; cl_challenges := challenges |})
      end
  | CStr v =>
      match cl_chall st with
      | None =>
          Ret (Continue {| cl_pnt := pnt; cl_val := val; cl_sep := sep;
                           cl_chall := None; cl_challenges := cl_challenges st |})
      | Some i =>
          let v := ne_shave v (String DQUOTE (String SQUOTE "")) in
          match tk_key t with
          | None => Fault NullString
          | Some key =>
              let '(challenges, val) := challenge_param key v i (cl_challenges st) in
              Ret (Continue {| cl_pnt := pnt; cl_val := val; cl_sep := sep;
                               cl_chall := Some i; cl_challenges := challenges |})
          end
      end
  end.

(** [while (!tokenize(&pnt, &key, &val, &sep, 1)) ...] *)
Fixpoint challenge_loop (fuel : nat) (hdls : list auth_handler) (st : chall_locals)
    : outcome (list auth_chall) :=
  match fuel with
  | O => Fault OutOfFuel
  | S fuel' =>
      match tokenize (cl_pnt st) true with
      | Tok_pair t =>
          next ← challenge_step hdls st t;
          match next with
          | Continue st' => challenge_loop fuel' hdls st'
          | Break challenges => Ret challenges
          end
      | _ => Ret (cl_challenges st)
      end
  end.

Definition parse_challenges (hdls : list auth_handler) (value : string)
    : outcome (list auth_chall) :=
  challenge_loop (S (String.length value)) hdls
    {| cl_pnt := value; cl_val := CUninit; cl_sep := None;
       cl_chall := None; cl_challenges := [] |}.

(** The [for] loop of [auth_challenge] over the sorted challenges. *)
Fixpoint try_challenges (sess : auth_session) (attempt : Z)
    (challenges : list auth_chall) : outcome auth_session :=
  match challenges with
  | [] => Ret sess
  | chall :: rest =>
      '(rc, sess) ← challenge (protocol_row (ch_protocol chall)) sess attempt chall;
      if rc =? 0 then Ret (set_protocol (Some (ch_protocol chall)) sess)
      else try_challenges sess attempt rest
  end.

Definition auth_challenge (sess : auth_session) (attempt : Z) (value : string)
    : outcome (Z * auth_session) :=
  challenges ← parse_challenges (handlers sess) value;
  let sess := set_protocol None sess in
  sess ← try_challenges sess attempt challenges;
  Ret (if non_null (protocol sess) then 0 else 1, sess).

(** ** Request hooks *)

Record ne_status : Type := {
  code : Z;
  klass : Z
}.

(** [ah_create]: what is stored in the request's private slot. *)
Definition ah_create (sess : auth_session) (method uri : string) : option auth_request :=
  let is_connect := String.eqb method "CONNECT" in
  match context sess with
  | AUTH_ANY => Some {| req_uri := uri; req_method := method; req_attempt := 0 |}
  | AUTH_CONNECT =>
      if is_connect
      then Some {| req_uri := uri; req_method := method; req_attempt := 0 |} else None
  | AUTH_NOTCONNECT =>
      if negb is_connect
      then Some {| req_uri := uri; req_method := method; req_attempt := 0 |} else None
  end.

(** [ah_pre_send]: the request buffer and the session afterwards. *)
Definition ah_pre_send (sess : auth_session) (req : option auth_request)
    (request : string) : outcome (string * auth_session) :=
  match protocol sess, req with
  | Some p, Some req =>
      '(value, sess) ← response (protocol_row p) sess req;
      match value with
      | Some value =>
          Ret (ne_buffer_concat request [Some (req_hdr (spec sess)); Some ": "; Some value],
               sess)
      | None => Ret (request, sess)
      end
  | _, _ => Ret (request, sess)
  end.

(** A C integer used as a condition. *)
Definition c_true (z : Z) : bool := negb (z =? 0).

Definition is_AUTH_CONNECT (c : auth_context) : bool :=
  match c with
  | AUTH_CONNECT => true
  | _ => false
  end.

(** [ah_post_send]; [headers] is [ne_get_response_header] on the request.
    The result carries the return value, the session and the request
    record, whose attempt counter the challenge branch increments. *)
Definition ah_post_send (areq : option auth_request) (headers : string -> option string)
    (status : ne_status) (sess : auth_session)
    : outcome (Z * auth_session * option auth_request) :=
  match areq with
  | None => Ret (NE_OK, sess, None)
  | Some areq =>
      let auth_hdr := headers (resp_hdr (spec sess)) in
      let auth_info_hdr := headers (resp_info_hdr (spec sess)) in
      let '(auth_hdr, auth_info_hdr) :=
        if is_AUTH_CONNECT (context sess) && (code status =? 401) && negb (non_null auth_hdr)
        then (headers "WWW-Authenticate", None)
        else (auth_hdr, auth_info_hdr) in
      let sess := if HAVE_GSSAPI then set_gssapi_token None sess else sess in
      (* the condition of the first [if] *)
      let first :=
        match auth_info_hdr, protocol sess with
        | Some info, Some p =>
            match verify (protocol_row p) with
            | Some verifier =>
                if Z.land (flags (protocol_row p)) AUTH_FLAG_VERIFY_NON40x =? 0
                then Some (info, verifier)
                else None
            | None => None
            end
        | _, _ => None
        end in
      (* the condition of the second [if] *)
      let second :=
        match protocol sess, auth_hdr with
        | Some p, Some hdr =>
            if c_true (flags (protocol_row p)) && c_true AUTH_FLAG_VERIFY_NON40x
               && ((klass status =? 2) || (klass status =? 3))
            then Some (p, hdr) else None
        | _, _ => None
        end in
      match first, second with
      | Some (info, verifier), _ =>
          '(ret, sess) ← verifier areq sess info;
          Ret (ret, sess, Some areq)
      | None, Some (p, hdr) =>
          match verify (protocol_row p) with
          | None => Fault NullCall
          | Some verifier =>
              '(ret, sess) ← verifier areq sess hdr;
              Ret (ret, sess, Some areq)
          end
      | None, None =>
          match auth_hdr with
          | Some hdr =>
              if (code status =? status_code (spec sess))
                 || ((code status =? 401) && is_AUTH_CONNECT (context sess))
              then
                let attempt := req_attempt areq in
                let areq := {| req_uri := req_uri areq; req_method := req_method areq;
                               req_attempt := attempt + 1 |} in
                '(rc, sess) ← auth_challenge sess attempt hdr;
                if rc =? 0 then Ret (NE_RETRY, sess, Some areq)
                else
                  let sess := clean_session sess in
                  Ret (fail_code (spec sess), sess, Some areq)
              else Ret (NE_OK, sess, Some areq)
          | None => Ret (NE_OK, sess, Some areq)
          end
          (* the last branch, [ne_sspi_clear_context], acts on the provider
             only *)
      end
  end.

(** [ne_forget_auth] on the server and the proxy session, where they
    exist. *)
Definition ne_forget_auth (server proxy : option auth_session)
    : option auth_session * option auth_session :=
  (clean_session <$> server, clean_session <$> proxy).

(** ** Registration *)

(** The handler list after [auth_register] has walked it with
    [while ( *hdl && ( *hdl)->next) hdl = &( *hdl)->next] and stored the new
    handler through [hdl]. *)
Fixpoint register_handler (hdls : list auth_handler) (new : auth_handler)
    : list auth_handler :=
  match hdls with
  | [] => [new]
  | [_] => [new]
  | hdl :: rest => hdl :: register_handler rest new
  end.

Definition zero_bytes (n : nat) : string :=
  string_of_list_ascii (repeat NUL n).

(** The session [ne_calloc] returns in [auth_register]. *)
Definition new_session (scheme : string) (isproxy : bool) (ahc : auth_class)
    : auth_session :=
  {| context := if String.eqb scheme "https"
                then (if isproxy then AUTH_CONNECT else AUTH_NOTCONNECT)
                else AUTH_ANY;
     spec := ahc; protocol := None; handlers := []; username := EmptyString;
     basic := None; gssapi_token := None; gssctx := None; sspi_token := None;
     sspi_context := None; realm := None; nonce := None; cnonce := None;
     opaque := None; qop := auth_qop_none; alg := auth_alg_md5; nonce_count := 0;
     h_a1 := zero_bytes 32; stored_rdig := None; error := EmptyString;
     prompts := []; rand_calls := O |}.

(** [auth_register]; [private] is what [ne_get_session_private] returns
    and [scheme] what [ne_get_scheme] returns. *)
Definition auth_register (private : option auth_session) (scheme : string)
    (isproxy : bool) (mask : Z) (ahc : auth_class) (callback : ne_auth_creds)
    : auth_session :=
  let ahs := match private with
             | Some ahs => ahs
             | None => new_session scheme isproxy ahc
             end in
  set_handlers (register_handler (handlers ahs)
                  {| protomask := mask; creds := callback |}) ahs.

Definition auth_register_default (private : option auth_session) (scheme : string)
    (isproxy : bool) (ahc : auth_class) (callback : ne_auth_creds) : auth_session :=
  let mask := Z.lor NE_AUTH_BASIC NE_AUTH_DIGEST in
  let mask := if String.eqb scheme "https" || isproxy
              then Z.lor mask NE_AUTH_NEGOTIATE else mask in
  auth_register private scheme isproxy mask ahc callback.

Definition ne_set_server_auth (private : option auth_session) (scheme : string)
    (callback : ne_auth_creds) : auth_session :=
  auth_register_default private scheme false ah_server_class callback.

Definition ne_set_proxy_auth (private : option auth_session) (scheme : string)
    (callback : ne_auth_creds) : auth_session :=
  auth_register_default private scheme true ah_proxy_class callback.

Definition ne_add_server_auth (private : option auth_session) (scheme : string)
    (mask : Z) (callback : ne_auth_creds) : auth_session :=
  auth_register private scheme false mask ah_server_class callback.

Definition ne_add_proxy_auth (private : option auth_session) (scheme : string)
    (mask : Z) (callback : ne_auth_creds) : auth_session :=
  auth_register private scheme true mask ah_proxy_class callback.

End Model.

(** * Notions used in the statements *)

Definition quoted (s : string) : string := dq +:+ s +:+ dq.

Definition is_lower_hex (c : ascii) : bool := strchr_in "0123456789abcdef" c.

(** ** Requests *)

(** The bytes a qop=auth request has absorbed when it takes the snapshot
    kept in [stored_rdig]. *)
Definition rdig_snapshot (sess : auth_session) (n c : string) : ne_md5_ctx :=
  ne_md5_process_bytes ":" (ne_md5_process_bytes c
    (ne_md5_process_bytes ":" (ne_md5_process_bytes (snprintf_08x (uint_incr (nonce_count sess)))
      (ne_md5_process_bytes ":" (ne_md5_process_bytes n
        (ne_md5_process_bytes ":" (ne_md5_process_bytes (h_a1 sess) ne_md5_create_ctx))))))).

(** The session after a qop=auth request. *)
Definition after_request (sess : auth_session) (n c : string) : auth_session :=
  set_stored_rdig (Some (rdig_snapshot sess n c))
    (set_nonce_count (uint_incr (nonce_count sess)) sess).

(** ** Verification *)

(** The response digest in the words of the specification: resume the
    stored context, absorb the qop value, a colon and the hexadecimal
    digest of a colon followed by the request URI, and finalize. *)
Definition response_digest {P : Platform} (stored : ne_md5_ctx) (qop_value uri : string)
    : string :=
  md5_hex (stored +:+ qop_value +:+ ":" +:+ md5_hex (":" +:+ uri)).

(** The session with the nextnonce of the header, if any, as its nonce. *)
Definition apply_nextnonce (p : auth_info) (sess : auth_session) : auth_session :=
  match ai_nextnonce p with
  | Some nextnonce => set_nonce (Some nextnonce) sess
  | None => sess
  end.

(** What the loop of the verifier keeps true of its locals: [qop] is
    [auth] only if the last qop parameter read said so. *)
Definition qop_value_ok (st : auth_info) : Prop :=
  ai_qop st = auth_qop_auth ->
  exists qv, ai_qop_value st = Some qv /\ ne_strcasecmp qv "auth" = 0.

(** The verifier gets as far as comparing the digests. *)
Definition reaches_comparison (sess : auth_session) (p : auth_info) : bool :=
  match ai_qop p, ai_rspauth p, ai_cnonce p, ai_nc p, cnonce sess, ai_nonce_count p with
  | auth_qop_auth, Some _, Some c, Some _, Some sc, Some k =>
      String.eqb c sc && (k =? nonce_count sess)
  | _, _, _, _, _, _ => false
  end.

(** ** Operations on the Digest state *)

(** The first three checks of the Digest acceptor pass. *)
Definition digest_passes (parms : auth_chall) : bool :=
  match ch_alg parms, ch_qop_auth parms with
  | auth_alg_unknown, _ | auth_alg_md5_sess, false => false
  | _, _ => non_null (ch_realm parms) && non_null (ch_nonce parms)
  end.

(** The Digest acceptor gets as far as forgetting the old session. *)
Definition digest_clears (parms : auth_chall) : bool :=
  digest_passes parms && negb (ch_stale parms).

(** The functions that act on the Digest state of a session. *)
Inductive digest_op : Type :=
  | Op_clean
  | Op_basic_challenge (attempt : Z) (parms : auth_chall)
  | Op_digest_challenge (attempt : Z) (parms : auth_chall)
  | Op_request (req : auth_request)
  | Op_verify (req : auth_request) (value : string).

Definition run_op {P : Platform} (op : digest_op) (sess : auth_session)
    : outcome auth_session :=
  match op with
  | Op_clean => Ret (clean_session sess)
  | Op_basic_challenge attempt parms => snd <$> basic_challenge sess attempt parms
  | Op_digest_challenge attempt parms => snd <$> digest_challenge sess attempt parms
  | Op_request req => snd <$> request_digest sess req
  | Op_verify req value => snd <$> verify_digest_response req sess value
  end.

(** Whether a qop=auth request has been produced since the last
    comparison of digests or clearing of the session: [b] before the
    operation, the result after it. *)
Definition outstanding_after (op : digest_op) (sess : auth_session) (b : bool) : bool :=
  match op with
  | Op_clean => false
  | Op_basic_challenge _ parms => if non_null (ch_realm parms) then false else b
  | Op_digest_challenge _ parms => if digest_clears parms then false else b
  | Op_request _ =>
      match qop sess with
      | auth_qop_none => b
      | _ => true
      end
  | Op_verify _ value =>
      match parse_auth_info value with
      | Ret p => if reaches_comparison sess p then false else b
      | Fault _ => b
      end
  end.

(** A run of operations, with the record of whether a qop=auth request
    is outstanding kept alongside. *)
Fixpoint run_ops {P : Platform} (ops : list digest_op) (sess : auth_session) (b : bool)
    : outcome (auth_session * bool) :=
  match ops with
  | [] => Ret (sess, b)
  | op :: rest =>
      sess' ← run_op op sess;
      run_ops rest sess' (outstanding_after op sess b)
  end.

(** ** Challenges *)

(** The challenge list is in non-increasing order of strength. *)
Definition sorted_by_strength (l : list auth_chall) : Prop :=
  StronglySorted (fun a b => proto_strength b <= proto_strength a) (ch_protocol <$> l).

(** The list after a sequence of insertions into the empty list. *)
Definition insert_all (protos : list proto_ref) : list auth_chall :=
  fold_left (fun l proto => fst (insert_challenge l proto)) protos [].

(** What the parser keeps true of the challenge list: it is sorted and
    every challenge has the handler that claimed it. *)
Definition challenges_ok (l : list auth_chall) : Prop :=
  sorted_by_strength l /\ Forall (fun c => non_null (ch_handler c) = true) l.

(** The handler with mask [mask] admits the table row [p] for the token
    [key]. *)
Definition admits (mask : Z) (key : string) (p : proto_ref) : bool :=
  negb (Z.land (proto_id p) mask =? 0) && (ne_strcasecmp key (proto_name p) =? 0).

(** The acceptors are called in list order, each on the session the one
    before has left, until one returns zero: the session after the last
    call and the protocol of the challenge accepted, if any. *)
Inductive accept_run {P : Platform} (attempt : Z)
    : auth_session -> list auth_chall -> auth_session -> option proto_ref -> Prop :=
  | accept_none (sess : auth_session) :
      accept_run attempt sess [] sess None
  | accept_first (sess sess' : auth_session) (chall : auth_chall) (rest : list auth_chall) :
      challenge (protocol_row (ch_protocol chall)) sess attempt chall = Ret (0, sess') ->
      accept_run attempt sess (chall :: rest) sess' (Some (ch_protocol chall))
  | accept_next (sess sess1 sess' : auth_session) (chall : auth_chall)
      (rest : list auth_chall) (rc : Z) (selected : option proto_ref) :
      challenge (protocol_row (ch_protocol chall)) sess attempt chall = Ret (rc, sess1) ->
      rc <> 0 ->
      accept_run attempt sess1 rest sess' selected ->
      accept_run attempt sess (chall :: rest) sess' selected.

(** * Concrete platforms and inputs *)

(** A build without GSSAPI and SSPI; the digest wraps its input, so that
    the bytes hashed can be read off the result. *)
Definition demo_platform : Platform :=
  {| HAVE_GSSAPI := false;
     HAVE_SSPI := false;
     md5_hex := fun s => "md5(" +:+ s +:+ ")";
     ne_base64 := fun s => "b64(" +:+ s +:+ ")";
     ne_unbase64 := fun s => s;
     random_data := fun k => "rnd" +:+ pretty k;
     gss_init_sec_context := fun _ _ =>
       {| gss_major := GSS_S_FAILURE; gss_context := None;
          gss_output := EmptyString; gss_messages := "no provider" |};
     ne_sspi_create_context := fun _ => (1, None);
     ne_sspi_authenticate := fun _ _ => (1, None);
     verify_negotiate_response := fun _ sess _ => Ret (NE_ERROR, sess) |}.

(** The same with SSPI compiled in and a provider that answers every
    call with a token. *)
Definition sspi_platform : Platform :=
  {| HAVE_GSSAPI := false;
     HAVE_SSPI := true;
     md5_hex := fun s => "md5(" +:+ s +:+ ")";
     ne_base64 := fun s => "b64(" +:+ s +:+ ")";
     ne_unbase64 := fun s => s;
     random_data := fun k => "rnd" +:+ pretty k;
     gss_init_sec_context := fun _ _ =>
       {| gss_major := GSS_S_FAILURE; gss_context := None;
          gss_output := EmptyString; gss_messages := "no provider" |};
     ne_sspi_create_context := fun _ => (0, Some 1%nat);
     ne_sspi_authenticate := fun _ _ => (0, Some "dG9rZW4=");
     verify_negotiate_response := fun _ sess _ => Ret (NE_ERROR, sess) |}.

(** Callbacks: one that answers jo / foo, one that answers al / bar. *)
Definition creds_jo : ne_auth_creds := fun _ _ _ _ =>
  {| cr_status := 0; cr_username := "jo"; cr_password := "foo" |}.

Definition creds_al : ne_auth_creds := fun _ _ _ _ =>
  {| cr_status := 0; cr_username := "al"; cr_password := "bar" |}.

Definition handler_jo : auth_handler :=
  {| protomask := Z.lor NE_AUTH_BASIC NE_AUTH_DIGEST; creds := creds_jo |}.

Definition get_root : auth_request :=
  {| req_uri := "/"; req_method := "GET"; req_attempt := 0 |}.

(** One default registration on a plain-HTTP server session. *)
Definition registered_jo : auth_session := ne_set_server_auth None "http" creds_jo.

(** Two registrations for Basic on one session: the callback of jo
    first, that of al second. *)
Definition registered_twice : auth_session :=
  ne_add_server_auth
    (Some (ne_add_server_auth None "http" NE_AUTH_BASIC creds_jo))
    "http" NE_AUTH_BASIC creds_al.

(** [Basic realm="x"] *)
Definition challenge_basic : string := "Basic realm=" +:+ quoted "x".

(** [Basic realm="x", Digest realm="x", nonce="y"] *)
Definition challenge_priority : string :=
  "Basic realm=" +:+ quoted "x" +:+ ", Digest realm=" +:+ quoted "x"
  +:+ ", nonce=" +:+ quoted "y".

(** A Digest session as the challenge
    [Digest realm="x", nonce="abc", qop="auth"] and [sent] requests leave
    it, with [rdig] as the stored context. *)
Definition digest_session (sent : Z) (rdig : option ne_md5_ctx) : auth_session :=
  {| context := AUTH_ANY; spec := ah_server_class; protocol := Some Proto_Digest;
     handlers := [handler_jo]; username := "jo"; basic := None;
     gssapi_token := None; gssctx := None; sspi_token := None; sspi_context := None;
     realm := Some "x"; nonce := Some "abc"; cnonce := Some "md5(rnd0)";
     opaque := None; qop := auth_qop_auth; alg := auth_alg_md5; nonce_count := sent;
     h_a1 := "md5(jo:x:foo)"; stored_rdig := rdig; error := EmptyString;
     prompts := [("x", 0)]; rand_calls := 1%nat |}.

(** A parsed Digest challenge, as [auth_challenge] hands it to the
    acceptor. *)
Definition digest_parms (stale got_qop : bool) (new_nonce : string) : auth_chall :=
  {| ch_protocol := Proto_Digest; ch_handler := Some handler_jo;
     ch_realm := Some "x"; ch_nonce := Some new_nonce; ch_opaque := None;
     ch_stale := stale; ch_got_qop := got_qop; ch_qop_auth := got_qop;
     ch_alg := auth_alg_md5 |}.

(** The session after two requests and the stale challenge
    [stale=true, nonce="def", qop="auth"]. *)
Definition stale_accepted : auth_session :=
  set_qop auth_qop_auth (set_nonce_count 0 (set_cnonce (Some "md5(rnd1)")
    (set_rand_calls 2%nat (set_nonce (Some "def") (digest_session 2 None))))).

(** [qop=auth, rspauth="deadbeef", cnonce="md5(rnd0)", nc=00000001] *)
Definition auth_info_deadbeef : string :=
  "qop=auth, rspauth=" +:+ quoted "deadbeef" +:+ ", cnonce=" +:+ quoted "md5(rnd0)"
  +:+ ", nc=00000001".

(** The session after one request, and after the verifier has refused
    [auth_info_deadbeef] followed by [nextnonce="def"]. *)
Definition nextnonce_before : auth_session :=
  digest_session 1 (Some "md5(jo:x:foo):abc:00000001:md5(rnd0):").

Definition nextnonce_after : auth_session :=
  set_nonce (Some "def")
    (ne_set_error "Digest mutual authentication failure: request-digest mismatch"
       (set_stored_rdig None nextnonce_before)).

(** The response headers of a reply that carries one header. *)
Definition challenge_only (name value : string) : string -> option string :=
  fun h => if String.eqb h name then Some value else None.

(** A server session over https in a build with SSPI, after the
    challenge [Negotiate] has been accepted. *)
Definition sspi_registered : auth_session := ne_set_server_auth None "https" creds_jo.

Definition sspi_selected : auth_session :=
  match ah_post_send (P := sspi_platform) (ah_create sspi_registered "GET" "/")
          (challenge_only "WWW-Authenticate" "Negotiate")
          {| code := 401; klass := 4 |} sspi_registered with
  | Ret (_, sess, _) => sess
  | Fault _ => sspi_registered
  end.

(** The session a response leaves, and the one a request leaves, for
    walking through a scenario step by step. *)
Definition session_after_response {P : Platform} (headers : string -> option string)
    (status : ne_status) (sess : auth_session) : auth_session :=
  match ah_post_send (ah_create sess "GET" "/") headers status sess with
  | Ret (_, sess', _) => sess'
  | Fault _ => sess
  end.

Definition session_after_request {P : Platform} (sess : auth_session) : auth_session :=
  match ah_pre_send sess (ah_create sess "GET" "/") EmptyString with
  | Ret (_, sess') => sess'
  | Fault _ => sess
  end.

Definition unauthorized : ne_status := {| code := 401; klass := 4 |}.
Definition success : ne_status := {| code := 200; klass := 2 |}.

(** [Digest realm="x", nonce="abc"] and the same with [qop="auth"] *)
Definition challenge_2069 : string :=
  "Digest realm=" +:+ quoted "x" +:+ ", nonce=" +:+ quoted "abc".

Definition challenge_2617 : string := challenge_2069 +:+ ", qop=" +:+ quoted "auth".

(** [Digest realm="x", nonce="def", qop="auth", stale=true] *)
Definition challenge_stale : string :=
  "Digest realm=" +:+ quoted "x" +:+ ", nonce=" +:+ quoted "def"
  +:+ ", qop=" +:+ quoted "auth" +:+ ", stale=true".

(** The session of the qop scenario after the challenge and one, and
    two, requests. *)
Definition sent_once : auth_session :=
  session_after_request (P := demo_platform)
    (session_after_response (P := demo_platform)
       (challenge_only "WWW-Authenticate" challenge_2617) unauthorized registered_jo).

Definition sent_twice : auth_session := session_after_request (P := demo_platform) sent_once.

(** * Further notions used in the statements *)

(** ** Header text *)

(** The characters [tokenize] passes over in front of a key. *)
Definition key_blanks : string := String " " (String CR (String LF (String TAB ""))).

(** Every character of [s] satisfies [f]. *)
Fixpoint all_chars (f : ascii -> bool) (s : string) : bool :=
  match s with
  | EmptyString => true
  | String c s' => f c && all_chars f s'
  end.

(** A character that [tokenize] takes into a key once the key has
    begun: not the equals sign and, for a challenge, neither a space nor
    a comma. *)
Definition key_char (ischall : bool) (c : ascii) : bool :=
  negb (Ascii.eqb c "=") && negb (ischall && (Ascii.eqb c " " || Ascii.eqb c ",")).

(** A key as [tokenize] returns it whole: it begins with a character
    that is not passed over and consists of key characters. *)
Definition key_ok (ischall : bool) (k : string) : bool :=
  match k with
  | EmptyString => false
  | String c _ => negb (strchr_in key_blanks c) && all_chars (key_char ischall) k
  end.

(** Reading a value from left to right: [inq] tells whether a double
    quote is open.  The result is [None] when a comma is met outside
    quotes, and otherwise tells whether a quote is open at the end. *)
Fixpoint value_scan (inq : bool) (v : string) : option bool :=
  match v with
  | EmptyString => Some inq
  | String c v' =>
      if Ascii.eqb c DQUOTE then value_scan (negb inq) v'
      else if Ascii.eqb c "," && negb inq then None
      else value_scan inq v'
  end.

(** The state of [tokenize] inside a value. *)
Definition value_state (inq : bool) : tok_state :=
  if inq then AFTER_EQ_QUOTED else AFTER_EQ.

(** A string without a double quote. *)
Definition no_dquote (s : string) : bool :=
  all_chars (fun ch => negb (Ascii.eqb ch DQUOTE)) s.

(** The characters [auth_challenge] shaves off a value. *)
Definition quote_set : string := String DQUOTE (String SQUOTE "").

(** A string without double and single quotes. *)
Definition no_quotes (s : string) : bool :=
  all_chars (fun ch => negb (strchr_in quote_set ch)) s.

(** ** The parameters of an Authentication-Info value *)











(** ** The loops over a header *)

(** The loop of [verify_digest_response] from the locals [st] on. *)
Definition auth_info_from (st : auth_info) : outcome auth_info :=
  auth_info_loop (S (String.length (ai_pnt st))) st.

(** The locals of [auth_challenge] before the first token is read. *)
Definition chall_locals_init (value : string) : chall_locals :=
  {| cl_pnt := value; cl_val := CUninit; cl_sep := None;
     cl_chall := None; cl_challenges := [] |}.

(** The loop of [auth_challenge] over the header from the locals [st]
    on. *)
Definition challenges_from {P : Platform} (hdls : list auth_handler) (st : chall_locals)
    : outcome (list auth_chall) :=
  challenge_loop (S (String.length (cl_pnt st))) hdls st.

(** The challenge [c] is for a row of the table and carries a handler of
    the chain [hdls] whose mask has the bit of that row. *)
Definition claimed_by {P : Platform} (hdls : list auth_handler) (c : auth_chall) : Prop :=
  In (ch_protocol c) protocols
  /\ exists hdl, ch_handler c = Some hdl /\ In hdl hdls
                 /\ Z.land (proto_id (ch_protocol c)) (protomask hdl) <> 0.

(** ** Headers as a server and a client write them *)

(** An Authentication-Info value with qop=auth: the response digest
    [r], the client nonce [c] and the count [k]. *)
Definition auth_info_reply (r c : string) (k : Z) : string :=
  "qop=auth, rspauth=" +:+ quoted r +:+ ", cnonce=" +:+ quoted c
  +:+ ", nc=" +:+ snprintf_08x k.

(** A Basic challenge and a Digest challenge, the Digest one with or
    without qop="auth". *)
Definition basic_challenge_text (r : string) : string := "Basic realm=" +:+ quoted r.

Definition digest_challenge_text (r n : string) (with_qop : bool) : string :=
  "Digest realm=" +:+ quoted r +:+ ", nonce=" +:+ quoted n
  +:+ (if with_qop then ", qop=" +:+ quoted "auth" else EmptyString).

(** What [auth_challenge] makes of them for the handler [hdl]. *)
Definition basic_challenge_parsed (hdl : auth_handler) (r : string) : auth_chall :=
  {| ch_protocol := Proto_Basic; ch_handler := Some hdl; ch_realm := Some r;
     ch_nonce := None; ch_opaque := None; ch_stale := false; ch_got_qop := false;
     ch_qop_auth := false; ch_alg := auth_alg_md5 |}.

Definition digest_challenge_parsed (hdl : auth_handler) (r n : string) (with_qop : bool)
    : auth_chall :=
  {| ch_protocol := Proto_Digest; ch_handler := Some hdl; ch_realm := Some r;
     ch_nonce := Some n; ch_opaque := None; ch_stale := false; ch_got_qop := with_qop;
     ch_qop_auth := with_qop; ch_alg := auth_alg_md5 |}.

(** ** The digests of RFC 2617 *)

(** H(A1) for the two algorithms. *)
Definition h_a1_expected {P : Platform} (a : auth_algorithm) (user r pw n cn : string)
    : string :=
  match a with
  | auth_alg_md5_sess =>
      md5_hex (md5_hex (user +:+ ":" +:+ r +:+ ":" +:+ pw) +:+ ":" +:+ n +:+ ":" +:+ cn)
  | _ => md5_hex (user +:+ ":" +:+ r +:+ ":" +:+ pw)
  end.

(** The credentials for a Digest request.  [q] holds the client nonce
    and the count when qop=auth is in force.  The response is the digest
    of H(A1), the nonce, with qop=auth the count, the client nonce and
    the qop, and the digest of method, colon and URI, with colons
    between. *)
Definition digest_credentials {P : Platform} (user r n uri method ha1 : string)
    (a : auth_algorithm) (o : option string) (q : option (string * Z)) : string :=
  "Digest username=" +:+ quoted user +:+ ", realm=" +:+ quoted r
  +:+ ", nonce=" +:+ quoted n +:+ ", uri=" +:+ quoted uri
  +:+ ", response="
  +:+ quoted (md5_hex (ha1 +:+ ":" +:+ n +:+ ":"
                       +:+ match q with
                           | Some (c, k) => snprintf_08x k +:+ ":" +:+ c +:+ ":auth:"
                           | None => EmptyString
                           end
                       +:+ md5_hex (method +:+ ":" +:+ uri)))
  +:+ ", algorithm=" +:+ quoted (alg_name a)
  +:+ match o with
      | Some o => ", opaque=" +:+ quoted o
      | None => EmptyString
      end
  +:+ match q with
      | Some (c, k) =>
          ", cnonce=" +:+ quoted c +:+ ", nc=" +:+ snprintf_08x k
          +:+ ", qop=" +:+ quoted "auth"
      | None => EmptyString
      end
  +:+ CRLF.

(** The response digest a server sends back for a qop=auth request of
    the session: the digest of H(A1), the nonce, the count, the client
    nonce, the qop and the digest of a colon and the URI, with colons
    between. *)
Definition rspauth_expected {P : Platform} (sess : auth_session) (n c uri : string) : string :=
  md5_hex (h_a1 sess +:+ ":" +:+ n +:+ ":" +:+ snprintf_08x (nonce_count sess)
           +:+ ":" +:+ c +:+ ":" +:+ "auth" +:+ ":" +:+ md5_hex (":" +:+ uri)).

(** ** Sessions and requests *)

(** What registration has fixed of a session: the context, the class
    and the handler chain. *)
Definition registration (s : auth_session) : auth_context * auth_class * list auth_handler :=
  (context s, spec s, handlers s).

(** A run of registrations on one session: [private] is what
    [ne_get_session_private] returns before each of them. *)
Definition register_all (scheme : string) (isproxy : bool) (ahc : auth_class)
    (regs : list (Z * ne_auth_creds)) (private : option auth_session)
    : option auth_session :=
  fold_left (fun priv reg => Some (auth_register priv scheme isproxy (fst reg) ahc (snd reg)))
            regs private.

(** The request record after a challenge has been counted. *)
Definition next_attempt (areq : auth_request) : auth_request :=
  {| req_uri := req_uri areq; req_method := req_method areq;
     req_attempt := req_attempt areq + 1 |}.

(** The session as [ah_post_send] has it when it looks at the status. *)
Definition token_forgotten {P : Platform} (sess : auth_session) : auth_session :=
  if HAVE_GSSAPI then set_gssapi_token None sess else sess.

(** ** Negotiate *)

(** [negotiate_challenge] gets as far as the security provider: the
    challenge is the first one or carries a token, and the token, if
    any, decodes to something. *)
Definition negotiate_asks {P : Platform} (attempt : Z) (token : option string) : bool :=
  ((attempt =? 0) || non_null token)
  && match token with
     | Some t => negb (String.length (ne_unbase64 t) =? 0)%nat
     | None => true
     end.

(** What the provider answers then: it is given the context of the
    session with a token and no context without one. *)
Definition negotiate_reply {P : Platform} (sess : auth_session) (token : option string)
    : gss_reply :=
  match token with
  | Some t => gss_init_sec_context (gssctx sess) (ne_unbase64 t)
  | None => gss_init_sec_context None EmptyString
  end.

(** A build with GSSAPI and a provider that asks for one more round and
    hands out a token. *)
Definition gss_platform : Platform :=
  {| HAVE_GSSAPI := true;
     HAVE_SSPI := false;
     md5_hex := fun s => "md5(" +:+ s +:+ ")";
     ne_base64 := fun s => "b64(" +:+ s +:+ ")";
     ne_unbase64 := fun s => s;
     random_data := fun k => "rnd" +:+ pretty k;
     gss_init_sec_context := fun _ _ =>
       {| gss_major := GSS_S_CONTINUE_NEEDED; gss_context := Some 7%nat;
          gss_output := "tok"; gss_messages := EmptyString |};
     ne_sspi_create_context := fun _ => (1, None);
     ne_sspi_authenticate := fun _ _ => (1, None);
     verify_negotiate_response := fun _ sess _ => Ret (NE_ERROR, sess) |}.

(** A server session over https. *)
Definition gss_registered : auth_session := ne_set_server_auth None "https" creds_jo.

(** * Properties *)

(** ** Strings and hexadecimal numbers *)

Lemma append_cons (x : ascii) (a b : string) : String x a +:+ b = String x (a +:+ b).
Proof. reflexivity. Qed.

Lemma append_nil_l (a : string) : EmptyString +:+ a = a.
Proof. reflexivity. Qed.

Lemma append_assoc (a b c : string) : (a +:+ b) +:+ c = a +:+ (b +:+ c).
Proof.
  induction a as [|x a IH]; [reflexivity|].
  rewrite !append_cons. now rewrite IH.
Qed.

Lemma hex_digit_cases (d : Z) :
  0 <= d < 16 ->
  d = 0 \/ d = 1 \/ d = 2 \/ d = 3 \/ d = 4 \/ d = 5 \/ d = 6 \/ d = 7 \/
  d = 8 \/ d = 9 \/ d = 10 \/ d = 11 \/ d = 12 \/ d = 13 \/ d = 14 \/ d = 15.
Proof. lia. Qed.

Ltac each_digit H :=
  destruct (hex_digit_cases _ H) as
    [->|[->|[->|[->|[->|[->|[->|[->|[->|[->|[->|[->|[->|[->|[->| ->]]]]]]]]]]]]]]].

Lemma hex_value_digit (d : Z) : 0 <= d < 16 -> hex_value (hex_digit d) = Some d.
Proof. intros H. each_digit H; reflexivity. Qed.

Lemma nibble_range (n i : Z) : 0 <= nibble n i < 16.
Proof. unfold nibble. apply Z.mod_pos_bound. lia. Qed.

Lemma scan_hex_digit (acc : option Z) (d : Z) (r : string) :
  0 <= d < 16 ->
  scan_hex_digits acc (String (hex_digit d) r)
  = scan_hex_digits (Some (16 * default 0 acc + d)) r.
Proof. intros H. simpl. now rewrite hex_value_digit. Qed.

Lemma nibbles_sum (n : Z) :
  0 <= n < UINT_MOD ->
  16 * (16 * (16 * (16 * (16 * (16 * (16 * nibble n 7 + nibble n 6) + nibble n 5)
    + nibble n 4) + nibble n 3) + nibble n 2) + nibble n 1) + nibble n 0 = n.
Proof.
  unfold UINT_MOD, nibble. intros H.
  change (16 ^ 7) with 268435456. change (16 ^ 6) with 16777216.
  change (16 ^ 5) with 1048576. change (16 ^ 4) with 65536.
  change (16 ^ 3) with 4096. change (16 ^ 2) with 256.
  change (16 ^ 1) with 16. change (16 ^ 0) with 1.
  change (2 ^ 32) with 4294967296 in H.
  Z.div_mod_to_equations. lia.
Qed.

Lemma skip_space_digit (d : Z) (r : string) :
  0 <= d < 16 ->
  skip_leading isspace_set (String (hex_digit d) r) = String (hex_digit d) r.
Proof. intros H. each_digit H; reflexivity. Qed.

Lemma digit_no_sign (d : Z) (r : string) :
  0 <= d < 16 ->
  scan_sign (String (hex_digit d) r) = (false, String (hex_digit d) r).
Proof. intros H. each_digit H; reflexivity. Qed.

Lemma digit_no_prefix (d e : Z) (r : string) :
  0 <= d < 16 -> 0 <= e < 16 ->
  scan_prefix (String (hex_digit d) (String (hex_digit e) r))
  = String (hex_digit d) (String (hex_digit e) r).
Proof.
  intros Hd He.
  assert (Hx : Ascii.eqb (hex_digit e) "x" || Ascii.eqb (hex_digit e) "X" = false)
    by (each_digit He; reflexivity).
  each_digit Hd; try reflexivity.
  destruct r as [|h r']; [reflexivity|].
  unfold scan_prefix. change (hex_digit 0) with "0"%char. cbv iota beta.
  now rewrite Hx.
Qed.

(** The count a request sends reads back as itself. *)
Lemma sscanf_snprintf (n : Z) :
  0 <= n < UINT_MOD -> sscanf_x (snprintf_08x n) = ScanOK n.
Proof.
  intros Hn. unfold sscanf_x, snprintf_08x.
  rewrite skip_space_digit by apply nibble_range.
  rewrite digit_no_sign by apply nibble_range.
  rewrite digit_no_prefix by apply nibble_range.
  rewrite !scan_hex_digit by apply nibble_range.
  simpl scan_hex_digits. simpl default.
  replace (16 * _ + nibble n 0) with n.
  - destruct (Z.ltb_spec n UINT_MOD); [reflexivity | lia].
  - symmetry. rewrite <- (nibbles_sum n Hn) at 9. lia.
Qed.

Lemma hex_digit_lower (d : Z) : 0 <= d < 16 -> is_lower_hex (hex_digit d) = true.
Proof. intros H. each_digit H; reflexivity. Qed.

Lemma snprintf_08x_shape (n : Z) :
  String.length (snprintf_08x n) = 8%nat
  /\ forallb is_lower_hex (list_ascii_of_string (snprintf_08x n)) = true.
Proof.
  split; [reflexivity|].
  unfold snprintf_08x. simpl.
  rewrite !hex_digit_lower by apply nibble_range. reflexivity.
Qed.

Lemma uint_incr_range (n : Z) : 0 <= uint_incr n < UINT_MOD.
Proof. unfold uint_incr. apply Z.mod_pos_bound. reflexivity. Qed.

(** ** Digest: accepting a challenge *)

Lemma bind_Ret {A B : Type} (x : A) (k : A -> outcome B) : Ret x ≫= k = k x.
Proof. reflexivity. Qed.

(** [clean_session] field by field. *)
Lemma clean_session_fields {P : Platform} (sess : auth_session) :
  realm (clean_session sess) = None /\ nonce (clean_session sess) = None
  /\ cnonce (clean_session sess) = None /\ opaque (clean_session sess) = None
  /\ basic (clean_session sess) = None /\ stored_rdig (clean_session sess) = None
  /\ nonce_count (clean_session sess) = nonce_count sess
  /\ qop (clean_session sess) = qop sess /\ alg (clean_session sess) = alg sess
  /\ h_a1 (clean_session sess) = h_a1 sess
  /\ username (clean_session sess) = username sess
  /\ prompts (clean_session sess) = prompts sess
  /\ rand_calls (clean_session sess) = rand_calls sess
  /\ protocol (clean_session sess) = protocol sess
  /\ handlers (clean_session sess) = handlers sess
  /\ error (clean_session sess) = error sess.
Proof.
  unfold clean_session. destruct HAVE_GSSAPI, HAVE_SSPI; repeat split.
Qed.

Lemma get_credentials_fields {P : Platform} (sess sess' : auth_session) (attempt rc : Z)
    (parms : auth_chall) (r pw : string) :
  get_credentials (set_realm (Some r) (clean_session sess)) attempt parms
  = Ret (rc, pw, sess') ->
  exists hdl,
    ch_handler parms = Some hdl
    /\ rc = cr_status (creds hdl (prompts sess) r attempt (username sess))
    /\ realm sess' = Some r /\ nonce sess' = None /\ cnonce sess' = None
    /\ stored_rdig sess' = None /\ opaque sess' = None
    /\ nonce_count sess' = nonce_count sess /\ qop sess' = qop sess
    /\ prompts sess' = prompts sess ++ [(r, attempt)]
    /\ rand_calls sess' = rand_calls sess /\ protocol sess' = protocol sess
    /\ handlers sess' = handlers sess.
Proof.
  unfold get_credentials. intros H.
  destruct (ch_handler parms) as [hdl|]; [|discriminate H].
  cbn [realm set_realm] in H.
  destruct (clean_session_fields sess)
    as (_ & Hn & Hc & Ho & _ & Hs & Hnc & Hq & _ & _ & Hu & Hp & Hr & Hpr & Hh & _).
  cbn [prompts username set_realm] in H. rewrite Hp, Hu in H.
  injection H as <- <- <-. exists hdl. cbn.
  rewrite Hn, Hc, Hs, Ho, Hnc, Hq, Hr, Hpr, Hh. repeat split.
Qed.

(** The acceptor takes the first three exits exactly when
    [digest_passes] fails, and leaves only an error message behind. *)
Lemma digest_challenge_early {P : Platform} (sess : auth_session) (attempt : Z)
    (parms : auth_chall) :
  digest_passes parms = false ->
  exists msg, digest_challenge sess attempt parms = Ret (-1, ne_set_error msg sess).
Proof.
  unfold digest_passes, digest_challenge.
  destruct (ch_alg parms), (ch_qop_auth parms), (ch_realm parms), (ch_nonce parms);
    intros H; try discriminate H; eauto.
Qed.

Lemma digest_challenge_unfold {P : Platform} (sess : auth_session) (attempt : Z)
    (parms : auth_chall) :
  digest_passes parms = true ->
  exists r n,
    ch_realm parms = Some r /\ ch_nonce parms = Some n
    /\ digest_challenge sess attempt parms
       = (if negb (ch_stale parms)
          then get_credentials (set_realm (Some r) (clean_session sess)) attempt parms
          else Ret (0, EmptyString, sess)) ≫= digest_finish parms r n.
Proof.
  unfold digest_passes, digest_challenge.
  destruct (ch_alg parms), (ch_qop_auth parms), (ch_realm parms) as [r|],
    (ch_nonce parms) as [n|];
    intros H; try discriminate H; exists r, n; repeat split.
Qed.

(** The fields of the session when [digest_finish] accepts. *)
Lemma digest_finish_accepts {P : Platform} (parms : auth_chall) (r n pw : string)
    (rc : Z) (s0 sess' : auth_session) :
  digest_finish parms r n (rc, pw, s0) = Ret (0, sess') ->
  rc = 0
  /\ nonce sess' = Some n
  /\ cnonce sess' = Some (md5_hex (random_data (rand_calls s0)))
  /\ rand_calls sess' = S (rand_calls s0)
  /\ qop sess' = (if ch_got_qop parms then auth_qop_auth else auth_qop_none)
  /\ nonce_count sess' = (if ch_got_qop parms then 0 else nonce_count s0)
  /\ alg sess' = ch_alg parms
  /\ username sess' = username s0 /\ prompts sess' = prompts s0
  /\ realm sess' = realm s0 /\ stored_rdig sess' = stored_rdig s0
  /\ protocol sess' = protocol s0 /\ handlers sess' = handlers s0
  /\ (ch_stale parms = true -> h_a1 sess' = h_a1 s0).
Proof.
  unfold digest_finish, get_cnonce. intros H.
  destruct (rc =? 0) eqn:E; cbn [negb] in H; [|discriminate H].
  apply Z.eqb_eq in E.
  destruct (ch_opaque parms), (ch_got_qop parms), (ch_stale parms), (ch_alg parms);
    cbn in H; injection H as <-; repeat split; try discriminate; assumption.
Qed.

Lemma digest_finish_rejects {P : Platform} (parms : auth_chall) (r n pw : string)
    (rc rc' : Z) (s0 sess' : auth_session) :
  digest_finish parms r n (rc, pw, s0) = Ret (rc', sess') ->
  (rc' = 0 \/ rc' = -1) /\ (rc' <> 0 <-> rc <> 0) /\ (rc' <> 0 -> sess' = s0).
Proof.
  unfold digest_finish, get_cnonce. intros H.
  destruct (rc =? 0) eqn:E; cbn [negb] in H.
  - apply Z.eqb_eq in E.
    destruct (ch_opaque parms), (ch_got_qop parms), (ch_stale parms), (ch_alg parms);
      cbn in H; injection H as <- <-; repeat split; auto; intros; congruence.
  - apply Z.eqb_neq in E. injection H as <- <-.
    repeat split; auto; intros; lia.
Qed.

Lemma digest_finish_returns {P : Platform} (parms : auth_chall) (r n pw : string)
    (rc : Z) (s0 : auth_session) :
  exists rc' sess', digest_finish parms r n (rc, pw, s0) = Ret (rc', sess').
Proof.
  unfold digest_finish, get_cnonce.
  destruct (rc =? 0); cbn [negb]; [|eauto].
  destruct (ch_opaque parms), (ch_got_qop parms), (ch_stale parms), (ch_alg parms);
    cbn; eauto.
Qed.

(** What an accepted Digest challenge leaves in the session. *)
Lemma digest_challenge_accepted {P : Platform} (sess sess' : auth_session)
    (attempt : Z) (parms : auth_chall) :
  digest_challenge sess attempt parms = Ret (0, sess') ->
  nonce sess' = ch_nonce parms
  /\ non_null (ch_nonce parms) = true
  /\ non_null (ch_realm parms) = true
  /\ cnonce sess' = Some (md5_hex (random_data (rand_calls sess)))
  /\ rand_calls sess' = S (rand_calls sess)
  /\ qop sess' = (if ch_got_qop parms then auth_qop_auth else auth_qop_none)
  /\ nonce_count sess' = (if ch_got_qop parms then 0 else nonce_count sess)
  /\ alg sess' = ch_alg parms
  /\ (ch_stale parms = true ->
      username sess' = username sess /\ h_a1 sess' = h_a1 sess
      /\ prompts sess' = prompts sess /\ realm sess' = realm sess
      /\ stored_rdig sess' = stored_rdig sess)
  /\ (ch_stale parms = false ->
      realm sess' = ch_realm parms /\ stored_rdig sess' = None
      /\ exists r, ch_realm parms = Some r
                   /\ prompts sess' = prompts sess ++ [(r, attempt)]).
Proof.
  intros H.
  destruct (digest_passes parms) eqn:Ep.
  2:{ destruct (digest_challenge_early sess attempt parms Ep) as [msg Hm].
      rewrite Hm in H. discriminate H. }
  destruct (digest_challenge_unfold sess attempt parms Ep) as (r & n & Hr & Hn & Hu).
  rewrite Hu in H. rewrite Hr, Hn. clear Hu.
  destruct (ch_stale parms) eqn:Es; cbn [negb] in H.
  - apply digest_finish_accepts in H
      as (_ & H1 & H2 & H3 & H4 & H5 & H6 & H7 & H8 & H9 & H10 & _ & _ & H11).
    repeat split; try assumption; try discriminate. now apply H11.
  - destruct (get_credentials _ _ _) as [[[rc pw] s0]|] eqn:Ec; [|discriminate H].
    apply get_credentials_fields in Ec
      as (hdl & _ & _ & Gr & _ & _ & Gs & _ & Gnc & _ & Gp & Grc & _).
    apply digest_finish_accepts in H
      as (_ & H1 & H2 & H3 & H4 & H5 & H6 & H7 & H8 & H9 & H10 & _).
    rewrite Grc in H2, H3. rewrite Gnc in H5. rewrite Gp in H8.
    rewrite Gr in H9. rewrite Gs in H10.
    repeat split; try assumption; try discriminate. eauto.
Qed.

(** ** Digest: the credentials header *)

Lemma header_tail (ret c nc : string) :
  ne_buffer_concat ret [Some (", cnonce=" +:+ dq); Some c; Some (dq +:+ ", nc="); Some nc;
                        Some (", qop=" +:+ dq); Some qop_value_auth; Some dq] +:+ CRLF
  = (ret +:+ ", cnonce=" +:+ dq +:+ c +:+ dq +:+ ", ")
    +:+ "nc=" +:+ nc +:+ ", qop=" +:+ quoted "auth" +:+ CRLF.
Proof.
  unfold ne_buffer_concat. cbn [ne_concat]. unfold quoted, qop_value_auth.
  rewrite !append_assoc, append_nil_l. reflexivity.
Qed.

(** A qop=auth request on a session that holds a nonce and a client
    nonce returns a header, whose last fields are the count and the qop,
    and leaves the incremented count and the snapshot in the session. *)
Lemma request_digest_auth {P : Platform} (sess : auth_session) (req : auth_request)
    (n c : string) :
  qop sess = auth_qop_auth -> nonce sess = Some n -> cnonce sess = Some c ->
  exists before,
    request_digest sess req
    = Ret (Some (before +:+ "nc=" +:+ snprintf_08x (uint_incr (nonce_count sess))
                 +:+ ", qop=" +:+ quoted "auth" +:+ CRLF),
           after_request sess n c).
Proof.
  intros Hq Hn Hc. unfold request_digest.
  destruct sess; simpl in *; subst. simpl.
  eexists. rewrite header_tail. reflexivity.
Qed.

(** A request that returns with qop=auth in force is of that kind. *)
Lemma request_digest_returns {P : Platform} (sess sess' : auth_session)
    (req : auth_request) (ret : option string) :
  qop sess <> auth_qop_none ->
  request_digest sess req = Ret (ret, sess') ->
  exists n c, qop sess = auth_qop_auth /\ nonce sess = Some n /\ cnonce sess = Some c.
Proof.
  intros Hq H. unfold request_digest in H.
  destruct sess; simpl in *.
  destruct qop0; [congruence|]. simpl in H.
  destruct nonce0 as [n|]; [|discriminate H].
  destruct cnonce0 as [c|]; [|discriminate H].
  now exists n, c.
Qed.

(** C2. A Digest header sent with qop=auth carries the session's count,
    after its increment, as eight lower-case hexadecimal digits that read
    back as that count; the first request after an accepted challenge
    that offers qop carries nc=00000001 and the next nc=00000002. *)
Theorem request_digest_nc {P : Platform} :
  (forall (sess sess' : auth_session) (req : auth_request) (ret : option string),
      qop sess <> auth_qop_none ->
      request_digest sess req = Ret (ret, sess') ->
      nonce_count sess' = uint_incr (nonce_count sess)
      /\ String.length (snprintf_08x (nonce_count sess')) = 8%nat
      /\ forallb is_lower_hex (list_ascii_of_string (snprintf_08x (nonce_count sess'))) = true
      /\ sscanf_x (snprintf_08x (nonce_count sess')) = ScanOK (nonce_count sess')
      /\ exists before,
          ret = Some (before +:+ "nc=" +:+ snprintf_08x (nonce_count sess')
                      +:+ ", qop=" +:+ quoted "auth" +:+ CRLF))
  /\ (forall (sess sess0 : auth_session) (attempt : Z) (parms : auth_chall)
             (req1 req2 : auth_request),
      ch_got_qop parms = true ->
      digest_challenge sess attempt parms = Ret (0, sess0) ->
      exists before1 before2 sess1 sess2,
        request_digest sess0 req1
        = Ret (Some (before1 +:+ "nc=00000001, qop=" +:+ quoted "auth" +:+ CRLF), sess1)
        /\ nonce_count sess1 = 1
        /\ request_digest sess1 req2
           = Ret (Some (before2 +:+ "nc=00000002, qop=" +:+ quoted "auth" +:+ CRLF), sess2)
        /\ nonce_count sess2 = 2).
Proof.
  split.
  - intros sess sess' req ret Hq H.
    destruct (request_digest_returns _ _ _ _ Hq H) as (n & c & Hqa & Hn & Hc).
    destruct (request_digest_auth sess req n c Hqa Hn Hc) as [before Hb].
    rewrite Hb in H. injection H as <- <-.
    assert (Hcount : nonce_count (after_request sess n c) = uint_incr (nonce_count sess))
      by reflexivity.
    rewrite Hcount.
    destruct (snprintf_08x_shape (uint_incr (nonce_count sess))) as [Hlen Hhex].
    repeat split; try assumption.
    + apply sscanf_snprintf, uint_incr_range.
    + now exists before.
  - intros sess sess0 attempt parms req1 req2 Hgq H.
    destruct (digest_challenge_accepted _ _ _ _ H)
      as (Hn & Hnn & _ & Hc & _ & Hq & Hcount & _).
    rewrite Hgq in Hq, Hcount.
    destruct (ch_nonce parms) as [n|] eqn:En; [|discriminate Hnn].
    destruct (request_digest_auth sess0 req1 n _ Hq Hn Hc) as [b1 H1].
    rewrite Hcount in H1.
    set (sess1 := after_request sess0 n (md5_hex (random_data (rand_calls sess)))) in *.
    assert (Hq1 : qop sess1 = auth_qop_auth) by exact Hq.
    assert (Hn1 : nonce sess1 = Some n) by exact Hn.
    assert (Hc1 : cnonce sess1 = Some (md5_hex (random_data (rand_calls sess)))) by exact Hc.
    assert (Hcount1 : nonce_count sess1 = 1)
      by (unfold sess1, after_request; simpl; now rewrite Hcount).
    destruct (request_digest_auth sess1 req2 n _ Hq1 Hn1 Hc1) as [b2 H2].
    rewrite Hcount1 in H2.
    exists b1, b2, sess1, (after_request sess1 n (md5_hex (random_data (rand_calls sess)))).
    repeat split; try assumption.
    change (uint_incr (nonce_count sess1) = 2). now rewrite Hcount1.
Qed.

(** C2 on the scenario: the header of the second request, and the first
    two requests after the challenge
    [Digest realm="x", nonce="abc", qop="auth"]. *)
Lemma request_digest_nc_witness :
  (exists before,
     Some ("Digest username=" +:+ quoted "jo" +:+ ", realm=" +:+ quoted "x"
           +:+ ", nonce=" +:+ quoted "abc" +:+ ", uri=" +:+ quoted "/"
           +:+ ", response="
           +:+ quoted "md5(md5(jo:x:foo):abc:00000002:md5(rnd0):auth:md5(GET:/))"
           +:+ ", algorithm=" +:+ quoted "MD5" +:+ ", cnonce=" +:+ quoted "md5(rnd0)"
           +:+ ", nc=00000002, qop=" +:+ quoted "auth" +:+ CRLF)
     = Some (before +:+ "nc="
             +:+ snprintf_08x (nonce_count (after_request (digest_session 1 None)
                                              "abc" "md5(rnd0)"))
             +:+ ", qop=" +:+ quoted "auth" +:+ CRLF))
  /\ exists before1 before2 sess1 sess2,
       request_digest (P := demo_platform) (set_protocol None (digest_session 0 None))
         get_root
       = Ret (Some (before1 +:+ "nc=00000001, qop=" +:+ quoted "auth" +:+ CRLF), sess1)
       /\ nonce_count sess1 = 1
       /\ request_digest (P := demo_platform) sess1 get_root
          = Ret (Some (before2 +:+ "nc=00000002, qop=" +:+ quoted "auth" +:+ CRLF), sess2)
       /\ nonce_count sess2 = 2.
Proof.
  destruct (request_digest_nc (P := demo_platform)) as [Hgen Hfirst]. split.
  - refine (proj2 (proj2 (proj2 (proj2
      (Hgen (digest_session 1 None)
            (after_request (digest_session 1 None) "abc" "md5(rnd0)")
            get_root _ _ _))))).
    + discriminate.
    + vm_compute; reflexivity.
  - refine (Hfirst registered_jo (set_protocol None (digest_session 0 None)) 0
              (digest_parms false true "abc") get_root get_root _ _).
    + reflexivity.
    + vm_compute; reflexivity.
Defined.

(** C6. The Digest acceptor returns, and it rejects exactly when the
    algorithm is unknown, or it is md5-sess without qop=auth on offer, or
    the realm or the nonce is absent, or the challenge is not stale and
    the credentials callback reports failure. *)
Theorem digest_challenge_rejects {P : Platform} (sess : auth_session) (attempt : Z)
    (parms : auth_chall) (hdl : auth_handler) :
  ch_handler parms = Some hdl ->
  exists rc sess',
    digest_challenge sess attempt parms = Ret (rc, sess')
    /\ (rc = 0 \/ rc = -1)
    /\ (rc <> 0 <->
        ch_alg parms = auth_alg_unknown
        \/ (ch_alg parms = auth_alg_md5_sess /\ ch_qop_auth parms = false)
        \/ ch_realm parms = None
        \/ ch_nonce parms = None
        \/ (ch_stale parms = false
            /\ exists r, ch_realm parms = Some r
                 /\ cr_status (creds hdl (prompts sess) r attempt (username sess)) <> 0)).
Proof.
  intros Hh.
  destruct (digest_passes parms) eqn:Ep.
  - destruct (digest_challenge_unfold sess attempt parms Ep) as (r & n & Hr & Hn & ->).
    assert (Hok : ~ (ch_alg parms = auth_alg_unknown
                     \/ (ch_alg parms = auth_alg_md5_sess /\ ch_qop_auth parms = false)
                     \/ ch_realm parms = None \/ ch_nonce parms = None)).
    { unfold digest_passes in Ep. rewrite Hr, Hn in *.
      destruct (ch_alg parms), (ch_qop_auth parms); try discriminate Ep;
        intros [Hc|[[Hc Hc']|[Hc|Hc]]]; congruence. }
    destruct (ch_stale parms) eqn:Es; cbn [negb].
    + destruct (digest_finish_returns parms r n EmptyString 0 sess) as (rc & sess' & Hf).
      exists rc, sess'. split; [exact Hf|].
      apply digest_finish_rejects in Hf as (Hrc & Hiff & _).
      split; [exact Hrc|]. split.
      * intros Hne. apply Hiff in Hne. now contradiction Hne.
      * intros [Hc|[Hc|[Hc|[Hc|[Hc _]]]]]; try discriminate Hc; exfalso; apply Hok; tauto.
    + unfold get_credentials. rewrite Hh. cbn [realm set_realm prompts username].
      destruct (clean_session_fields sess)
        as (_ & _ & _ & _ & _ & _ & _ & _ & _ & _ & Hu & Hp & _).
      rewrite Hu, Hp.
      set (reply := creds hdl (prompts sess) r attempt (username sess)).
      match goal with
      | |- context [Ret (?a, ?b, ?c) ≫= _] =>
          destruct (digest_finish_returns parms r n b a c) as (rc & sess' & Hf)
      end.
      exists rc, sess'. split; [exact Hf|].
      apply digest_finish_rejects in Hf as (Hrc & Hiff & _).
      split; [exact Hrc|]. rewrite Hiff. split.
      * intros Hne. right; right; right; right. split; [reflexivity|]. now exists r.
      * intros [Hc|[Hc|[Hc|[Hc|[_ (r' & Hr' & Hc)]]]]];
          try (exfalso; apply Hok; tauto).
        rewrite Hr in Hr'. injection Hr' as <-. exact Hc.
  - destruct (digest_challenge_early sess attempt parms Ep) as [msg Hm].
    exists (-1), (ne_set_error msg sess). split; [exact Hm|].
    split; [now right|]. split; [|intros _; discriminate].
    intros _. unfold digest_passes in Ep.
    destruct (ch_alg parms), (ch_qop_auth parms), (ch_realm parms), (ch_nonce parms);
      try discriminate Ep; tauto.
Qed.

(** C6 on the challenge of the scenario, which is accepted. *)
Lemma digest_challenge_rejects_witness :
  exists rc sess',
    digest_challenge (P := demo_platform) registered_jo 0 (digest_parms false true "abc")
    = Ret (rc, sess')
    /\ (rc = 0 \/ rc = -1)
    /\ (rc <> 0 <->
        ch_alg (digest_parms false true "abc") = auth_alg_unknown
        \/ (ch_alg (digest_parms false true "abc") = auth_alg_md5_sess
            /\ ch_qop_auth (digest_parms false true "abc") = false)
        \/ ch_realm (digest_parms false true "abc") = None
        \/ ch_nonce (digest_parms false true "abc") = None
        \/ (ch_stale (digest_parms false true "abc") = false
            /\ exists r, ch_realm (digest_parms false true "abc") = Some r
                 /\ cr_status (creds handler_jo (prompts registered_jo) r 0
                                 (username registered_jo)) <> 0)).
Proof.
  apply (digest_challenge_rejects (P := demo_platform) registered_jo 0
           (digest_parms false true "abc") handler_jo).
  reflexivity.
Defined.

(** ** Digest: verification *)

Lemma session_eta (sess : auth_session) :
  ne_set_error (error sess) (set_stored_rdig (stored_rdig sess) sess) = sess.
Proof. destruct sess; reflexivity. Qed.

(** The decision touches the stored context and the error string only. *)
Lemma verify_decide_frame {P : Platform} (req : auth_request) (sess sess' : auth_session)
    (p : auth_info) (rc : Z) :
  verify_decide req sess p = Ret (rc, sess') ->
  sess' = ne_set_error (error sess') (set_stored_rdig (stored_rdig sess') sess).
Proof.
  unfold verify_decide. intros H.
  repeat case_match; try discriminate H; injection H as <- <-;
    destruct sess; reflexivity.
Qed.

Lemma verify_unfold {P : Platform} (req : auth_request) (sess : auth_session)
    (value : string) (p : auth_info) :
  parse_auth_info value = Ret p ->
  verify_digest_response req sess value
  = verify_decide req sess p ≫= fun '(ret, sess) => Ret (ret, apply_nextnonce p sess).
Proof. intros H. unfold verify_digest_response. rewrite H. reflexivity. Qed.

(** When the decision compares the digests: it needs the stored context,
    consumes it, and answers by the comparison. *)
Lemma verify_decide_compares {P : Platform} (req : auth_request) (sess : auth_session)
    (p : auth_info) (r qv : string) :
  reaches_comparison sess p = true ->
  ai_rspauth p = Some r -> ai_qop_value p = Some qv ->
  match stored_rdig sess with
  | None => verify_decide req sess p = Fault NullContext
  | Some ctx =>
      exists rc sess',
        verify_decide req sess p = Ret (rc, sess')
        /\ stored_rdig sess' = None
        /\ (rc = NE_OK \/ rc = NE_ERROR)
        /\ (rc = NE_OK <-> ne_strcasecmp (response_digest ctx qv (req_uri req)) r = 0)
  end.
Proof.
  unfold reaches_comparison, verify_decide. intros H Hr Hq.
  rewrite Hr, Hq in *.
  destruct (ai_qop p); [discriminate H|].
  destruct (ai_cnonce p) as [c|]; [|discriminate H].
  destruct (ai_nc p); [|discriminate H].
  destruct (cnonce sess) as [sc|]; [|discriminate H].
  destruct (ai_nonce_count p) as [k|]; [|discriminate H].
  apply andb_prop in H as [Hc Hk].
  unfold strcmp_ne. rewrite Hc, Hk. cbn [negb].
  destruct (stored_rdig sess) as [ctx|]; [|reflexivity].
  unfold response_digest, ne_md5_finish_ascii, ne_md5_process_bytes, ne_md5_create_ctx.
  rewrite !append_assoc, append_nil_l.
  destruct (ne_strcasecmp _ r =? 0) eqn:E; cbn.
  - eexists _, _. split; [reflexivity|]. apply Z.eqb_eq in E.
    repeat split; auto.
  - eexists _, _. split; [reflexivity|]. apply Z.eqb_neq in E.
    repeat split; auto; intros; [discriminate | contradiction].
Qed.

(** When it does not: it answers without touching the stored context. *)
Lemma verify_decide_skips {P : Platform} (req : auth_request) (sess sess' : auth_session)
    (p : auth_info) (rc : Z) :
  reaches_comparison sess p = false ->
  verify_decide req sess p = Ret (rc, sess') ->
  stored_rdig sess' = stored_rdig sess
  /\ rc = (match ai_qop p with auth_qop_none => NE_OK | auth_qop_auth => NE_ERROR end).
Proof.
  unfold reaches_comparison, verify_decide, strcmp_ne. intros H Hv.
  destruct (ai_qop p); [injection Hv as <- <-; now split|].
  destruct (ai_rspauth p); [|injection Hv as <- <-; now split].
  destruct (ai_cnonce p) as [c|]; [|injection Hv as <- <-; now split].
  destruct (ai_nc p); [|injection Hv as <- <-; now split].
  destruct (cnonce sess) as [sc|]; [|discriminate Hv].
  destruct (String.eqb c sc); cbn [negb] in Hv; [|injection Hv as <- <-; now split].
  destruct (ai_nonce_count p) as [k|]; [|discriminate Hv].
  cbn [andb] in H. rewrite H in Hv. cbn [negb] in Hv.
  injection Hv as <- <-; now split.
Qed.

(** ** The tokenizer consumes its input *)

Lemma tok_scan_shorter (ischall : bool) (pnt : string) :
  forall (state : tok_state) (key : option string) (value : string) (t : token),
    tok_scan ischall state key value pnt = Tok_pair t ->
    (String.length (tk_hdr t) <= String.length pnt)%nat.
Proof.
  induction pnt as [|c pnt IH]; intros state key value t H.
  - cbn in H. repeat case_match; injection H as <-; cbn; lia.
  - cbn [tok_scan] in H. cbn [String.length].
    repeat case_match; try discriminate H;
      try (injection H as <-; cbn; lia);
      apply IH in H; lia.
Qed.

Lemma tokenize_shorter (ischall : bool) (hdr : string) (t : token) :
  tokenize hdr ischall = Tok_pair t ->
  (String.length (tk_hdr t) < String.length hdr)%nat.
Proof.
  destruct hdr as [|c hdr]; [discriminate|].
  unfold tokenize. cbn [tok_scan String.length].
  intros H.
  repeat case_match; try discriminate H;
    try (injection H as <-; cbn; lia);
    apply tok_scan_shorter in H; lia.
Qed.

(** ** Reading Authentication-Info *)

Lemma auth_info_step_pnt (st st' : auth_info) (t : token) :
  auth_info_step st t = Ret st' -> ai_pnt st' = tk_hdr t.
Proof.
  unfold auth_info_step. intros H.
  repeat case_match; try discriminate H; injection H as <-; reflexivity.
Qed.

Lemma auth_info_step_qop (st st' : auth_info) (t : token) :
  qop_value_ok st -> auth_info_step st t = Ret st' -> qop_value_ok st'.
Proof.
  unfold auth_info_step, qop_value_ok. intros I H.
  destruct (assign_value _ _) as [| |v]; try discriminate H.
  destruct (tk_key t) as [key|]; [|discriminate H].
  destruct (ne_strcasecmp key "qop" =? 0).
  { injection H as <-. cbn.
    destruct (ne_strcasecmp (ne_shave v dq) "auth" =? 0) eqn:E2; [|discriminate].
    intros _. eexists. split; [reflexivity|]. now apply Z.eqb_eq. }
  repeat case_match; try discriminate H; injection H as <-; exact I.
Qed.

Lemma auth_info_loop_qop (fuel : nat) :
  forall st p, qop_value_ok st -> auth_info_loop fuel st = Ret p -> qop_value_ok p.
Proof.
  induction fuel as [|fuel IH]; intros st p I H; [discriminate H|].
  cbn [auth_info_loop] in H.
  destruct (tokenize (ai_pnt st) false) as [| |t]; try (injection H as <-; exact I).
  destruct (auth_info_step st t) as [st'|] eqn:Es; [|discriminate H].
  cbn in H. eapply IH; [|exact H]. eapply auth_info_step_qop; eauto.
Qed.

Lemma parse_auth_info_qop (value : string) (p : auth_info) :
  parse_auth_info value = Ret p -> qop_value_ok p.
Proof.
  apply auth_info_loop_qop. intros H. discriminate H.
Qed.

(** The loop bound is never the reason the loop stops. *)
Lemma auth_info_loop_fuel (fuel : nat) :
  forall st, (String.length (ai_pnt st) < fuel)%nat ->
             auth_info_loop fuel st <> Fault OutOfFuel.
Proof.
  induction fuel as [|fuel IH]; intros st Hlen; [lia|].
  cbn [auth_info_loop].
  destruct (tokenize (ai_pnt st) false) as [| |t] eqn:Et; try discriminate.
  destruct (auth_info_step st t) as [st'|f] eqn:Es; cbn.
  - apply IH. apply auth_info_step_pnt in Es. rewrite Es.
    apply tokenize_shorter in Et. lia.
  - unfold auth_info_step in Es.
    repeat case_match; try discriminate Es; injection Es as <-; discriminate.
Qed.

Lemma parse_auth_info_fuel (value : string) :
  parse_auth_info value <> Fault OutOfFuel.
Proof. apply auth_info_loop_fuel. cbn. lia. Qed.



(** ** What each operation does to the count and to the stored context *)

Lemma basic_challenge_frame {P : Platform} (sess sess' : auth_session) (attempt rc : Z)
    (parms : auth_chall) :
  basic_challenge sess attempt parms = Ret (rc, sess') ->
  nonce_count sess' = nonce_count sess
  /\ protocol sess' = protocol sess
  /\ stored_rdig sess'
     = (if non_null (ch_realm parms) then None else stored_rdig sess).
Proof.
  unfold basic_challenge. intros H.
  destruct (ch_realm parms) as [r|]; [|injection H as <- <-; repeat split].
  destruct (get_credentials _ _ _) as [[[rc0 pw] s0]|] eqn:Ec; [|discriminate H].
  apply get_credentials_fields in Ec
    as (hdl & _ & _ & _ & _ & _ & Gs & _ & Gnc & _ & _ & _ & Gpr & _).
  cbn in H. destruct (rc0 =? 0); cbn in H; injection H as <- <-; cbn;
    rewrite ?Gs, ?Gnc, ?Gpr; repeat split.
Qed.

Lemma digest_challenge_frame {P : Platform} (sess sess' : auth_session) (attempt rc : Z)
    (parms : auth_chall) :
  digest_challenge sess attempt parms = Ret (rc, sess') ->
  (rc = 0 \/ rc = -1)
  /\ protocol sess' = protocol sess
  /\ nonce_count sess'
     = (if (rc =? 0) && ch_got_qop parms then 0 else nonce_count sess)
  /\ stored_rdig sess' = (if digest_clears parms then None else stored_rdig sess).
Proof.
  intros H. unfold digest_clears.
  destruct (digest_passes parms) eqn:Ep; cbn [andb].
  2:{ destruct (digest_challenge_early sess attempt parms Ep) as [msg Hm].
      rewrite Hm in H. injection H as <- <-. repeat split. now right. }
  destruct (digest_challenge_unfold sess attempt parms Ep) as (r & n & _ & _ & Hu).
  rewrite Hu in H. clear Hu.
  destruct (ch_stale parms) eqn:Es; cbn [negb] in H |- *.
  - rewrite bind_Ret in H.
    pose proof (digest_finish_rejects _ _ _ _ _ _ _ _ H) as (Hrc & Hiff & _).
    destruct Hrc as [-> | ->].
    + apply digest_finish_accepts in H
        as (_ & _ & _ & _ & _ & H5 & _ & _ & _ & _ & H10 & H11 & _).
      repeat split; auto.
    + exfalso. assert (Hc : (-1) <> 0) by discriminate. apply Hiff in Hc. now apply Hc.
  - destruct (get_credentials _ _ _) as [[[rc0 pw] s0]|] eqn:Ec; [|discriminate H].
    apply get_credentials_fields in Ec
      as (hdl & _ & _ & _ & _ & _ & Gs & _ & Gnc & _ & _ & _ & Gpr & _).
    rewrite bind_Ret in H.
    pose proof (digest_finish_rejects _ _ _ _ _ _ _ _ H) as (Hrc & _ & Hsame).
    destruct Hrc as [-> | ->].
    + apply digest_finish_accepts in H
        as (_ & _ & _ & _ & _ & H5 & _ & _ & _ & _ & H10 & H11 & _).
      rewrite H5, H10, H11, Gs, Gnc, Gpr. repeat split; auto.
    + rewrite Hsame by discriminate. rewrite Gs, Gnc, Gpr. repeat split; auto.
Qed.

Lemma request_digest_none {P : Platform} (sess sess' : auth_session)
    (req : auth_request) (ret : option string) :
  qop sess = auth_qop_none ->
  request_digest sess req = Ret (ret, sess') -> sess' = sess.
Proof.
  unfold request_digest. intros Hq H. rewrite Hq in H.
  destruct (nonce sess); [|discriminate H].
  cbn in H. rewrite Hq in H. now injection H as <- <-.
Qed.

Lemma request_digest_frame {P : Platform} (sess sess' : auth_session)
    (req : auth_request) (ret : option string) :
  request_digest sess req = Ret (ret, sess') ->
  nonce sess' = nonce sess
  /\ protocol sess' = protocol sess
  /\ nonce_count sess'
     = (match qop sess with
        | auth_qop_none => nonce_count sess
        | auth_qop_auth => uint_incr (nonce_count sess)
        end)
  /\ non_null (stored_rdig sess')
     = (match qop sess with
        | auth_qop_none => non_null (stored_rdig sess)
        | auth_qop_auth => true
        end).
Proof.
  intros H. destruct (qop sess) eqn:Eq.
  - apply request_digest_none in H; [|exact Eq]. subst. repeat split.
  - assert (Hq : qop sess <> auth_qop_none) by congruence.
    destruct (request_digest_returns _ _ _ _ Hq H) as (n & c & _ & Hn & Hc).
    destruct (request_digest_auth sess req n c Eq Hn Hc) as [before Hb].
    rewrite Hb in H. injection H as <- <-. repeat split.
Qed.

Lemma verify_digest_response_frame {P : Platform} (req : auth_request)
    (sess sess' : auth_session) (value : string) (rc : Z) :
  verify_digest_response req sess value = Ret (rc, sess') ->
  exists p,
    parse_auth_info value = Ret p
    /\ nonce_count sess' = nonce_count sess
    /\ protocol sess' = protocol sess
    /\ non_null (stored_rdig sess')
       = (if reaches_comparison sess p then false else non_null (stored_rdig sess)).
Proof.
  intros H.
  destruct (parse_auth_info value) as [p|] eqn:Ep;
    [|unfold verify_digest_response in H; rewrite Ep in H; discriminate H].
  rewrite (verify_unfold req sess value p Ep) in H.
  exists p. split; [reflexivity|].
  destruct (verify_decide req sess p) as [[rc0 s0]|] eqn:Ed; [|discriminate H].
  rewrite bind_Ret in H. injection H as <- <-.
  pose proof (verify_decide_frame _ _ _ _ _ Ed) as Hf.
  assert (Hnn : forall s, nonce_count (apply_nextnonce p s) = nonce_count s
                          /\ protocol (apply_nextnonce p s) = protocol s
                          /\ stored_rdig (apply_nextnonce p s) = stored_rdig s).
  { intros s. unfold apply_nextnonce. destruct (ai_nextnonce p); repeat split. }
  destruct (Hnn s0) as (-> & -> & ->).
  split; [rewrite Hf; reflexivity|]. split; [rewrite Hf; reflexivity|].
  destruct (reaches_comparison sess p) eqn:Er.
  - assert (exists r, ai_rspauth p = Some r) as [r Hr].
    { unfold reaches_comparison in Er.
      destruct (ai_qop p), (ai_rspauth p); try discriminate Er; eauto. }
    assert (Hq : ai_qop p = auth_qop_auth).
    { unfold reaches_comparison in Er. destruct (ai_qop p); [discriminate Er | reflexivity]. }
    destruct (parse_auth_info_qop value p Ep Hq) as (qv & Hqv & _).
    pose proof (verify_decide_compares req sess p r qv Er Hr Hqv) as Hcmp.
    destruct (stored_rdig sess); [|congruence].
    destruct Hcmp as (rc1 & s1 & Hv & Hnone & _).
    rewrite Hv in Ed. injection Ed as <- <-. now rewrite Hnone.
  - apply (verify_decide_skips _ _ _ _ _ Er) in Ed as [-> _]. reflexivity.
Qed.

(** ** Stale challenges *)

(** C7 as stated does not hold: a stale challenge without qop, accepted
    by a session that has sent one qop=auth request, leaves the count at
    one. *)
Lemma stale_without_qop_keeps_count :
  ch_stale (digest_parms true false "def") = true
  /\ exists sess',
       digest_challenge (P := demo_platform) (digest_session 1 None) 1
         (digest_parms true false "def") = Ret (0, sess')
       /\ nonce_count sess' = 1
       /\ nonce_count sess' <> 0.
Proof.
  split; [reflexivity|]. eexists. split; [vm_compute; reflexivity|].
  split; [reflexivity | discriminate].
Qed.

(** C7, amended. An accepted stale Digest challenge makes no call of the
    credentials callback and leaves the username and H(A1) as they were;
    the nonce becomes the one of the challenge and the client nonce a
    newly drawn one.  When the challenge offers qop=auth the count is
    reset to zero, and the next request carries nc=00000001 and resumes
    its digest from the same H(A1); when it does not, the count keeps its
    value and qop is none. *)
Theorem stale_challenge_refresh {P : Platform} (sess sess' : auth_session)
    (attempt : Z) (parms : auth_chall) :
  ch_stale parms = true ->
  digest_challenge sess attempt parms = Ret (0, sess') ->
  prompts sess' = prompts sess
  /\ username sess' = username sess
  /\ h_a1 sess' = h_a1 sess
  /\ (exists n, ch_nonce parms = Some n /\ nonce sess' = Some n)
  /\ cnonce sess' = Some (md5_hex (random_data (rand_calls sess)))
  /\ rand_calls sess' = S (rand_calls sess)
  /\ (ch_got_qop parms = true ->
      nonce_count sess' = 0
      /\ forall req, exists before n c sess'',
           nonce sess' = Some n /\ cnonce sess' = Some c
           /\ request_digest sess' req
              = Ret (Some (before +:+ "nc=00000001, qop=" +:+ quoted "auth" +:+ CRLF),
                     sess'')
           /\ nonce_count sess'' = 1
           /\ stored_rdig sess''
              = Some (h_a1 sess +:+ ":" +:+ n +:+ ":" +:+ "00000001" +:+ ":"
                      +:+ c +:+ ":"))
  /\ (ch_got_qop parms = false ->
      nonce_count sess' = nonce_count sess /\ qop sess' = auth_qop_none).
Proof.
  intros Hs H.
  destruct (digest_challenge_accepted _ _ _ _ H)
    as (Hn & Hnn & _ & Hc & Hr & Hq & Hcount & _ & Hst & _).
  destruct (Hst Hs) as (Hu & Ha & Hp & _).
  destruct (ch_nonce parms) as [n|] eqn:En; [|discriminate Hnn].
  split; [exact Hp|]. split; [exact Hu|]. split; [exact Ha|].
  split; [now exists n|]. split; [exact Hc|]. split; [exact Hr|]. split.
  - intros Hg. rewrite Hg in Hq, Hcount. split; [exact Hcount|]. intros req.
    destruct (request_digest_auth sess' req n _ Hq Hn Hc) as [before Hb].
    rewrite Hcount in Hb.
    exists before, n, (md5_hex (random_data (rand_calls sess))),
      (after_request sess' n (md5_hex (random_data (rand_calls sess)))).
    split; [exact Hn|]. split; [exact Hc|]. split; [exact Hb|]. split.
    + cbn. now rewrite Hcount.
    + cbn. unfold rdig_snapshot, ne_md5_process_bytes, ne_md5_create_ctx.
      rewrite Hcount, Ha. rewrite !append_assoc, append_nil_l. reflexivity.
  - intros Hg. rewrite Hg in Hq, Hcount. now split.
Qed.

(** C7, amended, on the stale challenge of the scenario: after
    [stale=true, nonce="def", qop="auth"] the session is ready to send
    nc=00000001 with the H(A1) it had. *)
Lemma stale_challenge_refresh_witness :
  h_a1 stale_accepted = h_a1 (digest_session 2 None)
  /\ nonce_count stale_accepted = 0
  /\ nonce stale_accepted = Some "def".
Proof.
  destruct (stale_challenge_refresh (P := demo_platform) (digest_session 2 None)
              stale_accepted 1 (digest_parms true true "def")
              eq_refl eq_refl)
    as (_ & _ & Ha & (n & Hn & Hn') & _ & _ & Hq & _).
  split; [exact Ha|]. split; [exact (proj1 (Hq eq_refl))|].
  rewrite Hn'. rewrite <- Hn. reflexivity.
Defined.

(** ** The nonce count *)

(** C8 as stated does not hold: a challenge that is not stale and offers
    no qop is accepted without resetting the count. *)
Lemma fresh_without_qop_keeps_count :
  ch_stale (digest_parms false false "def") = false
  /\ exists sess',
       digest_challenge (P := demo_platform) (digest_session 2 None) 0
         (digest_parms false false "def") = Ret (0, sess')
       /\ nonce_count sess' = 2
       /\ nonce_count sess' <> 0.
Proof.
  split; [reflexivity|]. eexists. split; [vm_compute; reflexivity|].
  split; [reflexivity | discriminate].
Qed.

(** C8, amended. A request with qop=auth adds one to the count, modulo
    2^32, and keeps the nonce; the Digest acceptor sets the count to zero
    exactly when it accepts a challenge that offers qop=auth, stale or
    not; a request without qop, the verifier, the Basic acceptor, a
    rejected or qop-less Digest challenge and clearing the session leave
    the count as it is. *)
Theorem nonce_count_discipline {P : Platform} (op : digest_op)
    (sess sess' : auth_session) :
  run_op op sess = Ret sess' ->
  match op with
  | Op_request _ =>
      match qop sess with
      | auth_qop_auth =>
          nonce_count sess' = uint_incr (nonce_count sess)
          /\ nonce sess' = nonce sess
          /\ (0 <= nonce_count sess < UINT_MOD - 1 ->
              nonce_count sess' = nonce_count sess + 1)
      | auth_qop_none => nonce_count sess' = nonce_count sess
      end
  | Op_digest_challenge attempt parms =>
      exists rc,
        digest_challenge sess attempt parms = Ret (rc, sess')
        /\ nonce_count sess'
           = (if (rc =? 0) && ch_got_qop parms then 0 else nonce_count sess)
  | _ => nonce_count sess' = nonce_count sess
  end.
Proof.
  destruct op as [|attempt parms|attempt parms|req|req value]; cbn [run_op]; intros H.
  - injection H as <-. apply clean_session_fields.
  - destruct (basic_challenge sess attempt parms) as [[rc s]|] eqn:E; [|discriminate H].
    injection H as <-. now apply basic_challenge_frame in E.
  - destruct (digest_challenge sess attempt parms) as [[rc s]|] eqn:E; [|discriminate H].
    injection H as <-. exists rc. split; [reflexivity|].
    now apply digest_challenge_frame in E.
  - destruct (request_digest sess req) as [[ret s]|] eqn:E; [|discriminate H].
    injection H as <-. apply request_digest_frame in E as (Hn & _ & Hc & _).
    destruct (qop sess); [exact Hc|].
    repeat split; try assumption.
    intros Hr. rewrite Hc. unfold uint_incr. apply Z.mod_small. lia.
  - destruct (verify_digest_response req sess value) as [[rc s]|] eqn:E; [|discriminate H].
    injection H as <-. now apply verify_digest_response_frame in E as (p & _ & Hc & _).
Qed.

(** C8, amended, on the second request of the scenario. *)
Lemma nonce_count_discipline_witness :
  nonce_count (after_request (digest_session 1 None) "abc" "md5(rnd0)")
  = uint_incr (nonce_count (digest_session 1 None))
  /\ nonce (after_request (digest_session 1 None) "abc" "md5(rnd0)")
     = nonce (digest_session 1 None)
  /\ (0 <= nonce_count (digest_session 1 None) < UINT_MOD - 1 ->
      nonce_count (after_request (digest_session 1 None) "abc" "md5(rnd0)")
      = nonce_count (digest_session 1 None) + 1).
Proof.
  refine (nonce_count_discipline (P := demo_platform) (Op_request get_root)
            (digest_session 1 None)
            (after_request (digest_session 1 None) "abc" "md5(rnd0)") _).
  vm_compute; reflexivity.
Defined.

(** ** The stored context *)

(** Every operation keeps the stored context in step with the record of
    outstanding requests. *)
Lemma run_op_stored {P : Platform} (op : digest_op) (sess sess' : auth_session) (b : bool) :
  non_null (stored_rdig sess) = b ->
  run_op op sess = Ret sess' ->
  non_null (stored_rdig sess') = outstanding_after op sess b.
Proof.
  intros <-.
  destruct op as [|attempt parms|attempt parms|req|req value];
    cbn [run_op outstanding_after]; intros H.
  - injection H as <-.
    destruct (clean_session_fields sess) as (_ & _ & _ & _ & _ & -> & _). reflexivity.
  - destruct (basic_challenge sess attempt parms) as [[rc s]|] eqn:E; [|discriminate H].
    injection H as <-. apply basic_challenge_frame in E as (_ & _ & ->).
    now destruct (non_null (ch_realm parms)).
  - destruct (digest_challenge sess attempt parms) as [[rc s]|] eqn:E; [|discriminate H].
    injection H as <-. apply digest_challenge_frame in E as (_ & _ & _ & ->).
    now destruct (digest_clears parms).
  - destruct (request_digest sess req) as [[ret s]|] eqn:E; [|discriminate H].
    injection H as <-. apply request_digest_frame in E as (_ & _ & _ & ->).
    now destruct (qop sess).
  - destruct (verify_digest_response req sess value) as [[rc s]|] eqn:E; [|discriminate H].
    injection H as <-. apply verify_digest_response_frame in E as (p & -> & _ & _ & ->).
    reflexivity.
Qed.

(** C10. The verifier, once it compares digests, uses the stored
    context unchecked: with none stored the call is a null dereference,
    with one stored it returns and leaves none.  A context is stored
    exactly when a qop=auth request has been produced since the last
    comparison or clearing of the session, and every operation, and so
    every run of operations, keeps it that way. *)
Theorem stored_rdig_discipline {P : Platform} :
  (forall (req : auth_request) (sess : auth_session) (value : string) (p : auth_info),
      parse_auth_info value = Ret p ->
      reaches_comparison sess p = true ->
      match stored_rdig sess with
      | None => verify_digest_response req sess value = Fault NullContext
      | Some _ =>
          exists rc sess',
            verify_digest_response req sess value = Ret (rc, sess')
            /\ stored_rdig sess' = None
      end)
  /\ (forall (op : digest_op) (sess sess' : auth_session) (b : bool),
      non_null (stored_rdig sess) = b ->
      run_op op sess = Ret sess' ->
      non_null (stored_rdig sess') = outstanding_after op sess b)
  /\ (forall (ops : list digest_op) (sess sess' : auth_session) (b b' : bool),
      non_null (stored_rdig sess) = b ->
      run_ops ops sess b = Ret (sess', b') ->
      non_null (stored_rdig sess') = b').
Proof.
  split; [|split].
  - intros req sess value p Hp Hreach.
    assert (exists r, ai_rspauth p = Some r) as [r Hr].
    { unfold reaches_comparison in Hreach.
      destruct (ai_qop p), (ai_rspauth p); try discriminate Hreach; eauto. }
    assert (Hq : ai_qop p = auth_qop_auth).
    { unfold reaches_comparison in Hreach.
      destruct (ai_qop p); [discriminate Hreach | reflexivity]. }
    destruct (parse_auth_info_qop value p Hp Hq) as (qv & Hqv & _).
    pose proof (verify_decide_compares req sess p r qv Hreach Hr Hqv) as Hcmp.
    rewrite (verify_unfold req sess value p Hp).
    destruct (stored_rdig sess) as [ctx|].
    + destruct Hcmp as (rc & sess' & -> & Hnone & _).
      exists rc, (apply_nextnonce p sess'). split; [reflexivity|].
      unfold apply_nextnonce. now destruct (ai_nextnonce p).
    + now rewrite Hcmp.
  - apply run_op_stored.
  - induction ops as [|op ops IH]; intros sess sess' b b' Hb H.
    + injection H as <- <-. exact Hb.
    + cbn [run_ops] in H.
      destruct (run_op op sess) as [s1|] eqn:E; [|discriminate H].
      rewrite bind_Ret in H. eapply IH; [|exact H].
      eapply run_op_stored; eauto.
Qed.

(** C10 on the scenario: the verifier run twice on one request finds no
    stored context the second time. *)
Lemma stored_rdig_discipline_witness :
  verify_digest_response (P := demo_platform) get_root (digest_session 1 None)
    auth_info_deadbeef = Fault NullContext
  /\ non_null (stored_rdig (after_request (digest_session 0 None) "abc" "md5(rnd0)"))
     = outstanding_after (Op_request get_root) (digest_session 0 None) false.
Proof.
  destruct (stored_rdig_discipline (P := demo_platform)) as (Hv & Hop & _).
  split.
  - refine (Hv get_root (digest_session 1 None) auth_info_deadbeef _ _ _);
      vm_compute; reflexivity.
  - refine (Hop (Op_request get_root) (digest_session 0 None) _ false _ _);
      vm_compute; reflexivity.
Defined.

(** ** The challenge list *)

(** [insert_challenge] leaves the challenges that are there in their
    order and puts the new one behind those at least as strong and in
    front of the weaker ones. *)
Lemma insert_challenge_protocols (l : list auth_chall) (proto : proto_ref) :
  exists l1 l2,
    l = l1 ++ l2
    /\ insert_challenge l proto = (l1 ++ new_challenge proto :: l2, length l1)
    /\ Forall (fun c => proto_strength proto <= proto_strength (ch_protocol c)) l1
    /\ match l2 with
       | [] => True
       | c :: _ => proto_strength (ch_protocol c) < proto_strength proto
       end.
Proof.
  induction l as [|c l IH]; cbn [insert_challenge].
  - exists [], []. repeat split; constructor.
  - destruct (Z.gtb_spec (proto_strength proto) (proto_strength (ch_protocol c))) as [Hgt|Hle].
    + exists [], (c :: l). repeat split; [constructor | lia].
    + destruct IH as (l1 & l2 & -> & -> & Hall & Hl2).
      exists (c :: l1), l2. repeat split; [|exact Hl2].
      constructor; [lia | exact Hall].
Qed.

Lemma insert_challenge_sorted (l : list auth_chall) (proto : proto_ref) :
  sorted_by_strength l -> sorted_by_strength (fst (insert_challenge l proto)).
Proof.
  intros Hs.
  destruct (insert_challenge_protocols l proto) as (l1 & l2 & -> & -> & Hall & Hl2).
  cbn [fst]. unfold sorted_by_strength in *.
  rewrite fmap_app in Hs. rewrite fmap_app, fmap_cons.
  apply StronglySorted_app in Hs as (Hcross & Hs1 & Hs2).
  apply StronglySorted_app. split; [|split; [exact Hs1|]].
  - intros x1 x2 Hx1 Hx2. apply elem_of_cons in Hx2 as [->|Hx2].
    + apply list_elem_of_fmap in Hx1 as (c & -> & Hc).
      rewrite Forall_forall in Hall. apply Hall. exact Hc.
    + now apply Hcross.
  - constructor; [exact Hs2|].
    destruct l2 as [|c l2]; [constructor|].
    rewrite fmap_cons in Hs2 |- *.
    apply StronglySorted_inv in Hs2 as [_ Hc].
    constructor; [cbn; lia|].
    eapply Forall_impl; [exact Hc|]. cbn. intros; lia.
Qed.

Lemma alter_protocols (f : auth_chall -> auth_chall) (i : nat) (l : list auth_chall) :
  (forall c, ch_protocol (f c) = ch_protocol c) ->
  ch_protocol <$> alter f i l = ch_protocol <$> l.
Proof.
  intros Hf. revert i. induction l as [|c l IH]; intros [|i]; cbn; try reflexivity.
  - now rewrite Hf.
  - f_equal. apply IH.
Qed.

Lemma alter_sorted (f : auth_chall -> auth_chall) (i : nat) (l : list auth_chall) :
  (forall c, ch_protocol (f c) = ch_protocol c) ->
  sorted_by_strength l -> sorted_by_strength (alter f i l).
Proof. intros Hf. unfold sorted_by_strength. now rewrite alter_protocols. Qed.

Lemma alter_Forall (Q : auth_chall -> Prop) (f : auth_chall -> auth_chall) (i : nat)
    (l : list auth_chall) :
  (forall c, Q c -> Q (f c)) -> Forall Q l -> Forall Q (alter f i l).
Proof.
  intros Hf Hl. revert i. induction Hl as [|c l Hc Hl IH]; intros [|i]; cbn;
    constructor; auto.
Qed.

(** Every sequence of insertions leaves the list sorted. *)
Lemma insert_all_sorted (protos : list proto_ref) : sorted_by_strength (insert_all protos).
Proof.
  unfold insert_all.
  assert (H : forall l, sorted_by_strength l ->
                        sorted_by_strength
                          (fold_left (fun l proto => fst (insert_challenge l proto)) protos l)).
  { induction protos as [|p protos IH]; intros l Hl; [exact Hl|].
    cbn. apply IH. now apply insert_challenge_sorted. }
  apply H. constructor.
Qed.

(** Among the challenges of one strength the order is that of their
    insertion. *)
Lemma insert_challenge_stable (l : list auth_chall) (proto : proto_ref) (k : Z) :
  sorted_by_strength l ->
  filter (fun p => proto_strength p = k) (ch_protocol <$> fst (insert_challenge l proto))
  = filter (fun p => proto_strength p = k) ((ch_protocol <$> l) ++ [proto]).
Proof.
  intros Hs.
  destruct (insert_challenge_protocols l proto) as (l1 & l2 & -> & -> & Hall & Hl2).
  cbn [fst]. rewrite !fmap_app, fmap_cons. cbn [ch_protocol new_challenge].
  rewrite !filter_app, filter_cons, <- app_assoc. f_equal.
  assert (Hweak : Forall (fun p => proto_strength p < proto_strength proto)
                         (ch_protocol <$> l2)).
  { unfold sorted_by_strength in Hs. rewrite fmap_app in Hs.
    apply StronglySorted_app_1_r in Hs.
    destruct l2 as [|c l2]; [constructor|].
    rewrite fmap_cons in Hs |- *. apply StronglySorted_inv in Hs as [_ Hc].
    constructor; [exact Hl2|]. eapply Forall_impl; [exact Hc|]. cbn. intros; lia. }
  destruct (decide (proto_strength proto = k)) as [Hk|Hk].
  - assert (Hnil : filter (fun p => proto_strength p = k) (ch_protocol <$> l2) = []).
    { induction Hweak as [|p ps Hp _ IH]; [reflexivity|].
      rewrite filter_cons. destruct (decide _); [lia | exact IH]. }
    rewrite Hnil. cbn. destruct (decide _); [reflexivity | contradiction].
  - cbn. destruct (decide _); [contradiction|]. now rewrite app_nil_r.
Qed.

Lemma ne_token_shorter (s tok rest : string) (sep : ascii) :
  ne_token s sep = (tok, Some rest) -> (String.length rest <= String.length s)%nat.
Proof.
  revert tok rest. induction s as [|x s IH]; intros tok rest H; [discriminate H|].
  cbn [ne_token] in H. destruct (Ascii.eqb x sep).
  - injection H as _ <-. cbn. lia.
  - destruct (ne_token s sep) as [tok0 r0]. injection H as _ ->.
    specialize (IH _ _ eq_refl). cbn. lia.
Qed.

Lemma alter_middle (f : auth_chall -> auth_chall) (l1 l2 : list auth_chall)
    (c : auth_chall) :
  alter f (length l1) (l1 ++ c :: l2) = l1 ++ f c :: l2.
Proof. induction l1 as [|x l1 IH]; cbn; [reflexivity | now rewrite IH]. Qed.

(** A claimed challenge enters the list with its handler. *)
Lemma insert_claimed_ok (l : list auth_chall) (proto : proto_ref) (hdl : auth_handler) :
  challenges_ok l ->
  challenges_ok (alter (set_ch_handler (Some hdl)) (snd (insert_challenge l proto))
                   (fst (insert_challenge l proto))).
Proof.
  intros [Hs Hh]. split.
  - apply alter_sorted; [reflexivity|]. now apply insert_challenge_sorted.
  - destruct (insert_challenge_protocols l proto) as (l1 & l2 & -> & -> & _).
    cbn [fst snd]. rewrite alter_middle.
    apply Forall_app in Hh as [Hh1 Hh2].
    apply Forall_app. split; [exact Hh1|]. constructor; [reflexivity | exact Hh2].
Qed.

Lemma alter_ok (f : auth_chall -> auth_chall) (i : nat) (l : list auth_chall) :
  (forall c, ch_protocol (f c) = ch_protocol c) ->
  (forall c, ch_handler (f c) = ch_handler c) ->
  challenges_ok l -> challenges_ok (alter f i l).
Proof.
  intros Hp Hh [Hs Hf]. split; [now apply alter_sorted|].
  apply alter_Forall; [|exact Hf]. intros c. now rewrite Hh.
Qed.

Lemma challenge_param_ok (key val : string) (i : nat) (l : list auth_chall) :
  challenges_ok l -> challenges_ok (fst (challenge_param key val i l)).
Proof.
  intros Hl. unfold challenge_param.
  repeat case_match; cbn [fst]; try exact Hl; apply alter_ok; auto;
    intros c; destruct (qop_offers_auth val); reflexivity.
Qed.

Lemma challenge_step_ok {P : Platform} (hdls : list auth_handler) (st : chall_locals) (t : token)
    (next : loop_next) :
  challenges_ok (cl_challenges st) ->
  challenge_step hdls st t = Ret next ->
  match next with
  | Continue st' =>
      challenges_ok (cl_challenges st')
      /\ (String.length (cl_pnt st') <= String.length (tk_hdr t))%nat
  | Break l => challenges_ok l
  end.
Proof.
  intros Hl. unfold challenge_step. intros H.
  destruct (assign_value (cl_val st) t) as [| |v]; [discriminate H| |].
  - destruct (claim_challenge (tk_key t) hdls) as [[[proto hdl]|]|]; cbn in H;
      [| injection H as <-; cbn; split; [exact Hl | lia] | discriminate H].
    pose proof (insert_claimed_ok _ proto hdl Hl) as Hins.
    destruct (insert_challenge (cl_challenges st) proto) as [l' i]. cbn [fst snd] in Hins.
    destruct (negb _); [| injection H as <-; cbn; split; [exact Hins | lia]].
    destruct (assign_sep (cl_sep st) t) as [c|]; [|discriminate H].
    destruct (Ascii.eqb c " "); [| injection H as <-; cbn; split; [exact Hins | lia]].
    destruct (ne_token (tk_hdr t) ",") as [tok [pnt'|]] eqn:Et;
      injection H as <-; cbn.
    + split; [apply alter_ok; auto|]. now apply ne_token_shorter in Et.
    + apply alter_ok; auto.
  - destruct (cl_chall st) as [i|]; [| injection H as <-; cbn; split; [exact Hl | lia]].
    destruct (tk_key t) as [key|]; [|discriminate H].
    pose proof (challenge_param_ok key (ne_shave v (String DQUOTE (String SQUOTE "")))
                  i _ Hl) as Hp.
    destruct (challenge_param _ _ _ _) as [l' val']. injection H as <-.
    cbn. split; [exact Hp | lia].
Qed.

Lemma challenge_loop_ok {P : Platform} (fuel : nat) (hdls : list auth_handler) :
  forall st l,
    challenges_ok (cl_challenges st) ->
    challenge_loop fuel hdls st = Ret l -> challenges_ok l.
Proof.
  induction fuel as [|fuel IH]; intros st l Hl H; [discriminate H|].
  cbn [challenge_loop] in H.
  destruct (tokenize (cl_pnt st) true) as [| |t]; try (injection H as <-; exact Hl).
  destruct (challenge_step hdls st t) as [next|] eqn:Es; [|discriminate H].
  rewrite bind_Ret in H. apply (challenge_step_ok _ _ _ _ Hl) in Es.
  destruct next as [st'|l'].
  - eapply IH; [|exact H]. apply Es.
  - injection H as <-. exact Es.
Qed.

(** The parsed challenges are in non-increasing order of strength and
    each carries its handler. *)
Lemma parse_challenges_ok {P : Platform} (hdls : list auth_handler) (value : string)
    (l : list auth_chall) :
  parse_challenges hdls value = Ret l -> challenges_ok l.
Proof.
  apply challenge_loop_ok. split; [constructor | constructor].
Qed.

(** The loop bound is never the reason the loop stops. *)
Lemma challenge_loop_fuel {P : Platform} (fuel : nat) (hdls : list auth_handler) :
  forall st, challenges_ok (cl_challenges st) ->
             (String.length (cl_pnt st) < fuel)%nat ->
             challenge_loop fuel hdls st <> Fault OutOfFuel.
Proof.
  induction fuel as [|fuel IH]; intros st Hl Hlen; [lia|].
  cbn [challenge_loop].
  destruct (tokenize (cl_pnt st) true) as [| |t] eqn:Et; try discriminate.
  apply tokenize_shorter in Et.
  destruct (challenge_step hdls st t) as [next|f] eqn:Es.
  - rewrite bind_Ret. apply (challenge_step_ok _ _ _ _ Hl) in Es.
    destruct next as [st'|l']; [|discriminate].
    apply IH; [apply Es|]. destruct Es as [_ Hle]. lia.
  - cbn. intros Hc. injection Hc as ->.
    unfold challenge_step in Es.
    destruct (assign_value _ _); [discriminate Es| |].
    + destruct (claim_challenge (tk_key t) hdls) as [[[proto hdl]|]|f] eqn:Ec;
        cbn in Es; try discriminate Es.
      * destruct (insert_challenge _ _). repeat case_match; discriminate Es.
      * injection Es as ->. clear -Ec.
        induction hdls as [|h hdls IH]; [discriminate Ec|].
        cbn [claim_challenge] in Ec.
        destruct (match_protocol (tk_key t) (protomask h) protocols) as [[p|]|f] eqn:Em;
          cbn in Ec; try discriminate Ec; [now apply IH|].
        injection Ec as ->. clear -Em.
        induction protocols as [|p rows IH]; [discriminate Em|].
        cbn [match_protocol] in Em. repeat case_match; try discriminate Em; auto.
    + repeat case_match; discriminate Es.
Qed.

Lemma parse_challenges_fuel {P : Platform} (hdls : list auth_handler) (value : string) :
  parse_challenges hdls value <> Fault OutOfFuel.
Proof.
  apply challenge_loop_fuel; [split; constructor | cbn; lia].
Qed.

(** ** Choosing a scheme *)

Lemma digest_challenge_returns {P : Platform} (sess : auth_session) (attempt : Z)
    (parms : auth_chall) :
  non_null (ch_handler parms) = true ->
  exists rc sess', digest_challenge sess attempt parms = Ret (rc, sess').
Proof.
  intros Hh.
  destruct (digest_passes parms) eqn:Ep.
  - destruct (digest_challenge_unfold sess attempt parms Ep) as (r & n & _ & _ & ->).
    destruct (ch_stale parms); cbn [negb].
    + rewrite bind_Ret. apply digest_finish_returns.
    + unfold get_credentials. destruct (ch_handler parms); [|discriminate Hh].
      cbn [realm set_realm]. rewrite bind_Ret. apply digest_finish_returns.
  - destruct (digest_challenge_early sess attempt parms Ep) as [msg Hm]. eauto.
Qed.

Lemma basic_challenge_returns {P : Platform} (sess : auth_session) (attempt : Z)
    (parms : auth_chall) :
  non_null (ch_handler parms) = true ->
  exists rc sess', basic_challenge sess attempt parms = Ret (rc, sess').
Proof.
  intros Hh. unfold basic_challenge, get_credentials.
  destruct (ch_realm parms); [|eauto].
  destruct (ch_handler parms); [|discriminate Hh].
  cbn [realm set_realm]. rewrite bind_Ret.
  destruct (negb _); eauto.
Qed.

Lemma continue_negotiate_protocol {P : Platform} (sess : auth_session)
    (token : option string) :
  protocol (snd (continue_negotiate sess token)) = protocol sess.
Proof.
  unfold continue_negotiate.
  destruct (_ && _); [reflexivity|].
  destruct token; cbn; repeat case_match; reflexivity.
Qed.

Lemma negotiate_challenge_frame {P : Platform} (sess : auth_session) (attempt : Z)
    (chall : auth_chall) :
  exists rc sess',
    negotiate_challenge sess attempt chall = Ret (rc, sess')
    /\ protocol sess' = protocol sess.
Proof.
  unfold negotiate_challenge.
  destruct (_ || _); [|eauto].
  pose proof (continue_negotiate_protocol sess (ch_opaque chall)) as Hp.
  destruct (continue_negotiate sess (ch_opaque chall)) as [rc sess']. eauto.
Qed.

Lemma sspi_challenge_frame {P : Platform} (sess : auth_session) (attempt : Z)
    (parms : auth_chall) :
  exists rc sess',
    sspi_challenge sess attempt parms = Ret (rc, sess')
    /\ protocol sess' = protocol sess.
Proof.
  unfold sspi_challenge.
  destruct (sspi_context sess) eqn:Ec.
  - cbn. rewrite Ec. destruct (ne_sspi_authenticate _ _) as [status resp].
    destruct (negb _); eauto.
  - destruct (ne_sspi_create_context _) as [status ctx].
    destruct (negb (status =? 0)); [eauto|].
    destruct (ne_sspi_authenticate _ _) as [status' resp].
    destruct (negb _); eauto.
Qed.

(** An acceptor called on a parsed challenge returns, and leaves the
    selected protocol to its caller. *)
Lemma acceptor_returns {P : Platform} (sess : auth_session) (attempt : Z)
    (chall : auth_chall) :
  non_null (ch_handler chall) = true ->
  exists rc sess',
    challenge (protocol_row (ch_protocol chall)) sess attempt chall = Ret (rc, sess')
    /\ protocol sess' = protocol sess.
Proof.
  intros Hh. destruct (ch_protocol chall); cbn [protocol_row challenge].
  - destruct (basic_challenge_returns sess attempt chall Hh) as (rc & sess' & H).
    exists rc, sess'. split; [exact H|]. now apply basic_challenge_frame in H.
  - destruct (digest_challenge_returns sess attempt chall Hh) as (rc & sess' & H).
    exists rc, sess'. split; [exact H|]. now apply digest_challenge_frame in H.
  - apply negotiate_challenge_frame.
  - apply sspi_challenge_frame.
  - apply sspi_challenge_frame.
Qed.

Lemma set_protocol_None (sess : auth_session) :
  protocol sess = None -> set_protocol None sess = sess.
Proof. destruct sess; cbn. now intros ->. Qed.

Lemma try_challenges_run {P : Platform} (attempt : Z) (l : list auth_chall) :
  forall sess,
    Forall (fun c => non_null (ch_handler c) = true) l ->
    protocol sess = None ->
    exists sess_run selected,
      accept_run attempt sess l sess_run selected
      /\ try_challenges sess attempt l = Ret (set_protocol selected sess_run)
      /\ protocol sess_run = None.
Proof.
  induction l as [|c l IH]; intros sess Hl Hp.
  - exists sess, None. split; [constructor|]. split; [|exact Hp].
    cbn. now rewrite set_protocol_None.
  - apply Forall_cons in Hl as [Hc Hl].
    destruct (acceptor_returns sess attempt c Hc) as (rc & sess1 & Ha & Hp1).
    rewrite Hp in Hp1. cbn [try_challenges]. rewrite Ha, bind_Ret.
    destruct (Z.eqb_spec rc 0) as [->|Hne].
    + exists sess1, (Some (ch_protocol c)). split; [now constructor|]. now split.
    + destruct (IH sess1 Hl Hp1) as (sess_run & selected & Hrun & Ht & Hpr).
      exists sess_run, selected. split; [|now split].
      eapply accept_next; eauto.
Qed.

(** C4. Once the header has been parsed into its challenges, these are
    in non-increasing order of strength; [auth_challenge] calls their
    acceptors in that order, each on the session the one before has left,
    until one returns zero; the protocol of that challenge becomes the
    selected one, none is selected when every acceptor refuses, and the
    result is zero exactly when a protocol is selected. *)
Theorem auth_challenge_selects {P : Platform} (sess : auth_session) (attempt : Z)
    (value : string) (challenges : list auth_chall) :
  parse_challenges (handlers sess) value = Ret challenges ->
  sorted_by_strength challenges
  /\ exists rc sess' sess_run selected,
       auth_challenge sess attempt value = Ret (rc, sess')
       /\ accept_run attempt (set_protocol None sess) challenges sess_run selected
       /\ sess' = set_protocol selected sess_run
       /\ protocol sess' = selected
       /\ (rc = 0 \/ rc = 1)
       /\ (rc = 0 <-> selected <> None).
Proof.
  intros Hp. destruct (parse_challenges_ok _ _ _ Hp) as [Hs Hh].
  split; [exact Hs|].
  destruct (try_challenges_run attempt challenges (set_protocol None sess) Hh eq_refl)
    as (sess_run & selected & Hrun & Ht & _).
  unfold auth_challenge. rewrite Hp, bind_Ret, Ht, bind_Ret.
  exists (if non_null selected then 0 else 1), (set_protocol selected sess_run),
    sess_run, selected.
  split; [reflexivity|]. split; [exact Hrun|]. split; [reflexivity|].
  split; [reflexivity|].
  destruct selected; cbn; split; auto; split; intros H; congruence.
Qed.

(** C4 on the header [challenge_priority] with Basic and Digest
    registered: Digest is tried first and selected. *)
Lemma auth_challenge_selects_witness :
  exists challenges,
    parse_challenges (P := demo_platform) (handlers registered_jo) challenge_priority
    = Ret challenges
    /\ (ch_protocol <$> challenges) = [Proto_Digest; Proto_Basic]
    /\ sorted_by_strength challenges
    /\ exists rc sess' sess_run selected,
         auth_challenge (P := demo_platform) registered_jo 0 challenge_priority
         = Ret (rc, sess')
         /\ accept_run (P := demo_platform) 0 (set_protocol None registered_jo)
              challenges sess_run selected
         /\ sess' = set_protocol selected sess_run
         /\ protocol sess' = selected
         /\ (rc = 0 \/ rc = 1)
         /\ (rc = 0 <-> selected <> None).
Proof.
  eexists. split; [vm_compute; reflexivity|]. split; [reflexivity|].
  apply (auth_challenge_selects (P := demo_platform) registered_jo 0 challenge_priority).
  vm_compute; reflexivity.
Defined.

(** ** Claiming a scheme token *)

Lemma match_protocol_find (key : string) (mask : Z) (rows : list proto_ref) :
  match_protocol (Some key) mask rows = Ret (find (admits mask key) rows).
Proof.
  induction rows as [|p rows IH]; [reflexivity|].
  cbn [match_protocol find]. unfold admits at 1.
  destruct (negb _); cbn [andb]; [|exact IH].
  destruct (_ =? 0); [reflexivity | exact IH].
Qed.

(** A token is claimed by the first handler of the chain whose mask
    admits a row of the table under that name, for the first such row. *)
Lemma claim_challenge_first {P : Platform} (key : string) (hdls : list auth_handler) :
  match claim_challenge (Some key) hdls with
  | Ret (Some (p, hdl)) =>
      exists before after,
        hdls = before ++ hdl :: after
        /\ Forall (fun h => find (admits (protomask h) key) protocols = None) before
        /\ find (admits (protomask hdl) key) protocols = Some p
  | Ret None =>
      Forall (fun h => find (admits (protomask h) key) protocols = None) hdls
  | Fault _ => False
  end.
Proof.
  induction hdls as [|h hdls IH]; cbn [claim_challenge]; [constructor|].
  rewrite match_protocol_find, bind_Ret.
  destruct (find (admits (protomask h) key) protocols) as [p|] eqn:Ef.
  - exists [], hdls. repeat split; [constructor | exact Ef].
  - destruct (claim_challenge (Some key) hdls) as [[[p hdl]|]|]; [| |exact IH].
    + destruct IH as (before & after & -> & Hb & Hf).
      exists (h :: before), after. repeat split; [|exact Hf]. now constructor.
    + now constructor.
Qed.

(** [auth_register] keeps at most the handlers before the last one. *)
Lemma register_handler_last (hdls : list auth_handler) (new : auth_handler) :
  register_handler hdls new = removelast hdls ++ [new].
Proof.
  induction hdls as [|h hdls IH]; [reflexivity|].
  destruct hdls as [|h' hdls]; [reflexivity|].
  change (register_handler (h :: h' :: hdls) new)
    with (h :: register_handler (h' :: hdls) new).
  rewrite IH. reflexivity.
Qed.

(** A second registration on a session replaces the handler of the
    first. *)
Lemma second_registration_replaces (scheme : string) (isproxy : bool) (m1 m2 : Z)
    (ahc : auth_class) (cb1 cb2 : ne_auth_creds) :
  handlers (auth_register (Some (auth_register None scheme isproxy m1 ahc cb1))
              scheme isproxy m2 ahc cb2)
  = [{| protomask := m2; creds := cb2 |}].
Proof. reflexivity. Qed.

(** C5 fails on the code at the registration: after two registrations
    for Basic the chain holds the second handler only, and the token
    [Basic] is claimed by it, not by the first one registered. *)
Theorem second_registration_claims :
  handlers (ne_add_server_auth None "http" NE_AUTH_BASIC creds_jo)
  = [{| protomask := NE_AUTH_BASIC; creds := creds_jo |}]
  /\ handlers registered_twice = [{| protomask := NE_AUTH_BASIC; creds := creds_al |}]
  /\ claim_challenge (P := demo_platform) (Some "Basic") (handlers registered_twice)
     = Ret (Some (Proto_Basic, {| protomask := NE_AUTH_BASIC; creds := creds_al |}))
  /\ exists sess',
       auth_challenge (P := demo_platform) registered_twice 0 challenge_basic
       = Ret (0, sess')
       /\ username sess' = "al".
Proof.
  split; [reflexivity|]. split; [reflexivity|]. split; [reflexivity|].
  eexists. split; [vm_compute; reflexivity | reflexivity].
Qed.

(** ** After the response *)

(** The second branch tests [flags && AUTH_FLAG_VERIFY_NON40x], that
    is, whether the flags are other than zero; for every row of the table
    this agrees with the test of the bit. *)
Lemma second_branch_nonzero (z : Z) :
  c_true z && c_true AUTH_FLAG_VERIFY_NON40x = negb (z =? 0).
Proof. unfold c_true. cbn. now rewrite andb_true_r. Qed.

Lemma second_branch_flag {P : Platform} (p : proto_ref) :
  c_true (flags (protocol_row p)) && c_true AUTH_FLAG_VERIFY_NON40x
  = negb (Z.land (flags (protocol_row p)) AUTH_FLAG_VERIFY_NON40x =? 0).
Proof. destruct p; reflexivity. Qed.

(** With a selected protocol that has the flag and a verifier, a status
    of class 2 or 3 and a challenge header, [ah_post_send] runs the
    verifier on that header and returns what it returns. *)
Lemma post_send_verifies_challenge_header {P : Platform} (areq : auth_request)
    (headers : string -> option string) (status : ne_status) (sess : auth_session)
    (p : proto_ref) (hdr : string)
    (verifier : auth_request -> auth_session -> string -> outcome (Z * auth_session)) :
  protocol sess = Some p ->
  Z.land (flags (protocol_row p)) AUTH_FLAG_VERIFY_NON40x <> 0 ->
  verify (protocol_row p) = Some verifier ->
  klass status = 2 \/ klass status = 3 ->
  headers (resp_hdr (spec sess)) = Some hdr ->
  ah_post_send (Some areq) headers status sess
  = verifier areq (if HAVE_GSSAPI then set_gssapi_token None sess else sess) hdr
    ≫= fun '(ret, sess) => Ret (ret, sess, Some areq).
Proof.
  intros Hp Hf Hv Hk Hh. unfold ah_post_send.
  rewrite Hh. cbn [non_null negb andb].
  rewrite andb_false_r.
  assert (Hproto : protocol (if HAVE_GSSAPI then set_gssapi_token None sess else sess)
                   = Some p) by (destruct HAVE_GSSAPI; exact Hp).
  rewrite Hproto, Hv.
  apply Z.eqb_neq in Hf. rewrite Hf.
  rewrite second_branch_flag, Hf. cbn [negb andb].
  replace ((klass status =? 2) || (klass status =? 3)) with true
    by (destruct Hk as [-> | ->]; reflexivity).
  destruct (headers (resp_info_hdr (spec sess))); rewrite ?Hv; reflexivity.
Qed.

(** C3 fails on the code in a build with SSPI: the rows for NTLM and
    Negotiate have the flag and no verifier, and a 200 response that
    carries a challenge header makes [ah_post_send] call through the null
    pointer. *)
Theorem post_send_calls_null_verifier :
  protocol sspi_selected = Some Proto_SSPI_Negotiate
  /\ Z.land (flags (protocol_row (P := sspi_platform) Proto_SSPI_Negotiate))
       AUTH_FLAG_VERIFY_NON40x <> 0
  /\ verify (protocol_row (P := sspi_platform) Proto_SSPI_Negotiate) = None
  /\ ah_post_send (P := sspi_platform) (ah_create sspi_selected "GET" "/")
       (challenge_only "WWW-Authenticate" "Negotiate dG9rZW4=")
       {| code := 200; klass := 2 |} sspi_selected
     = Fault NullCall.
Proof.
  split; [vm_compute; reflexivity|]. split; [discriminate|].
  split; [reflexivity|]. vm_compute; reflexivity.
Qed.

(** ** The scenarios of the specification on the embedding

    With the digest of [demo_platform] the header shows what has been
    hashed. *)

Example scenario_digest_2069 :
  fst <$> ah_pre_send (P := demo_platform)
            (session_after_response (P := demo_platform)
               (challenge_only "WWW-Authenticate" challenge_2069) unauthorized registered_jo)
            (Some get_root) EmptyString
  = Ret ("Authorization: Digest username=" +:+ quoted "jo" +:+ ", realm=" +:+ quoted "x"
         +:+ ", nonce=" +:+ quoted "abc" +:+ ", uri=" +:+ quoted "/"
         +:+ ", response=" +:+ quoted "md5(md5(jo:x:foo):abc:md5(GET:/))"
         +:+ ", algorithm=" +:+ quoted "MD5" +:+ CRLF).
Proof. vm_compute; reflexivity. Qed.

Example scenario_digest_2617 :
  nonce_count sent_once = 1
  /\ fst <$> ah_pre_send (P := demo_platform) sent_once (Some get_root) EmptyString
     = Ret ("Authorization: Digest username=" +:+ quoted "jo" +:+ ", realm=" +:+ quoted "x"
            +:+ ", nonce=" +:+ quoted "abc" +:+ ", uri=" +:+ quoted "/" +:+ ", response="
            +:+ quoted "md5(md5(jo:x:foo):abc:00000002:md5(rnd0):auth:md5(GET:/))"
            +:+ ", algorithm=" +:+ quoted "MD5" +:+ ", cnonce=" +:+ quoted "md5(rnd0)"
            +:+ ", nc=00000002, qop=" +:+ quoted "auth" +:+ CRLF).
Proof. split; vm_compute; reflexivity. Qed.

Example scenario_stale_nonce :
  prompts (session_after_response (P := demo_platform)
             (challenge_only "WWW-Authenticate" challenge_stale) unauthorized sent_twice)
  = prompts sent_twice
  /\ fst <$> ah_pre_send (P := demo_platform)
               (session_after_response (P := demo_platform)
                  (challenge_only "WWW-Authenticate" challenge_stale) unauthorized sent_twice)
               (Some get_root) EmptyString
     = Ret ("Authorization: Digest username=" +:+ quoted "jo" +:+ ", realm=" +:+ quoted "x"
            +:+ ", nonce=" +:+ quoted "def" +:+ ", uri=" +:+ quoted "/" +:+ ", response="
            +:+ quoted "md5(md5(jo:x:foo):def:00000001:md5(rnd1):auth:md5(GET:/))"
            +:+ ", algorithm=" +:+ quoted "MD5" +:+ ", cnonce=" +:+ quoted "md5(rnd1)"
            +:+ ", nc=00000001, qop=" +:+ quoted "auth" +:+ CRLF).
Proof. split; vm_compute; reflexivity. Qed.

Example scenario_challenge_priority :
  protocol (session_after_response (P := demo_platform)
              (challenge_only "WWW-Authenticate" challenge_priority) unauthorized
              registered_jo)
  = Some Proto_Digest.
Proof. vm_compute; reflexivity. Qed.

Example scenario_mutual_auth_failure :
  (fun r => fst (fst r)) <$>
    ah_post_send (P := demo_platform) (Some get_root)
      (challenge_only "Authentication-Info" auth_info_deadbeef) success sent_once
  = Ret NE_ERROR.
Proof. vm_compute; reflexivity. Qed.

(** * Further properties of the code *)

(** ** The tokenizer on header text *)

Lemma append_nil_r (a : string) : a +:+ EmptyString = a.
Proof. induction a as [|c a IH]; [reflexivity|]. now rewrite append_cons, IH. Qed.

Lemma app_char_append (a : string) (c : ascii) (b : string) :
  app_char a c +:+ b = a +:+ String c b.
Proof. unfold app_char. now rewrite append_assoc, append_cons, append_nil_l. Qed.

Lemma blank_not_equals (c : ascii) :
  strchr_in key_blanks c = true -> Ascii.eqb c "=" = false.
Proof.
  intros H. destruct (Ascii.eqb_spec c "=") as [->|]; [discriminate H | reflexivity].
Qed.

(** Once a key has begun, [tokenize] does not return -1. *)
Lemma tok_scan_keyed (ischall : bool) (pnt : string) :
  forall (state : tok_state) (k value : string),
    tok_scan ischall state (Some k) value pnt <> Tok_malformed.
Proof.
  induction pnt as [|c pnt IH]; intros state k value.
  - cbn. repeat case_match; discriminate.
  - cbn [tok_scan]. repeat case_match; try discriminate; apply IH.
Qed.

Lemma tok_scan_malformed (ischall : bool) (pnt : string) (value : string) :
  tok_scan ischall BEFORE_EQ None value pnt = Tok_malformed
  <-> exists rest, skip_leading key_blanks pnt = String "=" rest.
Proof.
  induction pnt as [|c pnt IH].
  - cbn. rewrite andb_false_r. split; [discriminate | intros [rest H]; discriminate H].
  - cbn [tok_scan skip_leading non_null]. rewrite andb_false_r.
    destruct (Ascii.eqb_spec c "=") as [->|Hne].
    + cbn. split; [eauto | reflexivity].
    + change (String " " (String CR (String LF (String TAB "")))) with key_blanks.
      destruct (strchr_in key_blanks c); cbn [negb].
      * exact IH.
      * split.
        -- intros H. now apply tok_scan_keyed in H.
        -- intros [rest H]. injection H as -> _. contradiction.
Qed.

Lemma tok_scan_not_end (ischall : bool) (pnt : string) :
  forall (state : tok_state) (key : option string) (value : string),
    tok_scan ischall state key value pnt <> Tok_end.
Proof.
  induction pnt as [|c pnt IH]; intros state key value.
  - cbn. repeat case_match; discriminate.
  - cbn [tok_scan]. repeat case_match; try discriminate; apply IH.
Qed.

(** X1. [tokenize] returns 1 exactly on the empty string, and -1 exactly
    when the first character that is not a space, a carriage return, a
    line feed or a tab is the equals sign. *)
Theorem tokenize_return_value (hdr : string) (ischall : bool) :
  (tokenize hdr ischall = Tok_end <-> hdr = EmptyString)
  /\ (tokenize hdr ischall = Tok_malformed
      <-> exists rest, skip_leading key_blanks hdr = String "=" rest).
Proof.
  destruct hdr as [|c hdr].
  - split; [split; reflexivity|].
    split; [discriminate | intros [rest H]; discriminate H].
  - split.
    + split; [|discriminate]. unfold tokenize. intros H.
      now apply tok_scan_not_end in H.
    + apply tok_scan_malformed.
Qed.

(** What [tokenize] has passed over when it returns a token. *)
Lemma tok_scan_suffix (ischall : bool) (pnt : string) :
  forall (state : tok_state) (key : option string) (value : string) (t : token),
    tok_scan ischall state key value pnt = Tok_pair t ->
    exists pre, pnt = pre +:+ tk_hdr t.
Proof.
  induction pnt as [|c pnt IH]; intros state key value t H.
  - exists EmptyString. cbn in H. repeat case_match; injection H as <-; reflexivity.
  - cbn [tok_scan] in H.
    repeat case_match; try discriminate H;
      try (injection H as <-; exists (String c EmptyString); reflexivity);
      apply IH in H as [pre ->]; exists (String c pre); now rewrite append_cons.
Qed.

(** X2. A call of [tokenize] that returns a token has consumed at least
    one character: what is left in [*hdr] is a proper suffix of what was
    there. *)
Theorem tokenize_consumes (hdr : string) (ischall : bool) (t : token) :
  tokenize hdr ischall = Tok_pair t ->
  exists c pre, hdr = String c pre +:+ tk_hdr t.
Proof.
  destruct hdr as [|c hdr]; [discriminate|].
  unfold tokenize. cbn [tok_scan]. intros H.
  repeat case_match; try discriminate H;
    try (injection H as <-; exists c, EmptyString; reflexivity);
    apply tok_scan_suffix in H as [pre ->]; exists c, pre; now rewrite append_cons.
Qed.

Lemma tokenize_consumes_witness :
  exists c pre, "a=b,c=d"%string = String c pre +:+ "c=d".
Proof.
  apply (tokenize_consumes "a=b,c=d" false
           {| tk_key := Some "a"%string; tk_value := Some (Some "b"%string);
              tk_sep := None; tk_hdr := "c=d" |}).
  reflexivity.
Defined.

(** *** Keys and values *)

Lemma tok_scan_lead (ischall : bool) (lead rest value : string) :
  all_chars (strchr_in key_blanks) lead = true ->
  tok_scan ischall BEFORE_EQ None value (lead +:+ rest)
  = tok_scan ischall BEFORE_EQ None value rest.
Proof.
  induction lead as [|c lead IH]; intros H; [now rewrite append_nil_l|].
  cbn [all_chars] in H. apply andb_true_iff in H as [Hc Hl].
  rewrite append_cons. cbn [tok_scan non_null].
  rewrite (blank_not_equals c Hc), andb_false_r.
  change (String " " (String CR (String LF (String TAB "")))) with key_blanks.
  rewrite Hc. cbn [negb]. now apply IH.
Qed.

Lemma tok_scan_key_chars (ischall : bool) (k rest value : string) :
  forall k0,
    all_chars (key_char ischall) k = true ->
    tok_scan ischall BEFORE_EQ (Some k0) value (k +:+ rest)
    = tok_scan ischall BEFORE_EQ (Some (k0 +:+ k)) value rest.
Proof.
  induction k as [|c k IH]; intros k0 H.
  - now rewrite append_nil_l, append_nil_r.
  - cbn [all_chars] in H. apply andb_true_iff in H as [Hc Hk].
    unfold key_char in Hc. apply andb_true_iff in Hc as [He Hs].
    apply negb_true_iff in He, Hs.
    rewrite append_cons. cbn [tok_scan non_null]. rewrite He, andb_true_r.
    rewrite (andb_comm _ ischall), Hs.
    rewrite (IH _ Hk), app_char_append. reflexivity.
Qed.

(** From the first character of a key to the character after it. *)
Lemma tok_scan_key (ischall : bool) (lead k rest value : string) :
  all_chars (strchr_in key_blanks) lead = true ->
  key_ok ischall k = true ->
  tok_scan ischall BEFORE_EQ None value (lead +:+ k +:+ rest)
  = tok_scan ischall BEFORE_EQ (Some k) value rest.
Proof.
  intros Hl Hk. rewrite (tok_scan_lead _ _ _ _ Hl).
  destruct k as [|c k]; [discriminate Hk|].
  unfold key_ok in Hk. apply andb_true_iff in Hk as [Hb Hk].
  apply negb_true_iff in Hb.
  pose proof Hk as Hk'. cbn [all_chars] in Hk'. apply andb_true_iff in Hk' as [Hc Hk'].
  unfold key_char in Hc. apply andb_true_iff in Hc as [He _]. apply negb_true_iff in He.
  rewrite append_cons. cbn [tok_scan non_null]. rewrite He, andb_false_r.
  change (String " " (String CR (String LF (String TAB "")))) with key_blanks.
  rewrite Hb. cbn [negb].
  rewrite (tok_scan_key_chars _ _ _ _ _ Hk'). rewrite append_cons, append_nil_l.
  reflexivity.
Qed.

Lemma tok_scan_value (ischall : bool) (key : option string) (v rest : string) :
  forall (inq inq' : bool) (acc : string),
    value_scan inq v = Some inq' ->
    tok_scan ischall (value_state inq) key acc (v +:+ rest)
    = tok_scan ischall (value_state inq') key (acc +:+ v) rest.
Proof.
  induction v as [|c v IH]; intros inq inq' acc H.
  - injection H as <-. now rewrite append_nil_l, append_nil_r.
  - cbn [value_scan] in H. rewrite append_cons, <- app_char_append.
    destruct (Ascii.eqb_spec c DQUOTE) as [->|Hq].
    + rewrite <- (IH _ _ _ H). destruct inq; reflexivity.
    + destruct inq; cbn [negb value_state tok_scan] in *.
      * apply Ascii.eqb_neq in Hq. rewrite Hq.
        rewrite andb_false_r in H. exact (IH true _ _ H).
      * rewrite andb_true_r in H. apply Ascii.eqb_neq in Hq. rewrite Hq.
        destruct (Ascii.eqb c ","); [discriminate H|]. exact (IH false _ _ H).
Qed.

Lemma tokenize_scan (ischall : bool) (hdr : string) (t : token) :
  tok_scan ischall BEFORE_EQ None EmptyString hdr = Tok_pair t ->
  tk_key t <> None ->
  tokenize hdr ischall = Tok_pair t.
Proof.
  destruct hdr as [|c hdr]; [|intros H _; exact H].
  cbn. rewrite andb_false_r. intros H. injection H as <-. intros Hk. now contradict Hk.
Qed.

Lemma tokenize_pair_comma (ischall : bool) (lead k v rest : string) :
  all_chars (strchr_in key_blanks) lead = true ->
  key_ok ischall k = true ->
  value_scan false v = Some false ->
  tokenize (lead +:+ k +:+ "=" +:+ v +:+ "," +:+ rest) ischall
  = Tok_pair {| tk_key := Some k; tk_value := Some (Some v);
                tk_sep := None; tk_hdr := rest |}.
Proof.
  intros Hl Hk Hv. apply tokenize_scan; [|discriminate].
  rewrite (tok_scan_key _ _ _ _ _ Hl Hk).
  rewrite append_cons, append_nil_l. cbn [tok_scan].
  change AFTER_EQ with (value_state false).
  rewrite (tok_scan_value _ _ _ _ _ _ _ Hv).
  rewrite append_cons, !append_nil_l. reflexivity.
Qed.

Lemma tokenize_pair_end (ischall : bool) (lead k v : string) :
  all_chars (strchr_in key_blanks) lead = true ->
  key_ok ischall k = true ->
  value_scan false v <> None ->
  tokenize (lead +:+ k +:+ "=" +:+ v) ischall
  = Tok_pair {| tk_key := Some k; tk_value := Some (Some v);
                tk_sep := None; tk_hdr := EmptyString |}.
Proof.
  intros Hl Hk Hv. apply tokenize_scan; [|discriminate].
  rewrite (tok_scan_key _ _ _ _ _ Hl Hk).
  rewrite append_cons, append_nil_l. cbn [tok_scan].
  destruct (value_scan false v) as [inq|] eqn:Ev; [|now contradict Hv].
  change AFTER_EQ with (value_state false).
  rewrite <- (append_nil_r v) at 1.
  rewrite (tok_scan_value _ _ _ _ _ _ _ Ev), append_nil_l.
  destruct inq; reflexivity.
Qed.

(** X3. A key, an equals sign and a value: [tokenize] passes over the
    blanks in front of the key and returns the key and the value as they
    stand, the value with its quotes, and leaves [*hdr] behind the comma
    that ends the value or at the end of the string.  A comma between
    double quotes does not end the value. *)
Theorem tokenize_pair (ischall : bool) (lead k v rest : string) :
  all_chars (strchr_in key_blanks) lead = true ->
  key_ok ischall k = true ->
  (value_scan false v = Some false ->
   tokenize (lead +:+ k +:+ "=" +:+ v +:+ "," +:+ rest) ischall
   = Tok_pair {| tk_key := Some k; tk_value := Some (Some v);
                 tk_sep := None; tk_hdr := rest |})
  /\ (value_scan false v <> None ->
      tokenize (lead +:+ k +:+ "=" +:+ v) ischall
      = Tok_pair {| tk_key := Some k; tk_value := Some (Some v);
                    tk_sep := None; tk_hdr := EmptyString |}).
Proof.
  intros Hl Hk. split; intros Hv.
  - now apply tokenize_pair_comma.
  - now apply tokenize_pair_end.
Qed.

Lemma tokenize_pair_witness :
  tokenize (" " +:+ "realm" +:+ "=" +:+ quoted "a,b" +:+ "," +:+ " nonce=1") true
  = Tok_pair {| tk_key := Some "realm"%string; tk_value := Some (Some (quoted "a,b"));
                tk_sep := None; tk_hdr := " nonce=1" |}.
Proof.
  apply (tokenize_pair true " " "realm" (quoted "a,b") " nonce=1"); reflexivity.
Defined.

Lemma tokenize_key_end (ischall : bool) (lead k : string) :
  all_chars (strchr_in key_blanks) lead = true ->
  key_ok ischall k = true ->
  tokenize (lead +:+ k) ischall
  = Tok_pair {| tk_key := Some k;
                tk_value := if ischall then Some None else None;
                tk_sep := if ischall then Some NUL else None;
                tk_hdr := EmptyString |}.
Proof.
  intros Hl Hk. apply tokenize_scan; [|discriminate].
  replace (lead +:+ k) with (lead +:+ k +:+ EmptyString) by now rewrite append_nil_r.
  rewrite (tok_scan_key _ _ _ _ _ Hl Hk). cbn. destruct ischall; reflexivity.
Qed.

Lemma tokenize_key_sep (lead k rest : string) (c : ascii) :
  all_chars (strchr_in key_blanks) lead = true ->
  key_ok true k = true ->
  c = " "%char \/ c = ","%char ->
  tokenize (lead +:+ k +:+ String c rest) true
  = Tok_pair {| tk_key := Some k; tk_value := Some None;
                tk_sep := Some c; tk_hdr := rest |}.
Proof.
  intros Hl Hk Hc. apply tokenize_scan; [|discriminate].
  rewrite (tok_scan_key _ _ _ _ _ Hl Hk).
  destruct Hc as [-> | ->]; reflexivity.
Qed.

(** X4. A key that is not followed by an equals sign.  At the end of
    the string [tokenize] returns the key; for a challenge it stores NULL
    in [*value] and NUL in [*sep], and otherwise it writes neither and
    the caller's [val] is left as it was.  For a challenge a space or a
    comma ends the key: [*value] is NULL, [*sep] the separator, and
    [*hdr] is left behind it. *)
Theorem tokenize_bare_key (ischall : bool) (lead k : string) :
  all_chars (strchr_in key_blanks) lead = true ->
  key_ok ischall k = true ->
  tokenize (lead +:+ k) ischall
  = Tok_pair {| tk_key := Some k;
                tk_value := if ischall then Some None else None;
                tk_sep := if ischall then Some NUL else None;
                tk_hdr := EmptyString |}
  /\ forall (c : ascii) (rest : string),
       ischall = true -> c = " "%char \/ c = ","%char ->
       tokenize (lead +:+ k +:+ String c rest) ischall
       = Tok_pair {| tk_key := Some k; tk_value := Some None;
                     tk_sep := Some c; tk_hdr := rest |}.
Proof.
  intros Hl Hk. split; [now apply tokenize_key_end|].
  intros c rest -> Hc. now apply tokenize_key_sep.
Qed.

Lemma tokenize_bare_key_witness :
  tokenize ("" +:+ "Negotiate") true
  = Tok_pair {| tk_key := Some "Negotiate"%string; tk_value := Some None;
                tk_sep := Some NUL; tk_hdr := EmptyString |}
  /\ tokenize ("" +:+ "Negotiate" +:+ String " " "dG9rZW4=") true
     = Tok_pair {| tk_key := Some "Negotiate"%string; tk_value := Some None;
                   tk_sep := Some " "%char; tk_hdr := "dG9rZW4=" |}.
Proof.
  destruct (tokenize_bare_key true "" "Negotiate" eq_refl eq_refl) as [Hend Hsep].
  split; [exact Hend | apply (Hsep " "%char); auto].
Defined.

(** ** The loops over the header end *)

Lemma auth_info_loop_stable (fuel1 : nat) :
  forall (fuel2 : nat) (st : auth_info),
    (String.length (ai_pnt st) < fuel1)%nat ->
    (String.length (ai_pnt st) < fuel2)%nat ->
    auth_info_loop fuel1 st = auth_info_loop fuel2 st.
Proof.
  induction fuel1 as [|fuel1 IH]; intros [|fuel2] st H1 H2; try lia.
  cbn [auth_info_loop].
  destruct (tokenize (ai_pnt st) false) as [| |t] eqn:Et; try reflexivity.
  apply tokenize_shorter in Et.
  destruct (auth_info_step st t) as [st'|f] eqn:Es; [|reflexivity].
  rewrite !bind_Ret. apply auth_info_step_pnt in Es.
  apply IH; rewrite Es; lia.
Qed.

Lemma challenge_loop_stable {P : Platform} (hdls : list auth_handler) (fuel1 : nat) :
  forall (fuel2 : nat) (st : chall_locals),
    challenges_ok (cl_challenges st) ->
    (String.length (cl_pnt st) < fuel1)%nat ->
    (String.length (cl_pnt st) < fuel2)%nat ->
    challenge_loop fuel1 hdls st = challenge_loop fuel2 hdls st.
Proof.
  induction fuel1 as [|fuel1 IH]; intros [|fuel2] st Hok H1 H2; try lia.
  cbn [challenge_loop].
  destruct (tokenize (cl_pnt st) true) as [| |t] eqn:Et; try reflexivity.
  apply tokenize_shorter in Et.
  destruct (challenge_step hdls st t) as [next|f] eqn:Es; [|reflexivity].
  rewrite !bind_Ret. apply (challenge_step_ok _ _ _ _ Hok) in Es.
  destruct next as [st'|l]; [|reflexivity].
  destruct Es as [Hok' Hlen]. apply IH; [exact Hok' | lia | lia].
Qed.

(** X5. The loops of [verify_digest_response] and of [auth_challenge]
    over the header end on every header value: each turn consumes at
    least one character, so that a bound above the length of the value is
    never reached and the result does not depend on it. *)
Theorem header_loops_terminate {P : Platform} (hdls : list auth_handler)
    (value : string) (fuel : nat) :
  (String.length value < fuel)%nat ->
  auth_info_loop fuel (auth_info_init value) = parse_auth_info value
  /\ parse_auth_info value <> Fault OutOfFuel
  /\ challenge_loop fuel hdls (chall_locals_init value) = parse_challenges hdls value
  /\ parse_challenges hdls value <> Fault OutOfFuel.
Proof.
  intros Hlen. split; [|split; [|split]].
  - apply auth_info_loop_stable; cbn; lia.
  - apply parse_auth_info_fuel.
  - apply challenge_loop_stable; [split; constructor | cbn; lia | cbn; lia].
  - apply parse_challenges_fuel.
Qed.

Lemma header_loops_terminate_witness :
  auth_info_loop 100 (auth_info_init auth_info_deadbeef)
  = parse_auth_info auth_info_deadbeef
  /\ parse_auth_info auth_info_deadbeef <> Fault OutOfFuel
  /\ challenge_loop (P := demo_platform) 100 [handler_jo]
       (chall_locals_init auth_info_deadbeef)
     = parse_challenges (P := demo_platform) [handler_jo] auth_info_deadbeef
  /\ parse_challenges (P := demo_platform) [handler_jo] auth_info_deadbeef
     <> Fault OutOfFuel.
Proof.
  apply (header_loops_terminate (P := demo_platform) [handler_jo] auth_info_deadbeef 100).
  vm_compute. lia.
Defined.

(** ** The verifier of Authentication-Info on malformed and on well-formed text *)

Lemma tok_scan_no_equals (pnt : string) :
  forall (key : option string) (value : string),
    all_chars (fun c => negb (Ascii.eqb c "=")) pnt = true ->
    exists key',
      tok_scan false BEFORE_EQ key value pnt
      = Tok_pair {| tk_key := key'; tk_value := None; tk_sep := None;
                    tk_hdr := EmptyString |}.
Proof.
  induction pnt as [|c pnt IH]; intros key value H.
  - exists key. reflexivity.
  - cbn [all_chars] in H. apply andb_true_iff in H as [Hc Hp].
    apply negb_true_iff in Hc. cbn [tok_scan]. rewrite Hc, andb_false_r. cbn [andb].
    destruct key as [k|]; [now apply IH|].
    destruct (negb _); now apply IH.
Qed.

(** X6. An Authentication-Info value that is not empty and holds no
    equals sign: the first call of [tokenize] returns zero without
    storing anything in [*value], and [verify_digest_response] passes its
    local [val], which nothing has written, to [ne_shave]. *)
Theorem verify_reads_unwritten_value {P : Platform} (req : auth_request)
    (sess : auth_session) (value : string) :
  value <> EmptyString ->
  all_chars (fun c => negb (Ascii.eqb c "=")) value = true ->
  (exists key, tokenize value false
               = Tok_pair {| tk_key := key; tk_value := None; tk_sep := None;
                             tk_hdr := EmptyString |})
  /\ verify_digest_response req sess value = Fault UninitRead.
Proof.
  intros Hne Hv.
  destruct (tok_scan_no_equals value None EmptyString Hv) as [key Hk].
  assert (Ht : tokenize value false
               = Tok_pair {| tk_key := key; tk_value := None; tk_sep := None;
                             tk_hdr := EmptyString |}).
  { destruct value; [now contradict Hne | exact Hk]. }
  split; [eauto|].
  unfold verify_digest_response, parse_auth_info. cbn [auth_info_loop].
  cbn [auth_info_init ai_pnt]. rewrite Ht. reflexivity.
Qed.

Lemma verify_reads_unwritten_value_witness :
  (exists key, tokenize "nextnonce" false
               = Tok_pair {| tk_key := key; tk_value := None; tk_sep := None;
                             tk_hdr := EmptyString |})
  /\ verify_digest_response (P := demo_platform) get_root (digest_session 1 None)
       "nextnonce"
     = Fault UninitRead.
Proof.
  apply (verify_reads_unwritten_value (P := demo_platform) get_root
           (digest_session 1 None) "nextnonce"); [discriminate | reflexivity].
Defined.

(** X7. [verify_digest_response] returns NE_OK or NE_ERROR; with NE_OK
    the error string of the session is left as it was, and with NE_ERROR
    it has been set to a message that says which check has failed. *)
Theorem verify_digest_response_reports {P : Platform} (req : auth_request)
    (sess sess' : auth_session) (value : string) (rc : Z) :
  verify_digest_response req sess value = Ret (rc, sess') ->
  (rc = NE_OK /\ error sess' = error sess)
  \/ (rc = NE_ERROR
      /\ exists why, error sess' = "Digest mutual authentication failure: " +:+ why).
Proof.
  intros H.
  destruct (parse_auth_info value) as [p|] eqn:Ep;
    [|unfold verify_digest_response in H; rewrite Ep in H; discriminate H].
  rewrite (verify_unfold req sess value p Ep) in H.
  destruct (verify_decide req sess p) as [[rc0 s0]|] eqn:Ed; [|discriminate H].
  rewrite bind_Ret in H. injection H as <- <-.
  assert (He : error (apply_nextnonce p s0) = error s0).
  { unfold apply_nextnonce. destruct (ai_nextnonce p); reflexivity. }
  rewrite He. clear He. unfold verify_decide in Ed.
  repeat case_match; try discriminate Ed; injection Ed as <- <-;
    first [ left; split; reflexivity
          | right; split; [reflexivity | eexists; cbn [error ne_set_error]; reflexivity]
          | exfalso; match goal with H : negb (_ =? 0) = _ |- _ => discriminate H end ].
Qed.

Lemma verify_digest_response_reports_witness :
  (NE_ERROR = NE_OK /\ error nextnonce_after = error nextnonce_before)
  \/ (NE_ERROR = NE_ERROR
      /\ exists why,
           error nextnonce_after = "Digest mutual authentication failure: " +:+ why).
Proof.
  apply (verify_digest_response_reports (P := demo_platform) get_root nextnonce_before
           nextnonce_after
           (auth_info_deadbeef +:+ ", nextnonce=" +:+ quoted "def") NE_ERROR).
  vm_compute. reflexivity.
Defined.

(** *** Reading a well-formed value *)

Lemma value_scan_quoted_tail (s rest : string) :
  no_dquote s = true ->
  value_scan true (s +:+ String DQUOTE rest) = value_scan false rest.
Proof.
  unfold no_dquote. induction s as [|x s IH]; intros H; [reflexivity|].
  cbn [all_chars] in H. apply andb_true_iff in H as [Hx Hs]. apply negb_true_iff in Hx.
  rewrite append_cons. cbn [value_scan negb]. rewrite Hx, andb_false_r. now apply IH.
Qed.

Lemma value_scan_quoted (s : string) :
  no_dquote s = true -> value_scan false (quoted s) = Some false.
Proof.
  intros H. unfold quoted, dq. rewrite append_cons, append_nil_l.
  cbn [value_scan negb]. change (Ascii.eqb DQUOTE DQUOTE) with true. cbv iota.
  now rewrite value_scan_quoted_tail.
Qed.

Lemma hex_digit_plain (d : Z) :
  0 <= d < 16 ->
  Ascii.eqb (hex_digit d) DQUOTE = false /\ Ascii.eqb (hex_digit d) "," = false.
Proof. intros H. each_digit H; split; reflexivity. Qed.

Lemma value_scan_count (k : Z) : value_scan false (snprintf_08x k) = Some false.
Proof.
  unfold snprintf_08x. cbn [value_scan].
  repeat match goal with
         | |- context [hex_digit (nibble k ?i)] =>
             destruct (hex_digit_plain (nibble k i) (nibble_range k i)) as [-> ->]
         end.
  reflexivity.
Qed.

Lemma drop_trailing_free (set s : string) :
  all_chars (fun ch => negb (strchr_in set ch)) s = true -> drop_trailing set s = s.
Proof.
  induction s as [|x s IH]; intros H; [reflexivity|].
  cbn [all_chars] in H. apply andb_true_iff in H as [Hx Hs]. apply negb_true_iff in Hx.
  cbn [drop_trailing]. rewrite (IH Hs). destruct s; [now rewrite Hx | reflexivity].
Qed.

Lemma drop_trailing_snoc (set s : string) (d : ascii) :
  strchr_in set d = true ->
  drop_trailing set (s +:+ String d EmptyString) = drop_trailing set s.
Proof.
  intros Hd. induction s as [|x s IH].
  - rewrite append_nil_l. cbn. now rewrite Hd.
  - rewrite append_cons. cbn [drop_trailing]. now rewrite IH.
Qed.

(** Shaving the quotes off a quoted string that holds none gives the
    string. *)
Lemma ne_shave_quoted (set s : string) :
  strchr_in set DQUOTE = true ->
  all_chars (fun ch => negb (strchr_in set ch)) s = true ->
  ne_shave (quoted s) set = s.
Proof.
  intros Hd Hs. unfold ne_shave, quoted, dq.
  rewrite append_cons, append_nil_l. cbn [skip_leading]. rewrite Hd.
  destruct s as [|x s].
  - rewrite append_nil_l. cbn. now rewrite Hd.
  - pose proof Hs as Hs'. cbn [all_chars] in Hs'. apply andb_true_iff in Hs' as [Hx _].
    apply negb_true_iff in Hx.
    rewrite append_cons. cbn [skip_leading]. rewrite Hx.
    rewrite <- append_cons, drop_trailing_snoc by exact Hd.
    now apply drop_trailing_free.
Qed.

Lemma no_dquote_free (s : string) :
  no_dquote s = true -> all_chars (fun ch => negb (strchr_in dq ch)) s = true.
Proof.
  unfold no_dquote. induction s as [|x s IH]; intros H; [reflexivity|].
  cbn [all_chars] in *. apply andb_true_iff in H as [Hx Hs].
  rewrite (IH Hs), andb_true_r. cbn. now rewrite orb_false_r.
Qed.

Lemma ne_shave_count (k : Z) : ne_shave (snprintf_08x k) dq = snprintf_08x k.
Proof.
  unfold ne_shave, snprintf_08x.
  destruct (hex_digit_plain (nibble k 7) (nibble_range k 7)) as [H7 _].
  cbn [skip_leading strchr_in dq]. rewrite H7. cbn [orb].
  apply drop_trailing_free. cbn [all_chars]. unfold dq. cbn [strchr_in].
  repeat match goal with
         | |- context [Ascii.eqb (hex_digit (nibble k ?i)) DQUOTE] =>
             destruct (hex_digit_plain (nibble k i) (nibble_range k i)) as [-> _]
         end.
  reflexivity.
Qed.

Lemma ne_strcasecmp_refl (a : string) : ne_strcasecmp a a = 0.
Proof.
  induction a as [|c a IH]; [reflexivity|].
  cbn [ne_strcasecmp]. now rewrite Z.eqb_refl.
Qed.

Lemma auth_info_from_pair (st st' : auth_info) (t : token) :
  tokenize (ai_pnt st) false = Tok_pair t ->
  auth_info_step st t = Ret st' ->
  auth_info_from st = auth_info_from st'.
Proof.
  intros Ht Hs. unfold auth_info_from at 1. cbn [auth_info_loop].
  rewrite Ht, Hs, bind_Ret.
  apply tokenize_shorter in Ht. apply auth_info_step_pnt in Hs.
  apply auth_info_loop_stable; rewrite ?Hs; lia.
Qed.

Lemma auth_info_from_end (st : auth_info) :
  ai_pnt st = EmptyString -> auth_info_from st = Ret st.
Proof. intros H. unfold auth_info_from. cbn [auth_info_loop]. now rewrite H. Qed.

Lemma auth_info_step_qop_auth (st : auth_info) (rest : string) :
  auth_info_step st {| tk_key := Some "qop"%string; tk_value := Some (Some "auth"%string);
                       tk_sep := None; tk_hdr := rest |}
  = Ret {| ai_pnt := rest; ai_val := CStr "auth"; ai_qop := auth_qop_auth;
           ai_qop_value := Some "auth"%string; ai_nextnonce := ai_nextnonce st;
           ai_rspauth := ai_rspauth st; ai_cnonce := ai_cnonce st;
           ai_nc := ai_nc st; ai_nonce_count := ai_nonce_count st |}.
Proof. reflexivity. Qed.

Lemma auth_info_step_rspauth (st : auth_info) (v rest : string) :
  auth_info_step st {| tk_key := Some "rspauth"%string; tk_value := Some (Some v);
                       tk_sep := None; tk_hdr := rest |}
  = Ret {| ai_pnt := rest; ai_val := CStr (ne_shave v dq); ai_qop := ai_qop st;
           ai_qop_value := ai_qop_value st; ai_nextnonce := ai_nextnonce st;
           ai_rspauth := Some (ne_shave v dq); ai_cnonce := ai_cnonce st;
           ai_nc := ai_nc st; ai_nonce_count := ai_nonce_count st |}.
Proof. reflexivity. Qed.

Lemma auth_info_step_cnonce (st : auth_info) (v rest : string) :
  auth_info_step st {| tk_key := Some "cnonce"%string; tk_value := Some (Some v);
                       tk_sep := None; tk_hdr := rest |}
  = Ret {| ai_pnt := rest; ai_val := CStr (ne_shave v dq); ai_qop := ai_qop st;
           ai_qop_value := ai_qop_value st; ai_nextnonce := ai_nextnonce st;
           ai_rspauth := ai_rspauth st; ai_cnonce := Some (ne_shave v dq);
           ai_nc := ai_nc st; ai_nonce_count := ai_nonce_count st |}.
Proof. reflexivity. Qed.

Lemma auth_info_step_nc (st : auth_info) (k : Z) (rest : string) :
  0 <= k < UINT_MOD ->
  auth_info_step st {| tk_key := Some "nc"%string; tk_value := Some (Some (snprintf_08x k));
                       tk_sep := None; tk_hdr := rest |}
  = Ret {| ai_pnt := rest; ai_val := CStr (snprintf_08x k); ai_qop := ai_qop st;
           ai_qop_value := ai_qop_value st; ai_nextnonce := ai_nextnonce st;
           ai_rspauth := ai_rspauth st; ai_cnonce := ai_cnonce st;
           ai_nc := Some (snprintf_08x k); ai_nonce_count := Some k |}.
Proof.
  intros Hk. unfold auth_info_step. cbn [assign_value tk_value tk_key tk_hdr].
  rewrite ne_shave_count.
  change (ne_strcasecmp "nc" "qop" =? 0) with false.
  change (ne_strcasecmp "nc" "nextnonce" =? 0) with false.
  change (ne_strcasecmp "nc" "rspauth" =? 0) with false.
  change (ne_strcasecmp "nc" "cnonce" =? 0) with false.
  change (ne_strcasecmp "nc" "nc" =? 0) with true.
  cbv iota. rewrite (sscanf_snprintf k Hk). reflexivity.
Qed.

(** What the verifier has read at the end of a value of the form
    [auth_info_reply]. *)
Lemma parse_auth_info_reply (r c : string) (k : Z) :
  no_dquote r = true -> no_dquote c = true -> 0 <= k < UINT_MOD ->
  parse_auth_info (auth_info_reply r c k)
  = Ret {| ai_pnt := EmptyString; ai_val := CStr (snprintf_08x k);
           ai_qop := auth_qop_auth; ai_qop_value := Some "auth"%string;
           ai_nextnonce := None; ai_rspauth := Some r; ai_cnonce := Some c;
           ai_nc := Some (snprintf_08x k); ai_nonce_count := Some k |}.
Proof.
  intros Hr Hc Hk.
  change (parse_auth_info (auth_info_reply r c k))
    with (auth_info_from (auth_info_init (auth_info_reply r c k))).
  assert (Hshape : auth_info_reply r c k
          = "" +:+ "qop" +:+ "=" +:+ "auth" +:+ "," +:+
            (" " +:+ "rspauth" +:+ "=" +:+ quoted r +:+ "," +:+
             (" " +:+ "cnonce" +:+ "=" +:+ quoted c +:+ "," +:+
              (" " +:+ "nc" +:+ "=" +:+ snprintf_08x k)))) by reflexivity.
  erewrite auth_info_from_pair;
    [ | cbn [ai_pnt auth_info_init]; rewrite Hshape; apply tokenize_pair_comma; reflexivity
      | apply auth_info_step_qop_auth ].
  erewrite auth_info_from_pair;
    [ | cbn [ai_pnt]; apply tokenize_pair_comma;
        first [reflexivity | now apply value_scan_quoted]
      | apply auth_info_step_rspauth ].
  erewrite auth_info_from_pair;
    [ | cbn [ai_pnt]; apply tokenize_pair_comma;
        first [reflexivity | now apply value_scan_quoted]
      | apply auth_info_step_cnonce ].
  erewrite auth_info_from_pair;
    [ | cbn [ai_pnt]; apply tokenize_pair_end;
        first [reflexivity | rewrite value_scan_count; discriminate]
      | now apply auth_info_step_nc ].
  rewrite auth_info_from_end by reflexivity.
  cbn [ai_qop ai_qop_value ai_nextnonce ai_rspauth ai_cnonce ai_nc ai_nonce_count
       auth_info_init].
  rewrite !(ne_shave_quoted dq) by (try reflexivity; now apply no_dquote_free).
  reflexivity.
Qed.

(** X8. Mutual authentication after a qop=auth request.  The request
    leaves in the session what the verifier needs: when the server
    answers with qop=auth, the client nonce and the count of the request,
    the verifier returns, consumes the stored context, and accepts
    exactly when rspauth equals, without regard to case, the digest of
    H(A1), the nonce, the count, the client nonce, the qop and the digest
    of a colon and the URI. *)
Theorem digest_mutual_authentication {P : Platform} (sess : auth_session)
    (req : auth_request) (n c r : string) :
  qop sess = auth_qop_auth -> nonce sess = Some n -> cnonce sess = Some c ->
  no_dquote c = true -> no_dquote r = true ->
  exists hdr sess1 rc sess2,
    request_digest sess req = Ret (Some hdr, sess1)
    /\ verify_digest_response req sess1 (auth_info_reply r c (nonce_count sess1))
       = Ret (rc, sess2)
    /\ (rc = NE_OK \/ rc = NE_ERROR)
    /\ (rc = NE_OK <-> ne_strcasecmp (rspauth_expected sess1 n c (req_uri req)) r = 0)
    /\ stored_rdig sess2 = None.
Proof.
  intros Hq Hn Hc Hcq Hrq.
  destruct (request_digest_auth sess req n c Hq Hn Hc) as [before Hreq].
  rewrite Hreq. eexists _, _.
  set (sess1 := after_request sess n c).
  assert (Hk : 0 <= nonce_count sess1 < UINT_MOD) by apply uint_incr_range.
  pose proof (parse_auth_info_reply r c (nonce_count sess1) Hrq Hcq Hk) as Hp.
  rewrite (verify_unfold req sess1 _ _ Hp).
  match type of Hp with _ = Ret ?p0 => set (p := p0) in * end.
  assert (Hreach : reaches_comparison sess1 p = true).
  { unfold reaches_comparison, p. cbn [ai_qop ai_rspauth ai_cnonce ai_nc ai_nonce_count].
    replace (cnonce sess1) with (Some c) by (symmetry; exact Hc).
    now rewrite String.eqb_refl, Z.eqb_refl. }
  pose proof (verify_decide_compares req sess1 p r "auth" Hreach eq_refl eq_refl) as Hcmp.
  change (stored_rdig sess1) with (Some (rdig_snapshot sess n c)) in Hcmp.
  destruct Hcmp as (rc & sess2 & Hv & Hnone & Hrc & Hiff).
  rewrite Hv, bind_Ret. exists rc, (apply_nextnonce p sess2).
  split; [reflexivity|]. split; [reflexivity|]. split; [exact Hrc|]. split; [|exact Hnone].
  rewrite Hiff.
  replace (response_digest (rdig_snapshot sess n c) "auth" (req_uri req))
    with (rspauth_expected sess1 n c (req_uri req)); [reflexivity|].
  unfold rspauth_expected, response_digest, rdig_snapshot, ne_md5_process_bytes,
    ne_md5_create_ctx.
  rewrite !append_assoc, append_nil_l. reflexivity.
Qed.

Lemma digest_mutual_authentication_witness :
  exists hdr sess1 rc sess2,
    request_digest (P := demo_platform) (digest_session 0 None) get_root
    = Ret (Some hdr, sess1)
    /\ verify_digest_response (P := demo_platform) get_root sess1
         (auth_info_reply "md5(md5(jo:x:foo):abc:00000001:md5(rnd0):auth:md5(:/))"
            "md5(rnd0)" (nonce_count sess1))
       = Ret (rc, sess2)
    /\ (rc = NE_OK \/ rc = NE_ERROR)
    /\ (rc = NE_OK <->
        ne_strcasecmp
          (rspauth_expected (P := demo_platform) sess1 "abc" "md5(rnd0)" (req_uri get_root))
          "md5(md5(jo:x:foo):abc:00000001:md5(rnd0):auth:md5(:/))" = 0)
    /\ stored_rdig sess2 = None.
Proof.
  apply (digest_mutual_authentication (P := demo_platform) (digest_session 0 None)
           get_root "abc" "md5(rnd0)"
           "md5(md5(jo:x:foo):abc:00000001:md5(rnd0):auth:md5(:/))"); reflexivity.
Defined.

(** ** The verifier on the parameters of a header *)













(** ** The challenge list *)

(** X9. [insert_challenge] on a list in non-increasing order of
    strength: the challenges that are there keep their order, the new
    one stands behind every challenge at least as strong and in front of
    every weaker one, the value returned is its place, and the list is
    again in non-increasing order. *)
Theorem insert_challenge_places (l : list auth_chall) (proto : proto_ref) :
  sorted_by_strength l ->
  exists l1 l2,
    l = l1 ++ l2
    /\ insert_challenge l proto = (l1 ++ new_challenge proto :: l2, length l1)
    /\ Forall (fun c => proto_strength proto <= proto_strength (ch_protocol c)) l1
    /\ Forall (fun c => proto_strength (ch_protocol c) < proto_strength proto) l2
    /\ sorted_by_strength (l1 ++ new_challenge proto :: l2).
Proof.
  intros Hs. pose proof (insert_challenge_sorted l proto Hs) as Hs'.
  destruct (insert_challenge_protocols l proto) as (l1 & l2 & -> & Hi & Hall & Hl2).
  rewrite Hi in Hs'. exists l1, l2. repeat split; try assumption.
  unfold sorted_by_strength in Hs. rewrite fmap_app in Hs.
  apply StronglySorted_app_1_r in Hs.
  destruct l2 as [|c l2]; [constructor|].
  rewrite fmap_cons in Hs. apply StronglySorted_inv in Hs as [_ Hc].
  constructor; [exact Hl2|].
  rewrite Forall_fmap in Hc. eapply Forall_impl; [exact Hc|].
  cbn. intros; lia.
Qed.

Lemma insert_challenge_places_witness :
  exists l1 l2,
    [new_challenge Proto_Digest; new_challenge Proto_Basic] = l1 ++ l2
    /\ insert_challenge [new_challenge Proto_Digest; new_challenge Proto_Basic] Proto_Digest
       = (l1 ++ new_challenge Proto_Digest :: l2, length l1)
    /\ Forall (fun c => proto_strength Proto_Digest <= proto_strength (ch_protocol c)) l1
    /\ Forall (fun c => proto_strength (ch_protocol c) < proto_strength Proto_Digest) l2
    /\ sorted_by_strength (l1 ++ new_challenge Proto_Digest :: l2).
Proof.
  apply (insert_challenge_places
           [new_challenge Proto_Digest; new_challenge Proto_Basic] Proto_Digest).
  unfold sorted_by_strength. cbn. repeat constructor; cbn; lia.
Defined.

(** ** What registration has fixed stays fixed *)

Lemma clean_session_registration {P : Platform} (sess : auth_session) :
  registration (clean_session sess) = registration sess.
Proof. unfold clean_session. destruct HAVE_GSSAPI, HAVE_SSPI; reflexivity. Qed.

Lemma get_credentials_registration {P : Platform} (sess sess' : auth_session)
    (attempt rc : Z) (chall : auth_chall) (pw : string) :
  get_credentials sess attempt chall = Ret (rc, pw, sess') ->
  registration sess' = registration sess.
Proof.
  unfold get_credentials. intros H.
  repeat case_match; try discriminate H. now injection H as <- <- <-.
Qed.

Lemma basic_challenge_registration {P : Platform} (sess sess' : auth_session)
    (attempt rc : Z) (parms : auth_chall) :
  basic_challenge sess attempt parms = Ret (rc, sess') ->
  registration sess' = registration sess.
Proof.
  unfold basic_challenge. intros H.
  destruct (ch_realm parms) as [r|]; [|now injection H as <- <-].
  destruct (get_credentials _ _ _) as [[[rc0 pw] s0]|] eqn:Ec; [|discriminate H].
  apply get_credentials_registration in Ec.
  change (registration (set_realm (Some r) (clean_session sess)))
    with (registration (clean_session sess)) in Ec.
  rewrite clean_session_registration in Ec.
  rewrite bind_Ret in H. destruct (negb _); injection H as <- <-; exact Ec.
Qed.

Lemma digest_finish_registration {P : Platform} (parms : auth_chall) (r n pw : string)
    (rc rc' : Z) (s0 sess' : auth_session) :
  digest_finish parms r n (rc, pw, s0) = Ret (rc', sess') ->
  registration sess' = registration s0.
Proof.
  unfold digest_finish, get_cnonce. intros H.
  destruct (rc =? 0); cbn [negb] in H; [|now injection H as <- <-].
  destruct (ch_opaque parms), (ch_got_qop parms), (ch_stale parms), (ch_alg parms);
    cbn in H; now injection H as <- <-.
Qed.

Lemma digest_challenge_registration {P : Platform} (sess sess' : auth_session)
    (attempt rc : Z) (parms : auth_chall) :
  digest_challenge sess attempt parms = Ret (rc, sess') ->
  registration sess' = registration sess.
Proof.
  intros H. destruct (digest_passes parms) eqn:Ep.
  2:{ destruct (digest_challenge_early sess attempt parms Ep) as [msg Hm].
      rewrite Hm in H. now injection H as <- <-. }
  destruct (digest_challenge_unfold sess attempt parms Ep) as (r & n & _ & _ & Hu).
  rewrite Hu in H. clear Hu.
  destruct (ch_stale parms); cbn [negb] in H.
  - rewrite bind_Ret in H. now apply digest_finish_registration in H.
  - destruct (get_credentials _ _ _) as [[[rc0 pw] s0]|] eqn:Ec; [|discriminate H].
    apply get_credentials_registration in Ec.
    change (registration (set_realm (Some r) (clean_session sess)))
      with (registration (clean_session sess)) in Ec.
    rewrite clean_session_registration in Ec.
    rewrite bind_Ret in H. apply digest_finish_registration in H. congruence.
Qed.

Lemma continue_negotiate_registration {P : Platform} (sess : auth_session)
    (token : option string) :
  registration (snd (continue_negotiate sess token)) = registration sess.
Proof.
  unfold continue_negotiate.
  destruct (_ && _); [reflexivity|].
  destruct token; cbn; repeat case_match; reflexivity.
Qed.

Lemma negotiate_challenge_registration {P : Platform} (sess sess' : auth_session)
    (attempt rc : Z) (chall : auth_chall) :
  negotiate_challenge sess attempt chall = Ret (rc, sess') ->
  registration sess' = registration sess.
Proof.
  unfold negotiate_challenge. intros H.
  destruct (_ || _); [|now injection H as <- <-].
  pose proof (continue_negotiate_registration sess (ch_opaque chall)) as Hr.
  destruct (continue_negotiate sess (ch_opaque chall)) as [rc0 s0].
  now injection H as <- <-.
Qed.

Lemma sspi_challenge_registration {P : Platform} (sess sess' : auth_session)
    (attempt rc : Z) (parms : auth_chall) :
  sspi_challenge sess attempt parms = Ret (rc, sess') ->
  registration sess' = registration sess.
Proof.
  unfold sspi_challenge. intros H.
  destruct (sspi_context sess) eqn:Ec.
  - cbn in H. rewrite Ec in H. destruct (ne_sspi_authenticate _ _) as [status resp].
    destruct (negb _); now injection H as <- <-.
  - destruct (ne_sspi_create_context _) as [status ctx].
    destruct (negb (status =? 0)); [now injection H as <- <-|].
    destruct (ne_sspi_authenticate _ _) as [status' resp].
    destruct (negb _); now injection H as <- <-.
Qed.

Lemma acceptor_registration {P : Platform} (sess sess' : auth_session)
    (attempt rc : Z) (chall : auth_chall) :
  challenge (protocol_row (ch_protocol chall)) sess attempt chall = Ret (rc, sess') ->
  registration sess' = registration sess.
Proof.
  destruct (ch_protocol chall); cbn [protocol_row challenge].
  - apply basic_challenge_registration.
  - apply digest_challenge_registration.
  - apply negotiate_challenge_registration.
  - apply sspi_challenge_registration.
  - apply sspi_challenge_registration.
Qed.

Lemma try_challenges_registration {P : Platform} (attempt : Z) (l : list auth_chall) :
  forall sess sess',
    try_challenges sess attempt l = Ret sess' ->
    registration sess' = registration sess.
Proof.
  induction l as [|c l IH]; intros sess sess' H.
  - now injection H as <-.
  - cbn [try_challenges] in H.
    destruct (challenge _ sess attempt c) as [[rc s1]|] eqn:Ea; [|discriminate H].
    apply acceptor_registration in Ea. rewrite bind_Ret in H.
    destruct (rc =? 0).
    + injection H as <-. exact Ea.
    + apply IH in H. congruence.
Qed.

Lemma auth_challenge_registration {P : Platform} (sess sess' : auth_session)
    (attempt rc : Z) (value : string) :
  auth_challenge sess attempt value = Ret (rc, sess') ->
  registration sess' = registration sess.
Proof.
  unfold auth_challenge. intros H.
  destruct (parse_challenges _ _) as [l|]; [|discriminate H]. rewrite bind_Ret in H.
  destruct (try_challenges _ _ _) as [s1|] eqn:Et; [|discriminate H].
  apply try_challenges_registration in Et. rewrite bind_Ret in H.
  now injection H as <- <-.
Qed.

Lemma request_digest_registration {P : Platform} (sess sess' : auth_session)
    (req : auth_request) (ret : option string) :
  request_digest sess req = Ret (ret, sess') ->
  registration sess' = registration sess.
Proof.
  intros H. destruct (qop sess) eqn:Eq.
  - apply request_digest_none in H; [|exact Eq]. now subst.
  - assert (Hq : qop sess <> auth_qop_none) by congruence.
    destruct (request_digest_returns _ _ _ _ Hq H) as (n & c & _ & Hn & Hc).
    destruct (request_digest_auth sess req n c Eq Hn Hc) as [before Hb].
    rewrite Hb in H. now injection H as <- <-.
Qed.

Lemma response_registration {P : Platform} (p : proto_ref) (sess sess' : auth_session)
    (req : auth_request) (ret : option string) :
  response (protocol_row p) sess req = Ret (ret, sess') ->
  registration sess' = registration sess.
Proof.
  destruct p; cbn [protocol_row response].
  - unfold request_basic. intros H. now injection H as <- <-.
  - apply request_digest_registration.
  - unfold request_negotiate. intros H.
    destruct (gssapi_token sess); now injection H as <- <-.
  - unfold request_sspi. intros H.
    destruct (protocol sess); [|discriminate H]. now injection H as <- <-.
  - unfold request_sspi. intros H.
    destruct (protocol sess); [|discriminate H]. now injection H as <- <-.
Qed.

Lemma verify_digest_response_registration {P : Platform} (req : auth_request)
    (sess sess' : auth_session) (value : string) (rc : Z) :
  verify_digest_response req sess value = Ret (rc, sess') ->
  registration sess' = registration sess.
Proof.
  intros H.
  destruct (parse_auth_info value) as [p|] eqn:Ep;
    [|unfold verify_digest_response in H; rewrite Ep in H; discriminate H].
  rewrite (verify_unfold req sess value p Ep) in H.
  destruct (verify_decide req sess p) as [[rc0 s0]|] eqn:Ed; [|discriminate H].
  rewrite bind_Ret in H. injection H as <- <-.
  apply verify_decide_frame in Ed. rewrite Ed.
  unfold apply_nextnonce. destruct (ai_nextnonce p); reflexivity.
Qed.

Lemma post_send_challenge_registration {P : Platform} (areq : auth_request)
    (areq' : option auth_request) (hdr : string)
    (sess sess' : auth_session) (ret : Z) :
  auth_challenge sess (req_attempt areq) hdr
  ≫= (λ '(rc, sess1),
        if rc =? 0
        then Ret (NE_RETRY, sess1,
                  Some {| req_uri := req_uri areq; req_method := req_method areq;
                          req_attempt := req_attempt areq + 1 |})
        else Ret (fail_code (spec (clean_session sess1)), clean_session sess1,
                  Some {| req_uri := req_uri areq; req_method := req_method areq;
                          req_attempt := req_attempt areq + 1 |}))
  = Ret (ret, sess', areq') ->
  registration sess' = registration sess.
Proof.
  intros H.
  destruct (auth_challenge _ _ _) as [[rc s1]|] eqn:Ea; [|discriminate H].
  apply auth_challenge_registration in Ea. rewrite bind_Ret in H.
  destruct (rc =? 0); injection H as _ <- _; [exact Ea|].
  now rewrite clean_session_registration.
Qed.

Lemma post_send_registration {P : Platform} (areq areq' : option auth_request)
    (headers : string -> option string) (status : ne_status)
    (sess sess' : auth_session) (ret : Z) :
  protocol sess <> Some Proto_GSS_Negotiate ->
  ah_post_send areq headers status sess = Ret (ret, sess', areq') ->
  registration sess' = registration sess.
Proof.
  intros Hp H. unfold ah_post_send in H.
  destruct areq as [areq|]; [|now injection H as _ <- _].
  destruct (if _ && _ && _ then _ else _) as [auth_hdr auth_info_hdr].
  set (sess0 := if HAVE_GSSAPI then set_gssapi_token None sess else sess) in H.
  assert (Hr0 : registration sess0 = registration sess)
    by (unfold sess0; destruct HAVE_GSSAPI; reflexivity).
  assert (Hp0 : protocol sess0 = protocol sess)
    by (unfold sess0; destruct HAVE_GSSAPI; reflexivity).
  rewrite <- Hr0. rewrite <- Hp0 in Hp. clearbody sess0. clear Hr0 Hp0.
  destruct (protocol sess0) as [[| | | |]|]; try (now contradict Hp);
    cbn [protocol_row verify flags proto_flags] in H;
    change (Z.land 0 AUTH_FLAG_VERIFY_NON40x =? 0) with true in H;
    change (c_true 0) with false in H;
    change (c_true (Z.lor AUTH_FLAG_OPAQUE_PARAM AUTH_FLAG_VERIFY_NON40x)) with true in H;
    change (c_true AUTH_FLAG_VERIFY_NON40x) with true in H;
    cbn [andb] in H.
  all: destruct auth_info_hdr as [info|], auth_hdr as [hdr|];
    try destruct ((klass status =? 2) || (klass status =? 3));
    try destruct ((code status =? status_code (spec sess0))
                  || (code status =? 401) && is_AUTH_CONNECT (context sess0));
    try discriminate H;
    try (now injection H as _ <- _);
    try (now apply post_send_challenge_registration in H);
    try (destruct (verify_digest_response areq sess0 info) as [[rc s1]|] eqn:Ev;
         [|discriminate H];
         apply verify_digest_response_registration in Ev; rewrite bind_Ret in H;
         now injection H as _ <- _).
Qed.

(** X10. The hooks leave the context, the class and the handler chain of
    a session as registration has set them: [ah_pre_send] whatever the
    selected scheme, and [ah_post_send] for every selected scheme whose
    verifier is in this file. *)
Theorem hooks_keep_registration {P : Platform} (sess sess' : auth_session) :
  (forall (req : option auth_request) (buf buf' : string),
     ah_pre_send sess req buf = Ret (buf', sess') ->
     registration sess' = registration sess)
  /\ (forall (areq areq' : option auth_request) (headers : string -> option string)
        (status : ne_status) (ret : Z),
      protocol sess <> Some Proto_GSS_Negotiate ->
      ah_post_send areq headers status sess = Ret (ret, sess', areq') ->
      registration sess' = registration sess).
Proof.
  split.
  - intros req buf buf' H. unfold ah_pre_send in H.
    destruct (protocol sess) as [p|]; [|now injection H as _ <-].
    destruct req as [req|]; [|now injection H as _ <-].
    destruct (response _ _ _) as [[value s1]|] eqn:Er; [|discriminate H].
    apply response_registration in Er. rewrite bind_Ret in H.
    destruct value; now injection H as _ <-.
  - intros areq areq' headers status ret. apply post_send_registration.
Qed.

Lemma hooks_keep_registration_witness :
  registration sent_once = registration registered_jo.
Proof.
  transitivity
    (registration (session_after_response (P := demo_platform)
       (challenge_only "WWW-Authenticate" challenge_2617) unauthorized registered_jo)).
  - refine (proj1 (hooks_keep_registration (P := demo_platform) _ sent_once)
              (Some get_root) EmptyString _ _).
    vm_compute. reflexivity.
  - refine (proj2 (hooks_keep_registration (P := demo_platform) registered_jo _)
              (Some get_root) _ (challenge_only "WWW-Authenticate" challenge_2617)
              unauthorized _ _ _); [discriminate | vm_compute; reflexivity].
Defined.

(** ** A response that carries a challenge *)

Lemma post_send_takes_challenge {P : Platform} (areq : auth_request)
    (headers : string -> option string) (status : ne_status) (sess : auth_session)
    (hdr : string) :
  code status = status_code (spec sess) ->
  klass status = 4 ->
  headers (resp_hdr (spec sess)) = Some hdr ->
  headers (resp_info_hdr (spec sess)) = None ->
  ah_post_send (Some areq) headers status sess
  = auth_challenge (token_forgotten sess) (req_attempt areq) hdr
    ≫= fun '(rc, sess1) =>
         if rc =? 0 then Ret (NE_RETRY, sess1, Some (next_attempt areq))
         else Ret (fail_code (spec (clean_session sess1)), clean_session sess1,
                   Some (next_attempt areq)).
Proof.
  intros Hcode Hk Hh Hi. unfold ah_post_send.
  rewrite Hh, Hi. cbn [non_null negb]. rewrite andb_false_r.
  fold (token_forgotten sess).
  assert (Hs0 : spec (token_forgotten sess) = spec sess)
    by (unfold token_forgotten; destruct HAVE_GSSAPI; reflexivity).
  rewrite Hs0, Hk, Hcode, Z.eqb_refl. cbn [orb].
  change ((4 =? 2) || (4 =? 3)) with false.
  assert (Hsel : match protocol (token_forgotten sess) with
                 | Some p =>
                     if c_true (flags (protocol_row p)) && c_true AUTH_FLAG_VERIFY_NON40x
                        && false
                     then Some (p, hdr) else None
                 | None => None
                 end = None).
  { destruct (protocol _); [|reflexivity]. now rewrite andb_false_r. }
  rewrite Hsel. reflexivity.
Qed.

(** X11. A response of class 4 with the status code of the session's
    class, a challenge header and no Authentication-Info header: the
    challenge is handed to [auth_challenge] with the attempt number the
    request had, which is then counted up by one.  The answer is
    NE_RETRY with a scheme selected, or the failure code of the class
    with no scheme selected and the credentials forgotten.  For the
    server class and the proxy class, whose failure codes are NE_AUTH
    and NE_PROXYAUTH, it is never NE_OK. *)
Theorem post_send_challenged {P : Platform} (areq : auth_request)
    (headers : string -> option string) (status : ne_status) (sess : auth_session)
    (hdr : string) :
  code status = status_code (spec sess) ->
  klass status = 4 ->
  headers (resp_hdr (spec sess)) = Some hdr ->
  headers (resp_info_hdr (spec sess)) = None ->
  forall (ret : Z) (sess' : auth_session) (areq' : option auth_request),
    ah_post_send (Some areq) headers status sess = Ret (ret, sess', areq') ->
    areq' = Some (next_attempt areq)
    /\ ((ret = NE_RETRY
         /\ auth_challenge (token_forgotten sess) (req_attempt areq) hdr = Ret (0, sess')
         /\ protocol sess' <> None)
        \/ (ret = fail_code (spec sess)
            /\ protocol sess' = None /\ realm sess' = None /\ basic sess' = None
            /\ nonce sess' = None /\ cnonce sess' = None /\ opaque sess' = None
            /\ stored_rdig sess' = None))
    /\ (spec sess = ah_server_class \/ spec sess = ah_proxy_class -> ret <> NE_OK).
Proof.
  intros Hcode Hk Hh Hi ret sess' areq' H.
  rewrite (post_send_takes_challenge areq headers status sess hdr Hcode Hk Hh Hi) in H.
  assert (Hs0 : spec (token_forgotten sess) = spec sess)
    by (unfold token_forgotten; destruct HAVE_GSSAPI; reflexivity).
  destruct (auth_challenge _ _ _) as [[rc s1]|] eqn:Ea; [|discriminate H].
  rewrite bind_Ret in H.
  pose proof (auth_challenge_registration _ _ _ _ _ Ea) as Hreg.
  pose proof Ea as Ea'. unfold auth_challenge in Ea'.
  destruct (parse_challenges _ _) as [l|]; [|discriminate Ea']. rewrite bind_Ret in Ea'.
  destruct (try_challenges _ _ _) as [s2|]; [|discriminate Ea']. rewrite bind_Ret in Ea'.
  injection Ea' as <- <-.
  destruct (protocol s2) as [p|] eqn:Ep; cbn [non_null] in H, Ea.
  - change (0 =? 0) with true in H.
    injection H as <- <- <-. split; [reflexivity|]. split; [|intros _; discriminate].
    left. split; [reflexivity|]. rewrite Ep. split; [reflexivity | discriminate].
  - change (1 =? 0) with false in H.
    injection H as <- <- <-. split; [reflexivity|].
    destruct (clean_session_fields s2)
      as (Hr & Hn & Hc & Ho & Hb & Hs & _ & _ & _ & _ & _ & _ & _ & Hp & _).
    assert (Hspec : spec (clean_session s2) = spec sess).
    { pose proof (clean_session_registration s2) as Hc2.
      unfold registration in Hc2, Hreg. rewrite <- Hs0. congruence. }
    rewrite Hspec. split.
    + right. rewrite Hp, Ep. repeat split; assumption.
    + intros [Hcl|Hcl]; rewrite Hcl; discriminate.
Qed.

Lemma post_send_challenged_witness :
  exists (ret : Z) (sess' : auth_session) (areq' : option auth_request),
    ah_post_send (P := demo_platform) (Some get_root)
      (challenge_only "WWW-Authenticate" challenge_2069) unauthorized registered_jo
    = Ret (ret, sess', areq')
    /\ areq' = Some (next_attempt get_root)
    /\ ((ret = NE_RETRY
         /\ auth_challenge (P := demo_platform)
              (token_forgotten (P := demo_platform) registered_jo)
              (req_attempt get_root) challenge_2069 = Ret (0, sess')
         /\ protocol sess' <> None)
        \/ (ret = fail_code (spec registered_jo)
            /\ protocol sess' = None /\ realm sess' = None /\ basic sess' = None
            /\ nonce sess' = None /\ cnonce sess' = None /\ opaque sess' = None
            /\ stored_rdig sess' = None))
    /\ ret <> NE_OK.
Proof.
  pose proof (post_send_challenged (P := demo_platform) get_root
                (challenge_only "WWW-Authenticate" challenge_2069) unauthorized
                registered_jo challenge_2069 eq_refl eq_refl eq_refl eq_refl) as H.
  destruct (ah_post_send (P := demo_platform) (Some get_root)
              (challenge_only "WWW-Authenticate" challenge_2069) unauthorized
              registered_jo) as [[[ret s] a]|] eqn:E;
    [|vm_compute in E; discriminate E].
  exists ret, s, a. split; [reflexivity|].
  destruct (H ret s a eq_refl) as (H1 & H2 & H3).
  split; [exact H1|]. split; [exact H2|]. apply H3. left. reflexivity.
Defined.

(** ** The scheme selected is one a handler has asked for *)

Lemma match_protocol_admits (key : option string) (mask : Z) (rows : list proto_ref)
    (p : proto_ref) :
  match_protocol key mask rows = Ret (Some p) ->
  In p rows /\ Z.land (proto_id p) mask <> 0.
Proof.
  induction rows as [|q rows IH]; [discriminate|].
  cbn [match_protocol]. destruct (Z.eqb_spec (Z.land (proto_id q) mask) 0) as [Hz|Hnz];
    cbn [negb].
  - intros H. destruct (IH H) as [Hin Hl]. split; [now right | exact Hl].
  - destruct key as [k|]; [|discriminate].
    destruct (ne_strcasecmp k (proto_name q) =? 0).
    + intros H. injection H as <-. split; [now left | exact Hnz].
    + intros H. destruct (IH H) as [Hin Hl]. split; [now right | exact Hl].
Qed.

Lemma claim_challenge_admits {P : Platform} (key : option string)
    (hdls : list auth_handler) (p : proto_ref) (hdl : auth_handler) :
  claim_challenge key hdls = Ret (Some (p, hdl)) ->
  In p protocols /\ In hdl hdls /\ Z.land (proto_id p) (protomask hdl) <> 0.
Proof.
  induction hdls as [|h hdls IH]; [discriminate|].
  cbn [claim_challenge].
  destruct (match_protocol key (protomask h) protocols) as [[q|]|] eqn:Em;
    [| |discriminate]; rewrite bind_Ret.
  - intros H. injection H as <- <-. apply match_protocol_admits in Em as [Hin Hl].
    split; [exact Hin|]. split; [now left | exact Hl].
  - intros H. destruct (IH H) as (Hin & Hh & Hl).
    split; [exact Hin|]. split; [now right | exact Hl].
Qed.

Lemma alter_claimed {P : Platform} (hdls : list auth_handler)
    (f : auth_chall -> auth_chall) (i : nat) (l : list auth_chall) :
  (forall c, ch_protocol (f c) = ch_protocol c) ->
  (forall c, ch_handler (f c) = ch_handler c) ->
  Forall (claimed_by hdls) l -> Forall (claimed_by hdls) (alter f i l).
Proof.
  intros Hp Hh. apply alter_Forall. intros c. unfold claimed_by. now rewrite Hp, Hh.
Qed.

Lemma challenge_param_claimed {P : Platform} (hdls : list auth_handler) (key val : string)
    (i : nat) (l : list auth_chall) :
  Forall (claimed_by hdls) l ->
  Forall (claimed_by hdls) (fst (challenge_param key val i l)).
Proof.
  intros Hl. unfold challenge_param.
  repeat case_match; cbn [fst]; try exact Hl; apply alter_claimed; auto;
    intros c; destruct (qop_offers_auth val); reflexivity.
Qed.

Lemma challenge_step_claimed {P : Platform} (hdls : list auth_handler) (st : chall_locals)
    (t : token) (next : loop_next) :
  Forall (claimed_by hdls) (cl_challenges st) ->
  challenge_step hdls st t = Ret next ->
  match next with
  | Continue st' => Forall (claimed_by hdls) (cl_challenges st')
  | Break l => Forall (claimed_by hdls) l
  end.
Proof.
  intros Hl. unfold challenge_step. intros H.
  destruct (assign_value (cl_val st) t) as [| |v]; [discriminate H| |].
  - destruct (claim_challenge (tk_key t) hdls) as [[[proto hdl]|]|] eqn:Ec; cbn in H;
      [| injection H as <-; exact Hl | discriminate H].
    apply claim_challenge_admits in Ec as (Hin & Hh & Hm).
    assert (Hins : Forall (claimed_by hdls)
                     (alter (set_ch_handler (Some hdl)) (snd (insert_challenge (cl_challenges st) proto))
                        (fst (insert_challenge (cl_challenges st) proto)))).
    { destruct (insert_challenge_protocols (cl_challenges st) proto)
        as (l1 & l2 & Hl12 & -> & _).
      rewrite Hl12 in Hl. cbn [fst snd]. rewrite alter_middle.
      apply Forall_app in Hl as [Hl1 Hl2].
      apply Forall_app. split; [exact Hl1|]. constructor; [|exact Hl2].
      split; [exact Hin|]. exists hdl. repeat split; assumption. }
    destruct (insert_challenge (cl_challenges st) proto) as [l' i]. cbn [fst snd] in Hins.
    destruct (negb _); [| injection H as <-; exact Hins].
    destruct (assign_sep (cl_sep st) t) as [c|]; [|discriminate H].
    destruct (Ascii.eqb c " "); [| injection H as <-; exact Hins].
    destruct (ne_token (tk_hdr t) ",") as [tok [pnt'|]];
      injection H as <-; cbn; apply alter_claimed; auto.
  - destruct (cl_chall st) as [i|]; [| injection H as <-; exact Hl].
    destruct (tk_key t) as [key|]; [|discriminate H].
    pose proof (challenge_param_claimed hdls key
                  (ne_shave v (String DQUOTE (String SQUOTE ""))) i _ Hl) as Hp.
    destruct (challenge_param _ _ _ _) as [l' val']. injection H as <-. exact Hp.
Qed.

Lemma challenge_loop_claimed {P : Platform} (fuel : nat) (hdls : list auth_handler) :
  forall st l,
    Forall (claimed_by hdls) (cl_challenges st) ->
    challenge_loop fuel hdls st = Ret l -> Forall (claimed_by hdls) l.
Proof.
  induction fuel as [|fuel IH]; intros st l Hl H; [discriminate H|].
  cbn [challenge_loop] in H.
  destruct (tokenize (cl_pnt st) true) as [| |t]; try (injection H as <-; exact Hl).
  destruct (challenge_step hdls st t) as [next|] eqn:Es; [|discriminate H].
  rewrite bind_Ret in H. apply (challenge_step_claimed _ _ _ _ Hl) in Es.
  destruct next as [st'|l'].
  - eapply IH; [exact Es | exact H].
  - injection H as <-. exact Es.
Qed.

Lemma try_challenges_selected {P : Platform} (attempt : Z) (l : list auth_chall) :
  forall sess sess' p,
    Forall (fun c => non_null (ch_handler c) = true) l ->
    protocol sess = None ->
    try_challenges sess attempt l = Ret sess' ->
    protocol sess' = Some p ->
    exists c, In c l /\ ch_protocol c = p.
Proof.
  induction l as [|c l IH]; intros sess sess' p Hl Hp H Hsel.
  - injection H as <-. congruence.
  - apply Forall_cons in Hl as [Hc Hl].
    destruct (acceptor_returns sess attempt c Hc) as (rc & sess1 & Ha & Hp1).
    cbn [try_challenges] in H. rewrite Ha, bind_Ret in H.
    destruct (rc =? 0).
    + injection H as <-. cbn in Hsel. injection Hsel as <-.
      exists c. split; [now left | reflexivity].
    + rewrite Hp in Hp1. destruct (IH _ _ _ Hl Hp1 H Hsel) as (c' & Hin & Hc').
      exists c'. split; [now right | exact Hc'].
Qed.

Lemma auth_challenge_claimed {P : Platform} (sess sess' : auth_session)
    (attempt rc : Z) (value : string) (p : proto_ref) :
  auth_challenge sess attempt value = Ret (rc, sess') ->
  protocol sess' = Some p ->
  exists c, claimed_by (handlers sess) c /\ ch_protocol c = p.
Proof.
  unfold auth_challenge. intros H Hp.
  destruct (parse_challenges _ _) as [l|] eqn:El; [|discriminate H]. rewrite bind_Ret in H.
  destruct (try_challenges _ _ _) as [s1|] eqn:Et; [|discriminate H]. rewrite bind_Ret in H.
  injection H as _ <-.
  destruct (parse_challenges_ok _ _ _ El) as [_ Hh].
  assert (Hc : Forall (claimed_by (handlers sess)) l).
  { unfold parse_challenges in El. eapply challenge_loop_claimed; [|exact El]. constructor. }
  destruct (try_challenges_selected attempt l (set_protocol None sess) s1 p Hh eq_refl Et Hp)
    as (c & Hin & Hcp).
  exists c. split; [|exact Hcp].
  exact (proj1 (List.Forall_forall _ _) Hc c Hin).
Qed.

(** X12. The scheme [auth_challenge] selects is a row of the table, as
    the build has it, whose bit is in the mask of a registered handler;
    the result is zero when a scheme is selected and one when none
    is. *)
Theorem auth_challenge_admitted {P : Platform} (sess sess' : auth_session)
    (attempt rc : Z) (value : string) :
  auth_challenge sess attempt value = Ret (rc, sess') ->
  match protocol sess' with
  | Some p =>
      rc = 0 /\ In p protocols
      /\ exists hdl, In hdl (handlers sess)
                     /\ Z.land (proto_id p) (protomask hdl) <> 0
  | None => rc = 1
  end.
Proof.
  intros H.
  assert (Hrc : rc = if non_null (protocol sess') then 0 else 1).
  { unfold auth_challenge in H.
    destruct (parse_challenges _ _); [|discriminate H]. rewrite bind_Ret in H.
    destruct (try_challenges _ _ _); [|discriminate H]. rewrite bind_Ret in H.
    now injection H as <- <-. }
  destruct (protocol sess') as [p|] eqn:Ep; [|exact Hrc].
  split; [exact Hrc|].
  destruct (auth_challenge_claimed _ _ _ _ _ p H Ep) as (c & (Hrow & hdl & _ & Hin & Hm) & <-).
  split; [exact Hrow|]. now exists hdl.
Qed.

Lemma auth_challenge_admitted_witness :
  exists (rc : Z) (sess' : auth_session),
    auth_challenge (P := demo_platform) registered_jo 0 challenge_priority = Ret (rc, sess')
    /\ match protocol sess' with
       | Some p =>
           rc = 0 /\ In p (protocols (P := demo_platform))
           /\ exists hdl, In hdl (handlers registered_jo)
                          /\ Z.land (proto_id p) (protomask hdl) <> 0
       | None => rc = 1
       end.
Proof.
  eexists _, _. split; [vm_compute; reflexivity|].
  apply (auth_challenge_admitted (P := demo_platform) registered_jo _ 0 _ challenge_priority).
  vm_compute. reflexivity.
Defined.

(** ** Basic *)

(** X13. [basic_challenge] refuses a challenge without a realm and
    leaves the session untouched.  With a realm the old session is
    forgotten and the callback is asked once, with that realm and the
    attempt number; the challenge is accepted exactly when the callback
    returns zero, and the header [request_basic] then builds is the word
    Basic, the base64 text of the username, a colon and the password, and
    a line end.  When the callback refuses, the old credentials are gone
    all the same. *)
Theorem basic_challenge_decides {P : Platform} (sess : auth_session) (attempt : Z)
    (parms : auth_chall) :
  (ch_realm parms = None -> basic_challenge sess attempt parms = Ret (-1, sess))
  /\ (forall (r : string) (hdl : auth_handler),
      ch_realm parms = Some r -> ch_handler parms = Some hdl ->
      let reply := creds hdl (prompts sess) r attempt (username sess) in
      exists sess',
        basic_challenge sess attempt parms
        = Ret (if cr_status reply =? 0 then 0 else -1, sess')
        /\ realm sess' = Some r
        /\ username sess' = cr_username reply
        /\ prompts sess' = prompts sess ++ [(r, attempt)]
        /\ nonce sess' = None /\ cnonce sess' = None /\ opaque sess' = None
        /\ stored_rdig sess' = None
        /\ basic sess'
           = (if cr_status reply =? 0
              then Some (ne_base64 (cr_username reply +:+ ":" +:+ cr_password reply))
              else None)
        /\ (cr_status reply = 0 ->
            forall req,
              request_basic sess' req
              = Ret (Some ("Basic "
                           +:+ ne_base64 (cr_username reply +:+ ":" +:+ cr_password reply)
                           +:+ CRLF), sess'))).
Proof.
  split.
  - intros Hr. unfold basic_challenge. now rewrite Hr.
  - intros r hdl Hr Hh reply. unfold basic_challenge, get_credentials.
    rewrite Hr, Hh. cbn [realm set_realm prompts username].
    destruct (clean_session_fields sess)
      as (_ & Hn & Hc & Ho & Hb & Hs & _ & _ & _ & _ & Hu & Hp & _).
    rewrite Hp, Hu. fold reply. rewrite bind_Ret.
    destruct (cr_status reply =? 0) eqn:E; cbn [negb].
    + eexists. split; [reflexivity|].
      cbn. rewrite Hn, Hc, Ho, Hs. repeat split.
      * now rewrite append_nil_r.
      * intros _ req. unfold request_basic. cbn. rewrite append_nil_r. reflexivity.
    + eexists. split; [reflexivity|].
      cbn. rewrite Hn, Hc, Ho, Hs, Hb. repeat split.
      intros Hz. apply Z.eqb_neq in E. contradiction.
Qed.

Lemma basic_challenge_decides_witness :
  exists sess',
    basic_challenge (P := demo_platform) registered_jo 0
      {| ch_protocol := Proto_Basic; ch_handler := Some handler_jo;
         ch_realm := Some "x"%string; ch_nonce := None; ch_opaque := None;
         ch_stale := false; ch_got_qop := false; ch_qop_auth := false;
         ch_alg := auth_alg_md5 |}
    = Ret (0, sess')
    /\ realm sess' = Some "x"%string
    /\ username sess' = "jo"%string
    /\ prompts sess' = [("x"%string, 0)]
    /\ nonce sess' = None /\ cnonce sess' = None /\ opaque sess' = None
    /\ stored_rdig sess' = None
    /\ basic sess' = Some "b64(jo:foo)"%string
    /\ (0 = 0 ->
        forall req,
          request_basic sess' req
          = Ret (Some ("Basic " +:+ "b64(jo:foo)" +:+ CRLF), sess')).
Proof.
  exact (proj2 (basic_challenge_decides (P := demo_platform) registered_jo 0
                  {| ch_protocol := Proto_Basic; ch_handler := Some handler_jo;
                     ch_realm := Some "x"%string; ch_nonce := None; ch_opaque := None;
                     ch_stale := false; ch_got_qop := false; ch_qop_auth := false;
                     ch_alg := auth_alg_md5 |})
           "x"%string handler_jo eq_refl eq_refl).
Defined.

(** ** Negotiate through GSSAPI *)

(** X14. [negotiate_challenge] returns 0 or -1.  A challenge that is
    neither the first nor carries a token, and one whose token decodes to
    nothing, is refused without a call of the provider and leaves the
    session as it was.  Otherwise the provider is asked once; the
    challenge is accepted exactly when it answers COMPLETE or
    CONTINUE_NEEDED, the context is kept when it answers CONTINUE_NEEDED
    or with an error and deleted otherwise, and an output token, unless
    the answer is an error, becomes the token of the session in base64.
    [request_negotiate] sends that token and sends nothing when there is
    none. *)
Theorem negotiate_challenge_decides {P : Platform} (sess : auth_session) (attempt : Z)
    (chall : auth_chall) :
  exists rc sess',
    negotiate_challenge sess attempt chall = Ret (rc, sess')
    /\ (rc = 0 \/ rc = -1)
    /\ (negotiate_asks attempt (ch_opaque chall) = false -> rc = -1 /\ sess' = sess)
    /\ (negotiate_asks attempt (ch_opaque chall) = true ->
        let reply := negotiate_reply sess (ch_opaque chall) in
        (rc = 0 <-> gss_major reply = GSS_S_COMPLETE
                    \/ gss_major reply = GSS_S_CONTINUE_NEEDED)
        /\ gssctx sess' = (match gss_major reply with
                           | GSS_S_CONTINUE_NEEDED | GSS_S_FAILURE => gss_context reply
                           | _ => None
                           end)
        /\ gssapi_token sess'
           = (match gss_major reply with
              | GSS_S_FAILURE => gssapi_token sess
              | _ => if (0 <? String.length (gss_output reply))%nat
                     then Some (ne_base64 (gss_output reply))
                     else gssapi_token sess
              end))
    /\ forall req,
         request_negotiate sess' req
         = Ret (match gssapi_token sess' with
                | Some tok => Some ("Negotiate " +:+ tok +:+ CRLF)
                | None => None
                end, sess').
Proof.
  assert (Hreq : forall s req,
            request_negotiate s req
            = Ret (match gssapi_token s with
                   | Some tok => Some ("Negotiate " +:+ tok +:+ CRLF)
                   | None => None
                   end, s)).
  { intros s req. unfold request_negotiate. destruct (gssapi_token s); [|reflexivity].
    cbn [ne_concat]. now rewrite append_nil_r. }
  unfold negotiate_challenge, negotiate_asks, negotiate_reply, continue_negotiate.
  destruct (ch_opaque chall) as [t|]; cbn [non_null].
  - rewrite orb_true_r. cbn [andb].
    destruct (String.length (ne_unbase64 t) =? 0)%nat; cbn [negb].
    + eexists _, _. split; [reflexivity|]. split; [now right|].
      split; [now split|]. split; [discriminate | apply Hreq].
    + destruct (gss_init_sec_context (gssctx sess) (ne_unbase64 t))
        as [major ctx out msgs].
      destruct major; cbn [gss_major gss_context gss_output];
        destruct (0 <? String.length out)%nat;
        (eexists _, _; split; [reflexivity|];
         split; [auto|]; split; [discriminate|]; split; [|apply Hreq];
         cbn; repeat split; auto; try discriminate;
         intros [Hm|Hm]; discriminate Hm).
  - rewrite orb_false_r, andb_true_r.
    destruct (attempt =? 0).
    + destruct (gss_init_sec_context None EmptyString) as [major ctx out msgs] eqn:Eg.
      cbn [gssctx set_gssctx]. rewrite Eg.
      destruct major; cbn [gss_major gss_context gss_output];
        destruct (0 <? String.length out)%nat;
        (eexists _, _; split; [reflexivity|];
         split; [auto|]; split; [discriminate|]; split; [|apply Hreq];
         cbn; repeat split; auto; try discriminate;
         intros [Hm|Hm]; discriminate Hm).
    + eexists _, _. split; [reflexivity|]. split; [now right|].
      split; [now split|]. split; [discriminate | apply Hreq].
Qed.

Lemma negotiate_challenge_decides_witness :
  exists rc sess',
    negotiate_challenge (P := gss_platform) gss_registered 0
      (new_challenge Proto_GSS_Negotiate) = Ret (rc, sess')
    /\ rc = 0
    /\ gssctx sess' = Some 7%nat
    /\ request_negotiate sess' get_root
       = Ret (Some ("Negotiate " +:+ "b64(tok)" +:+ CRLF), sess').
Proof.
  destruct (negotiate_challenge_decides (P := gss_platform) gss_registered 0
              (new_challenge Proto_GSS_Negotiate))
    as (rc & sess' & Hc & _ & _ & Hasks & Hreq).
  exists rc, sess'. split; [exact Hc|].
  destruct (Hasks eq_refl) as (Hrc & Hctx & Htok).
  split; [apply Hrc; now right|]. split; [exact Hctx|].
  rewrite (Hreq get_root), Htok. reflexivity.
Defined.

(** X15. In a build with GSSAPI the token of the session is sent once.
    A response that carries no challenge header makes [ah_post_send]
    forget the token and return NE_OK, and [ah_pre_send] then adds
    nothing to the next request although Negotiate is still the selected
    scheme. *)
Theorem gssapi_token_sent_once {P : Platform} (areq req : auth_request)
    (headers : string -> option string) (status : ne_status) (sess : auth_session)
    (buf : string) :
  HAVE_GSSAPI = true ->
  protocol sess = Some Proto_GSS_Negotiate ->
  headers (resp_hdr (spec sess)) = None ->
  headers "WWW-Authenticate"%string = None ->
  ah_post_send (Some areq) headers status sess
  = Ret (NE_OK, set_gssapi_token None sess, Some areq)
  /\ ah_pre_send (set_gssapi_token None sess) (Some req) buf
     = Ret (buf, set_gssapi_token None sess).
Proof.
  intros Hg Hp Hh Hw. split.
  - unfold ah_post_send. rewrite Hg, Hh, Hw.
    assert (Hpair : (if is_AUTH_CONNECT (context sess) && (code status =? 401)
                        && negb (non_null (@None string))
                     then (@None string, @None string)
                     else (None, headers (resp_info_hdr (spec sess))))
                    = (None, if is_AUTH_CONNECT (context sess) && (code status =? 401)
                             then None else headers (resp_info_hdr (spec sess)))).
    { cbn [non_null negb]. rewrite andb_true_r. now destruct (_ && _). }
    rewrite Hpair. cbn [protocol set_gssapi_token]. rewrite Hp.
    cbn [protocol_row verify flags proto_flags].
    change (Z.land (Z.lor AUTH_FLAG_OPAQUE_PARAM AUTH_FLAG_VERIFY_NON40x)
              AUTH_FLAG_VERIFY_NON40x =? 0) with false.
    now destruct (if _ && _ then None else _).
  - unfold ah_pre_send. cbn [protocol set_gssapi_token]. rewrite Hp.
    cbn [protocol_row response]. unfold request_negotiate.
    cbn [gssapi_token set_gssapi_token]. reflexivity.
Qed.

Lemma gssapi_token_sent_once_witness :
  ah_post_send (P := gss_platform) (Some get_root) (fun _ => None) success
    (set_gssapi_token (Some "b64(tok)"%string)
       (set_protocol (Some Proto_GSS_Negotiate) gss_registered))
  = Ret (NE_OK,
         set_gssapi_token None
           (set_gssapi_token (Some "b64(tok)"%string)
              (set_protocol (Some Proto_GSS_Negotiate) gss_registered)),
         Some get_root)
  /\ ah_pre_send (P := gss_platform)
       (set_gssapi_token None
          (set_gssapi_token (Some "b64(tok)"%string)
             (set_protocol (Some Proto_GSS_Negotiate) gss_registered)))
       (Some get_root) EmptyString
     = Ret (EmptyString,
            set_gssapi_token None
              (set_gssapi_token (Some "b64(tok)"%string)
                 (set_protocol (Some Proto_GSS_Negotiate) gss_registered))).
Proof.
  apply (gssapi_token_sent_once (P := gss_platform) get_root get_root (fun _ => None)
           success
           (set_gssapi_token (Some "b64(tok)"%string)
              (set_protocol (Some Proto_GSS_Negotiate) gss_registered))
           EmptyString); reflexivity.
Defined.

(** ** Digest: the secret of the session *)

Lemma digest_finish_secret {P : Platform} (parms : auth_chall) (r n pw : string)
    (s0 sess' : auth_session) :
  ch_stale parms = false ->
  digest_finish parms r n (0, pw, s0) = Ret (0, sess') ->
  username sess' = username s0
  /\ opaque sess' = (match ch_opaque parms with Some o => Some o | None => opaque s0 end)
  /\ h_a1 sess'
     = h_a1_expected (ch_alg parms) (username s0) r pw n
         (md5_hex (random_data (rand_calls s0))).
Proof.
  unfold digest_finish, get_cnonce, h_a1_expected. intros Hs H.
  rewrite Hs in H. cbn [Z.eqb negb] in H.
  unfold ne_md5_finish_ascii, ne_md5_process_bytes, ne_md5_create_ctx in H.
  destruct (ch_opaque parms), (ch_got_qop parms), (ch_alg parms);
    cbn in H; injection H as <-; cbn;
    rewrite ?append_assoc, ?append_nil_l; repeat split.
Qed.

(** X16. An accepted Digest challenge that is not stale leaves in the
    session the username the callback has given and H(A1) as RFC 2617
    defines it: the digest of username, realm and password with colons
    between and, for MD5-sess, the digest of that digest, the nonce and
    the client nonce; the opaque value of the challenge is taken over. *)
Theorem digest_challenge_secret {P : Platform} (sess sess' : auth_session)
    (attempt : Z) (parms : auth_chall) :
  ch_stale parms = false ->
  digest_challenge sess attempt parms = Ret (0, sess') ->
  exists hdl r n cn,
    ch_handler parms = Some hdl /\ ch_realm parms = Some r /\ ch_nonce parms = Some n
    /\ cnonce sess' = Some cn
    /\ let reply := creds hdl (prompts sess) r attempt (username sess) in
       cr_status reply = 0
       /\ username sess' = cr_username reply
       /\ h_a1 sess'
          = h_a1_expected (ch_alg parms) (cr_username reply) r (cr_password reply) n cn
       /\ opaque sess' = ch_opaque parms.
Proof.
  intros Hs H.
  destruct (digest_passes parms) eqn:Ep.
  2:{ destruct (digest_challenge_early sess attempt parms Ep) as [msg Hm].
      rewrite Hm in H. discriminate H. }
  destruct (digest_challenge_unfold sess attempt parms Ep) as (r & n & Hr & Hn & Hu).
  rewrite Hu in H. clear Hu. rewrite Hs in H. cbn [negb] in H.
  unfold get_credentials in H.
  destruct (ch_handler parms) as [hdl|] eqn:Eh; [|discriminate H].
  cbn [realm set_realm prompts username] in H.
  destruct (clean_session_fields sess)
    as (_ & _ & _ & Ho & _ & _ & _ & _ & _ & _ & Hu & Hp & Hrc & _).
  rewrite Hp, Hu, bind_Ret in H.
  set (reply := creds hdl (prompts sess) r attempt (username sess)) in *.
  pose proof (digest_finish_rejects _ _ _ _ _ _ _ _ H) as (_ & Hiff & _).
  assert (Hz : cr_status reply = 0).
  { destruct (Z.eq_dec (cr_status reply) 0) as [Hz|Hnz]; [exact Hz|].
    exfalso. apply Hiff in Hnz. now apply Hnz. }
  rewrite Hz in H.
  pose proof (digest_finish_accepts _ _ _ _ _ _ _ H) as (_ & _ & Hcn & _).
  apply (digest_finish_secret _ _ _ _ _ _ Hs) in H as (Hun & Hop & Hh).
  cbn [username set_prompts set_username opaque set_realm rand_calls] in Hun, Hop, Hh, Hcn.
  rewrite Ho in Hop. rewrite Hrc in Hh, Hcn.
  exists hdl, r, n, (md5_hex (random_data (rand_calls sess))).
  repeat split; try assumption.
  now destruct (ch_opaque parms).
Qed.

Lemma digest_challenge_secret_witness :
  exists hdl r n cn,
    ch_handler (digest_parms false true "abc") = Some hdl
    /\ ch_realm (digest_parms false true "abc") = Some r
    /\ ch_nonce (digest_parms false true "abc") = Some n
    /\ cnonce (set_protocol None (digest_session 0 None)) = Some cn
    /\ let reply := creds hdl (prompts registered_jo) r 0 (username registered_jo) in
       cr_status reply = 0
       /\ username (set_protocol None (digest_session 0 None)) = cr_username reply
       /\ h_a1 (set_protocol None (digest_session 0 None))
          = h_a1_expected (P := demo_platform) (ch_alg (digest_parms false true "abc"))
              (cr_username reply) r (cr_password reply) n cn
       /\ opaque (set_protocol None (digest_session 0 None))
          = ch_opaque (digest_parms false true "abc").
Proof.
  apply (digest_challenge_secret (P := demo_platform) registered_jo
           (set_protocol None (digest_session 0 None)) 0 (digest_parms false true "abc"));
    [reflexivity | vm_compute; reflexivity].
Defined.

(** ** Which requests a session takes part in *)

(** X17. The context of a session is fixed by the scheme of the URL at
    its first registration.  Over https a server session gets no record
    for a CONNECT request and a proxy session gets one for CONNECT only;
    otherwise every request gets one.  A request without a record is
    left alone: [ah_pre_send] adds nothing and [ah_post_send] returns
    NE_OK with the session as it was, whatever the response. *)
Theorem request_context_gating {P : Platform} (scheme method uri : string)
    (isproxy : bool) (mask : Z) (ahc : auth_class) (callback : ne_auth_creds) :
  (ah_create (auth_register None scheme isproxy mask ahc callback) method uri = None
   <-> scheme = "https"%string
       /\ (if isproxy then method <> "CONNECT"%string else method = "CONNECT"%string))
  /\ forall (sess : auth_session) (buf : string) (headers : string -> option string)
       (status : ne_status),
       ah_pre_send sess None buf = Ret (buf, sess)
       /\ ah_post_send None headers status sess = Ret (NE_OK, sess, None).
Proof.
  split.
  - unfold ah_create, auth_register, new_session. cbn [context set_handlers].
    destruct (String.eqb_spec scheme "https") as [->|Hs].
    + destruct isproxy; destruct (String.eqb_spec method "CONNECT") as [->|Hm];
        cbn [negb]; split; try discriminate; try (intros [_ H]; congruence); auto.
    + split; [discriminate | intros [H _]; contradiction].
  - intros sess buf headers status. split; [|reflexivity].
    unfold ah_pre_send. now destruct (protocol sess).
Qed.

(** X18. [ne_forget_auth] clears the credentials of a session and
    leaves its scheme selected.  When that scheme is Digest, the next
    request makes [ah_pre_send] call [request_digest] on a session
    without a nonce, which passes the NULL pointer to [strlen]. *)
Theorem forget_auth_keeps_scheme {P : Platform} (sess : auth_session)
    (proxy : option auth_session) (req : auth_request) (buf : string) :
  protocol sess = Some Proto_Digest ->
  exists sess',
    ne_forget_auth (Some sess) proxy = (Some sess', clean_session <$> proxy)
    /\ protocol sess' = Some Proto_Digest
    /\ nonce sess' = None
    /\ ah_pre_send sess' (Some req) buf = Fault NullString.
Proof.
  intros Hp. exists (clean_session sess).
  destruct (clean_session_fields sess)
    as (_ & Hn & _ & _ & _ & _ & _ & _ & _ & _ & _ & _ & _ & Hpr & _).
  split; [reflexivity|]. split; [congruence|]. split; [exact Hn|].
  unfold ah_pre_send. rewrite Hpr, Hp. cbn [protocol_row response].
  unfold request_digest.
  destruct (qop (clean_session sess)); cbn [nonce set_nonce_count]; now rewrite Hn.
Qed.

Lemma forget_auth_keeps_scheme_witness :
  exists sess',
    ne_forget_auth (P := demo_platform) (Some (digest_session 1 None)) None
    = (Some sess', clean_session (P := demo_platform) <$> None)
    /\ protocol sess' = Some Proto_Digest
    /\ nonce sess' = None
    /\ ah_pre_send (P := demo_platform) sess' (Some get_root) EmptyString
       = Fault NullString.
Proof.
  apply (forget_auth_keeps_scheme (P := demo_platform) (digest_session 1 None) None
           get_root EmptyString).
  reflexivity.
Defined.

(** ** Registration *)

Lemma register_all_snoc (scheme : string) (isproxy : bool) (ahc : auth_class)
    (regs : list (Z * ne_auth_creds)) (reg : Z * ne_auth_creds)
    (private : option auth_session) :
  register_all scheme isproxy ahc (regs ++ [reg]) private
  = Some (auth_register (register_all scheme isproxy ahc regs private)
            scheme isproxy (fst reg) ahc (snd reg)).
Proof. unfold register_all. now rewrite fold_left_app. Qed.

Lemma register_all_fresh (scheme : string) (isproxy : bool) (ahc : auth_class)
    (regs : list (Z * ne_auth_creds)) :
  match register_all scheme isproxy ahc regs None with
  | None => regs = []
  | Some s =>
      (exists h, handlers s = [h])
      /\ context s = context (new_session scheme isproxy ahc)
      /\ spec s = ahc
  end.
Proof.
  induction regs as [|reg regs IH] using rev_ind; [reflexivity|].
  rewrite register_all_snoc.
  destruct (register_all scheme isproxy ahc regs None) as [s|].
  - destruct IH as ([h Hh] & Hc & Hs). unfold auth_register.
    cbn [handlers context spec set_handlers]. rewrite Hh. cbn. eauto.
  - unfold auth_register. cbn. eauto.
Qed.

(** X19. After any run of registrations on a session that did not exist
    before, the handler chain holds one handler, the one registered
    last; the context and the class are those of the first
    registration. *)
Theorem registrations_keep_last (scheme : string) (isproxy : bool) (ahc : auth_class)
    (regs : list (Z * ne_auth_creds)) (mask : Z) (callback : ne_auth_creds) :
  exists s,
    register_all scheme isproxy ahc (regs ++ [(mask, callback)]) None = Some s
    /\ handlers s = [{| protomask := mask; creds := callback |}]
    /\ context s = (if String.eqb scheme "https"
                    then (if isproxy then AUTH_CONNECT else AUTH_NOTCONNECT)
                    else AUTH_ANY)
    /\ spec s = ahc.
Proof.
  rewrite register_all_snoc. eexists. split; [reflexivity|].
  pose proof (register_all_fresh scheme isproxy ahc regs) as Hf.
  destruct (register_all scheme isproxy ahc regs None) as [s|].
  - destruct Hf as ([h Hh] & Hc & Hs). unfold auth_register.
    cbn [handlers context spec set_handlers fst snd]. rewrite Hh.
    split; [reflexivity|]. split; [exact Hc | exact Hs].
  - unfold auth_register. cbn. auto.
Qed.

(** ** Digest: the credentials sent *)

Lemma request_digest_text {P : Platform} (sess : auth_session) (req : auth_request)
    (r n c : string) :
  realm sess = Some r -> nonce sess = Some n ->
  (qop sess = auth_qop_auth -> cnonce sess = Some c) ->
  request_digest sess req
  = Ret (Some (digest_credentials (username sess) r n (req_uri req) (req_method req)
                 (h_a1 sess) (alg sess) (opaque sess)
                 (match qop sess with
                  | auth_qop_none => None
                  | auth_qop_auth => Some (c, uint_incr (nonce_count sess))
                  end)),
         match qop sess with
         | auth_qop_none => sess
         | auth_qop_auth => after_request sess n c
         end).
Proof.
  intros Hr Hn Hc. unfold request_digest, digest_credentials.
  destruct sess as [ctx sp pr hd un ba gt gc st sc re no cn op [|] al nc ha sr er pm rc];
    cbn in Hr, Hn, Hc; subst.
  - cbn. unfold ne_buffer_concat, ne_md5_finish_ascii, ne_md5_process_bytes,
      ne_md5_create_ctx, quoted.
    destruct op; cbn [ne_concat]; rewrite ?append_assoc, ?append_nil_l, ?append_nil_r;
      reflexivity.
  - rewrite (Hc eq_refl). cbn.
    unfold ne_buffer_concat, ne_md5_finish_ascii, ne_md5_process_bytes,
      ne_md5_create_ctx, quoted, qop_value_auth, after_request, rdig_snapshot,
      ne_md5_process_bytes, ne_md5_create_ctx.
    destruct op; cbn [ne_concat nonce_count h_a1];
      rewrite ?append_assoc, ?append_nil_l, ?append_nil_r; reflexivity.
Qed.

(** X20. The line [ah_pre_send] adds to a request when Digest is the
    selected scheme and the session holds a realm and a nonce: the name
    of the request header of the class, a colon and the credentials of
    RFC 2617, with the count, counted up by one, the client nonce and
    qop=auth when a qop is in force, and without them when none is. *)
Theorem digest_request_line {P : Platform} (sess : auth_session) (req : auth_request)
    (buf r n c : string) :
  protocol sess = Some Proto_Digest ->
  realm sess = Some r -> nonce sess = Some n ->
  (qop sess = auth_qop_auth -> cnonce sess = Some c) ->
  ah_pre_send sess (Some req) buf
  = Ret (buf +:+ req_hdr (spec sess) +:+ ": "
         +:+ digest_credentials (username sess) r n (req_uri req) (req_method req)
               (h_a1 sess) (alg sess) (opaque sess)
               (match qop sess with
                | auth_qop_none => None
                | auth_qop_auth => Some (c, uint_incr (nonce_count sess))
                end),
         match qop sess with
         | auth_qop_none => sess
         | auth_qop_auth => after_request sess n c
         end).
Proof.
  intros Hp Hr Hn Hc. unfold ah_pre_send. rewrite Hp. cbn [protocol_row response].
  rewrite (request_digest_text sess req r n c Hr Hn Hc), bind_Ret.
  unfold ne_buffer_concat. cbn [ne_concat]. rewrite append_nil_r.
  destruct (qop sess); reflexivity.
Qed.

Lemma digest_request_line_witness :
  ah_pre_send (P := demo_platform) (digest_session 0 None) (Some get_root) EmptyString
  = Ret ("" +:+ "Authorization" +:+ ": "
         +:+ digest_credentials (P := demo_platform) "jo" "x" "abc" "/" "GET"
               "md5(jo:x:foo)" auth_alg_md5 None (Some ("md5(rnd0)"%string, 1)),
         after_request (digest_session 0 None) "abc" "md5(rnd0)").
Proof.
  apply (digest_request_line (P := demo_platform) (digest_session 0 None) get_root
           EmptyString "x" "abc" "md5(rnd0)"); reflexivity.
Defined.

(** ** Reading a challenge as a server writes it *)

Lemma no_quotes_dquote (s : string) : no_quotes s = true -> no_dquote s = true.
Proof.
  unfold no_quotes, no_dquote. induction s as [|x s IH]; intros H; [reflexivity|].
  cbn [all_chars] in *. apply andb_true_iff in H as [Hx Hs].
  rewrite (IH Hs), andb_true_r.
  unfold quote_set in Hx. cbn [strchr_in] in Hx.
  destruct (Ascii.eqb x DQUOTE); [discriminate Hx | reflexivity].
Qed.

Lemma value_scan_quoted_end (s : string) :
  no_quotes s = true -> value_scan false (quoted s) <> None.
Proof.
  intros H. rewrite value_scan_quoted; [discriminate | now apply no_quotes_dquote].
Qed.

Lemma challenges_from_step {P : Platform} (hdls : list auth_handler)
    (st st' : chall_locals) (t : token) :
  challenges_ok (cl_challenges st) ->
  tokenize (cl_pnt st) true = Tok_pair t ->
  challenge_step hdls st t = Ret (Continue st') ->
  challenges_from hdls st = challenges_from hdls st'.
Proof.
  intros Hok Ht Hs. unfold challenges_from at 1. cbn [challenge_loop].
  rewrite Ht, Hs, bind_Ret.
  apply tokenize_shorter in Ht.
  destruct (challenge_step_ok _ _ _ _ Hok Hs) as [Hok' Hlen].
  apply challenge_loop_stable; [exact Hok' | lia | lia].
Qed.

Lemma challenges_from_end {P : Platform} (hdls : list auth_handler) (st : chall_locals) :
  cl_pnt st = EmptyString -> challenges_from hdls st = Ret (cl_challenges st).
Proof. intros H. unfold challenges_from. cbn [challenge_loop]. now rewrite H. Qed.

(** A chain of one handler claims a token under the name of Basic or
    Digest when its mask has the bit. *)
Lemma claim_basic {P : Platform} (hdl : auth_handler) :
  Z.land NE_AUTH_BASIC (protomask hdl) <> 0 ->
  claim_challenge (Some "Basic"%string) [hdl] = Ret (Some (Proto_Basic, hdl)).
Proof.
  intros Hm. cbn [claim_challenge]. rewrite match_protocol_find.
  unfold protocols. cbn [app find]. unfold admits at 1.
  cbn [proto_id proto_name]. apply Z.eqb_neq in Hm. rewrite Hm. reflexivity.
Qed.

Lemma claim_digest {P : Platform} (hdl : auth_handler) :
  Z.land NE_AUTH_DIGEST (protomask hdl) <> 0 ->
  claim_challenge (Some "Digest"%string) [hdl] = Ret (Some (Proto_Digest, hdl)).
Proof.
  intros Hm. cbn [claim_challenge]. rewrite match_protocol_find.
  unfold protocols. cbn [app find]. unfold admits at 1 2.
  cbn [proto_id proto_name]. apply Z.eqb_neq in Hm. rewrite Hm.
  change (ne_strcasecmp "Digest" "Basic" =? 0) with false. rewrite andb_false_r.
  reflexivity.
Qed.

(** The first token of a header claimed for a scheme without a
    parameter of its own. *)
Lemma challenge_step_first {P : Platform} (hdls : list auth_handler) (key rest : string)
    (c : ascii) (proto : proto_ref) (hdl : auth_handler) (value : string) :
  claim_challenge (Some key) hdls = Ret (Some (proto, hdl)) ->
  proto_flags proto = 0 ->
  challenge_step hdls (chall_locals_init value)
    {| tk_key := Some key; tk_value := Some None; tk_sep := Some c; tk_hdr := rest |}
  = Ret (Continue {| cl_pnt := rest; cl_val := CNull; cl_sep := Some c;
                     cl_chall := Some O;
                     cl_challenges := [set_ch_handler (Some hdl) (new_challenge proto)] |}).
Proof.
  intros Hc Hf. unfold challenge_step.
  cbn [assign_value assign_sep tk_value tk_sep tk_key tk_hdr chall_locals_init
       cl_val cl_sep cl_challenges].
  rewrite Hc, bind_Ret. cbn [insert_challenge]. rewrite Hf. reflexivity.
Qed.

(** A parameter of the current challenge. *)
Lemma challenge_step_param {P : Platform} (hdls : list auth_handler) (st : chall_locals)
    (i : nat) (key v rest : string) :
  cl_chall st = Some i ->
  challenge_step hdls st
    {| tk_key := Some key; tk_value := Some (Some v); tk_sep := None; tk_hdr := rest |}
  = Ret (Continue
           {| cl_pnt := rest;
              cl_val := snd (challenge_param key (ne_shave v quote_set) i (cl_challenges st));
              cl_sep := cl_sep st; cl_chall := Some i;
              cl_challenges :=
                fst (challenge_param key (ne_shave v quote_set) i (cl_challenges st)) |}).
Proof.
  intros Hi. unfold challenge_step.
  cbn [assign_value assign_sep tk_value tk_sep tk_key tk_hdr]. rewrite Hi.
  change (String DQUOTE (String SQUOTE "")) with quote_set.
  now destruct (challenge_param _ _ _ _).
Qed.

Lemma ne_shave_quotes (s : string) :
  no_quotes s = true -> ne_shave (quoted s) quote_set = s.
Proof. intros H. now apply ne_shave_quoted. Qed.

Lemma challenges_ok_one (c : auth_chall) :
  non_null (ch_handler c) = true -> challenges_ok [c].
Proof.
  intros H. split; [|now repeat constructor].
  unfold sorted_by_strength. cbn. repeat constructor.
Qed.

Lemma parse_basic_challenge_text {P : Platform} (hdl : auth_handler) (r : string) :
  Z.land NE_AUTH_BASIC (protomask hdl) <> 0 ->
  no_quotes r = true ->
  parse_challenges [hdl] (basic_challenge_text r) = Ret [basic_challenge_parsed hdl r].
Proof.
  intros Hm Hr.
  change (parse_challenges [hdl] (basic_challenge_text r))
    with (challenges_from [hdl] (chall_locals_init (basic_challenge_text r))).
  assert (Hshape : basic_challenge_text r
          = "" +:+ "Basic" +:+ String " " ("" +:+ "realm" +:+ "=" +:+ quoted r))
    by reflexivity.
  erewrite challenges_from_step;
    [ | split; constructor
      | cbn [cl_pnt chall_locals_init]; rewrite Hshape; apply tokenize_key_sep;
        [reflexivity | reflexivity | now left]
      | apply challenge_step_first; [now apply claim_basic | reflexivity] ].
  erewrite challenges_from_step;
    [ | now apply challenges_ok_one
      | cbn [cl_pnt]; apply tokenize_pair_end;
        [reflexivity | reflexivity
         | now apply value_scan_quoted_end]
      | now apply challenge_step_param ].
  rewrite challenges_from_end by reflexivity.
  cbn [cl_challenges]. rewrite (ne_shave_quotes r Hr). reflexivity.
Qed.

Lemma parse_digest_challenge_text {P : Platform} (hdl : auth_handler) (r n : string)
    (with_qop : bool) :
  Z.land NE_AUTH_DIGEST (protomask hdl) <> 0 ->
  no_quotes r = true -> no_quotes n = true ->
  parse_challenges [hdl] (digest_challenge_text r n with_qop)
  = Ret [digest_challenge_parsed hdl r n with_qop].
Proof.
  intros Hm Hr Hn.
  change (parse_challenges [hdl] (digest_challenge_text r n with_qop))
    with (challenges_from [hdl] (chall_locals_init (digest_challenge_text r n with_qop))).
  assert (Hshape : digest_challenge_text r n with_qop
          = "" +:+ "Digest" +:+
            String " " ("" +:+ "realm" +:+ "=" +:+ quoted r +:+ "," +:+
                        (" " +:+ "nonce" +:+ "=" +:+ quoted n +:+
                         (if with_qop
                          then "," +:+ (" " +:+ "qop" +:+ "=" +:+ quoted "auth")
                          else EmptyString))))
    by (destruct with_qop; reflexivity).
  erewrite challenges_from_step;
    [ | split; constructor
      | cbn [cl_pnt chall_locals_init]; rewrite Hshape; apply tokenize_key_sep;
        [reflexivity | reflexivity | now left]
      | apply challenge_step_first; [now apply claim_digest | reflexivity] ].
  erewrite challenges_from_step;
    [ | now apply challenges_ok_one
      | cbn [cl_pnt]; apply tokenize_pair_comma;
        [reflexivity | reflexivity
         | apply value_scan_quoted; now apply no_quotes_dquote]
      | now apply challenge_step_param ].
  cbn [cl_challenges cl_sep].
  rewrite (ne_shave_quotes r Hr).
  change (challenge_param "realm" r 0
            [set_ch_handler (Some hdl) (new_challenge Proto_Digest)])
    with (alter (set_ch_realm (Some r)) O
            [set_ch_handler (Some hdl) (new_challenge Proto_Digest)], CStr r).
  cbn [fst snd alter list_alter].
  destruct with_qop.
  - erewrite challenges_from_step;
      [ | now apply challenges_ok_one
        | cbn [cl_pnt]; apply tokenize_pair_comma;
          [reflexivity | reflexivity
           | apply value_scan_quoted; now apply no_quotes_dquote]
        | now apply challenge_step_param ].
    cbn [cl_challenges cl_sep]. rewrite (ne_shave_quotes n Hn).
    erewrite challenges_from_step;
      [ | now apply challenges_ok_one
        | cbn [cl_pnt]; apply tokenize_pair_end;
          [reflexivity | reflexivity | discriminate]
        | now apply challenge_step_param ].
    rewrite challenges_from_end by reflexivity. reflexivity.
  - erewrite challenges_from_step;
      [ | now apply challenges_ok_one
        | cbn [cl_pnt]; rewrite append_nil_r; apply tokenize_pair_end;
          [reflexivity | reflexivity
           | now apply value_scan_quoted_end]
        | now apply challenge_step_param ].
    rewrite challenges_from_end by reflexivity.
    cbn [cl_challenges]. rewrite (ne_shave_quotes n Hn). reflexivity.
Qed.

(** ** From the challenge to the credentials *)

(** A Digest challenge that passes the checks, is not stale and gets
    credentials is accepted; the fields of the session afterwards. *)
Lemma digest_challenge_fresh {P : Platform} (sess : auth_session) (attempt : Z)
    (parms : auth_chall) (hdl : auth_handler) (r n : string) :
  digest_passes parms = true -> ch_stale parms = false ->
  ch_handler parms = Some hdl -> ch_realm parms = Some r -> ch_nonce parms = Some n ->
  cr_status (creds hdl (prompts sess) r attempt (username sess)) = 0 ->
  exists sess',
    digest_challenge sess attempt parms = Ret (0, sess')
    /\ username sess' = cr_username (creds hdl (prompts sess) r attempt (username sess))
    /\ h_a1 sess'
       = h_a1_expected (ch_alg parms)
           (cr_username (creds hdl (prompts sess) r attempt (username sess))) r
           (cr_password (creds hdl (prompts sess) r attempt (username sess))) n
           (md5_hex (random_data (rand_calls sess)))
    /\ opaque sess' = ch_opaque parms
    /\ realm sess' = Some r /\ nonce sess' = Some n
    /\ cnonce sess' = Some (md5_hex (random_data (rand_calls sess)))
    /\ qop sess' = (if ch_got_qop parms then auth_qop_auth else auth_qop_none)
    /\ nonce_count sess' = (if ch_got_qop parms then 0 else nonce_count sess)
    /\ alg sess' = ch_alg parms
    /\ registration sess' = registration sess.
Proof.
  intros Hpass Hs Hh Hr Hn Hz.
  destruct (digest_challenge_unfold sess attempt parms Hpass) as (r' & n' & Hr' & Hn' & Hu).
  rewrite Hr in Hr'. injection Hr' as <-. rewrite Hn in Hn'. injection Hn' as <-.
  assert (Hg : get_credentials (set_realm (Some r) (clean_session sess)) attempt parms
               = Ret (0, cr_password (creds hdl (prompts sess) r attempt (username sess)),
                      set_prompts (prompts sess ++ [(r, attempt)])
                        (set_username
                           (cr_username (creds hdl (prompts sess) r attempt (username sess)))
                           (set_realm (Some r) (clean_session sess))))).
  { unfold get_credentials. rewrite Hh. cbn [realm set_realm prompts username].
    destruct (clean_session_fields sess)
      as (_ & _ & _ & _ & _ & _ & _ & _ & _ & _ & Hun & Hpr & _).
    now rewrite Hpr, Hun, Hz. }
  rewrite Hs in Hu. cbn [negb] in Hu. rewrite Hg, bind_Ret in Hu.
  destruct (digest_finish_returns parms r n
              (cr_password (creds hdl (prompts sess) r attempt (username sess))) 0
              (set_prompts (prompts sess ++ [(r, attempt)])
                 (set_username
                    (cr_username (creds hdl (prompts sess) r attempt (username sess)))
                    (set_realm (Some r) (clean_session sess)))))
    as (rc' & sess' & Hf).
  pose proof (digest_finish_rejects _ _ _ _ _ _ _ _ Hf) as (_ & Hiff & _).
  assert (Hrc : rc' = 0).
  { destruct (Z.eq_dec rc' 0) as [E|E]; [exact E|]. apply Hiff in E. now contradict E. }
  subst rc'. rewrite Hf in Hu. exists sess'. split; [exact Hu|].
  pose proof (digest_challenge_registration _ _ _ _ _ Hu) as Hreg.
  pose proof (digest_finish_accepts _ _ _ _ _ _ _ Hf)
    as (_ & Hno & Hcn & _ & Hq & Hnc & Ha & _ & _ & Hre & _).
  apply (digest_finish_secret _ _ _ _ _ _ Hs) in Hf as (Hun & Hop & Hha).
  destruct (clean_session_fields sess)
    as (_ & _ & _ & Ho & _ & _ & Hncs & _ & _ & _ & _ & _ & Hrc & _).
  cbn [username set_prompts set_username opaque set_realm rand_calls realm nonce_count]
    in Hun, Hop, Hha, Hcn, Hre, Hnc.
  rewrite Ho in Hop. rewrite Hrc in Hha, Hcn. rewrite Hncs in Hnc.
  repeat split; try assumption.
  now destruct (ch_opaque parms).
Qed.

(** X21. A challenge for Digest as a server writes it, on a session
    whose handler takes Digest and whose callback gives credentials:
    [ah_post_send] returns NE_RETRY with Digest selected, the callback
    having been asked for the realm of the challenge, and the next
    request carries the credentials of RFC 2617 for that realm and nonce,
    with H(A1) the digest of username, realm and password; when the
    challenge offers qop="auth" they carry a fresh client nonce and the
    count 00000001. *)
Theorem digest_exchange {P : Platform} (sess : auth_session) (hdl : auth_handler)
    (areq req : auth_request) (headers : string -> option string) (status : ne_status)
    (r n buf : string) (with_qop : bool) :
  handlers sess = [hdl] ->
  Z.land NE_AUTH_DIGEST (protomask hdl) <> 0 ->
  code status = status_code (spec sess) ->
  klass status = 4 ->
  headers (resp_hdr (spec sess)) = Some (digest_challenge_text r n with_qop) ->
  headers (resp_info_hdr (spec sess)) = None ->
  no_quotes r = true -> no_quotes n = true ->
  cr_status (creds hdl (prompts sess) r (req_attempt areq) (username sess)) = 0 ->
  exists sess1 sess2,
    ah_post_send (Some areq) headers status sess
    = Ret (NE_RETRY, sess1, Some (next_attempt areq))
    /\ protocol sess1 = Some Proto_Digest
    /\ prompts sess1 = prompts sess ++ [(r, req_attempt areq)]
    /\ ah_pre_send sess1 (Some req) buf
       = Ret (buf +:+ req_hdr (spec sess) +:+ ": "
              +:+ digest_credentials
                    (cr_username (creds hdl (prompts sess) r (req_attempt areq)
                                    (username sess)))
                    r n (req_uri req) (req_method req)
                    (md5_hex
                       (cr_username (creds hdl (prompts sess) r (req_attempt areq)
                                       (username sess))
                        +:+ ":" +:+ r +:+ ":"
                        +:+ cr_password (creds hdl (prompts sess) r (req_attempt areq)
                                           (username sess))))
                    auth_alg_md5 None
                    (if with_qop
                     then Some (md5_hex (random_data (rand_calls sess)), 1)
                     else None),
              sess2).
Proof.
  intros Hh Hm Hcode Hk Hhdr Hinfo Hr Hn Hz.
  rewrite (post_send_takes_challenge areq headers status sess _ Hcode Hk Hhdr Hinfo).
  assert (H0 : handlers (token_forgotten sess) = [hdl]
               /\ prompts (token_forgotten sess) = prompts sess
               /\ username (token_forgotten sess) = username sess
               /\ rand_calls (token_forgotten sess) = rand_calls sess
               /\ spec (token_forgotten sess) = spec sess).
  { unfold token_forgotten. destruct HAVE_GSSAPI; cbn; repeat split; assumption. }
  destruct H0 as (Hh0 & Hp0 & Hu0 & Hrc0 & Hs0).
  unfold auth_challenge. rewrite Hh0.
  rewrite (parse_digest_challenge_text hdl r n with_qop Hm Hr Hn), bind_Ret.
  cbn [try_challenges digest_challenge_parsed ch_protocol protocol_row challenge].
  fold (digest_challenge_parsed hdl r n with_qop).
  set (s0 := set_protocol None (token_forgotten sess)).
  assert (Hz0 : cr_status (creds hdl (prompts s0) r (req_attempt areq) (username s0)) = 0).
  { unfold s0. cbn [prompts username set_protocol]. now rewrite Hp0, Hu0. }
  destruct (digest_challenge_fresh s0 (req_attempt areq)
              (digest_challenge_parsed hdl r n with_qop) hdl r n
              eq_refl eq_refl eq_refl eq_refl eq_refl Hz0)
    as (s1 & Hd & Hun & Hha & Hop & Hre & Hno & Hcn & Hq & Hnc & Hal & Hreg).
  pose proof (digest_challenge_accepted _ _ _ _ Hd)
    as (_ & _ & _ & _ & _ & _ & _ & _ & _ & Hfresh).
  destruct (Hfresh eq_refl) as (_ & _ & r' & Hr' & Hpr).
  injection Hr' as <-.
  unfold s0 in Hun, Hha, Hcn, Hnc, Hreg, Hpr.
  cbn [prompts username rand_calls nonce_count set_protocol digest_challenge_parsed
       ch_alg ch_opaque ch_got_qop h_a1_expected] in Hun, Hha, Hop, Hcn, Hq, Hnc, Hal, Hpr.
  rewrite Hp0, Hu0 in Hun, Hha. rewrite Hrc0 in Hcn. rewrite Hp0 in Hpr.
  rewrite Hd, !bind_Ret. cbn [Z.eqb]. rewrite bind_Ret.
  cbn [protocol set_protocol non_null Z.eqb].
  set (sel := set_protocol (Some Proto_Digest) s1).
  exists sel, (match qop sel with
               | auth_qop_none => sel
               | auth_qop_auth =>
                   after_request sel n (md5_hex (random_data (rand_calls sess)))
               end).
  split; [reflexivity|]. split; [reflexivity|]. split; [exact Hpr|].
  assert (Hspec : spec sel = spec sess).
  { unfold registration in Hreg. unfold sel. cbn [spec set_protocol].
    injection Hreg as _ Hsp _. unfold s0 in Hsp. cbn [spec set_protocol] in Hsp.
    now rewrite Hsp. }
  unfold ah_pre_send. change (protocol sel) with (Some Proto_Digest).
  cbn [protocol_row response].
  rewrite (request_digest_text sel req r n (md5_hex (random_data (rand_calls sess))));
    [ | exact Hre | exact Hno | intros _; exact Hcn ].
  rewrite bind_Ret.
  change (username sel) with (username s1). change (h_a1 sel) with (h_a1 s1).
  change (alg sel) with (alg s1). change (opaque sel) with (opaque s1).
  change (qop sel) with (qop s1). change (nonce_count sel) with (nonce_count s1).
  rewrite Hun, Hha, Hal, Hop, Hq, Hnc.
  unfold ne_buffer_concat. cbn [ne_concat]. rewrite append_nil_r.
  destruct with_qop.
  - change (uint_incr 0) with 1. cbn [spec after_request set_stored_rdig set_nonce_count].
    rewrite Hspec. reflexivity.
  - rewrite Hspec. reflexivity.
Qed.

Lemma digest_exchange_witness :
  exists sess1 sess2,
    ah_post_send (P := demo_platform) (Some get_root)
      (challenge_only "WWW-Authenticate" (digest_challenge_text "x" "abc" true))
      unauthorized registered_jo
    = Ret (NE_RETRY, sess1, Some (next_attempt get_root))
    /\ protocol sess1 = Some Proto_Digest
    /\ prompts sess1 = prompts registered_jo ++ [("x"%string, req_attempt get_root)]
    /\ ah_pre_send (P := demo_platform) sess1 (Some get_root) EmptyString
       = Ret ("" +:+ req_hdr (spec registered_jo) +:+ ": "
              +:+ digest_credentials (P := demo_platform) "jo" "x" "abc" "/" "GET"
                    "md5(jo:x:foo)" auth_alg_md5 None (Some ("md5(rnd0)"%string, 1)),
              sess2).
Proof.
  apply (digest_exchange (P := demo_platform) registered_jo handler_jo get_root get_root
           (challenge_only "WWW-Authenticate" (digest_challenge_text "x" "abc" true))
           unauthorized "x" "abc" EmptyString true);
    first [reflexivity | discriminate].
Defined.

Lemma basic_challenge_fresh {P : Platform} (sess : auth_session) (attempt : Z)
    (parms : auth_chall) (hdl : auth_handler) (r : string) :
  ch_realm parms = Some r -> ch_handler parms = Some hdl ->
  cr_status (creds hdl (prompts sess) r attempt (username sess)) = 0 ->
  exists sess',
    basic_challenge sess attempt parms = Ret (0, sess')
    /\ basic sess'
       = Some (ne_base64
                 (cr_username (creds hdl (prompts sess) r attempt (username sess))
                  +:+ ":"
                  +:+ cr_password (creds hdl (prompts sess) r attempt (username sess))))
    /\ prompts sess' = prompts sess ++ [(r, attempt)]
    /\ registration sess' = registration sess.
Proof.
  intros Hr Hh Hz. unfold basic_challenge, get_credentials.
  rewrite Hr, Hh. cbn [realm set_realm prompts username].
  destruct (clean_session_fields sess)
    as (_ & _ & _ & _ & _ & _ & _ & _ & _ & _ & Hu & Hp & _).
  rewrite Hp, Hu, bind_Ret, Hz. cbn [Z.eqb negb].
  eexists. split; [reflexivity|]. cbn. rewrite append_nil_r.
  split; [reflexivity|]. split; [reflexivity|].
  apply clean_session_registration.
Qed.

(** X22. A challenge for Basic as a server writes it, on a session
    whose handler takes Basic and whose callback gives credentials:
    [ah_post_send] returns NE_RETRY with Basic selected, and the next
    request carries the word Basic and the base64 text of username, colon
    and password. *)
Theorem basic_exchange {P : Platform} (sess : auth_session) (hdl : auth_handler)
    (areq req : auth_request) (headers : string -> option string) (status : ne_status)
    (r buf : string) :
  handlers sess = [hdl] ->
  Z.land NE_AUTH_BASIC (protomask hdl) <> 0 ->
  code status = status_code (spec sess) ->
  klass status = 4 ->
  headers (resp_hdr (spec sess)) = Some (basic_challenge_text r) ->
  headers (resp_info_hdr (spec sess)) = None ->
  no_quotes r = true ->
  cr_status (creds hdl (prompts sess) r (req_attempt areq) (username sess)) = 0 ->
  exists sess1,
    ah_post_send (Some areq) headers status sess
    = Ret (NE_RETRY, sess1, Some (next_attempt areq))
    /\ protocol sess1 = Some Proto_Basic
    /\ prompts sess1 = prompts sess ++ [(r, req_attempt areq)]
    /\ ah_pre_send sess1 (Some req) buf
       = Ret (buf +:+ req_hdr (spec sess) +:+ ": " +:+ "Basic "
              +:+ ne_base64
                    (cr_username (creds hdl (prompts sess) r (req_attempt areq)
                                    (username sess))
                     +:+ ":"
                     +:+ cr_password (creds hdl (prompts sess) r (req_attempt areq)
                                        (username sess)))
              +:+ CRLF,
              sess1).
Proof.
  intros Hh Hm Hcode Hk Hhdr Hinfo Hr Hz.
  rewrite (post_send_takes_challenge areq headers status sess _ Hcode Hk Hhdr Hinfo).
  assert (H0 : handlers (token_forgotten sess) = [hdl]
               /\ prompts (token_forgotten sess) = prompts sess
               /\ username (token_forgotten sess) = username sess
               /\ spec (token_forgotten sess) = spec sess).
  { unfold token_forgotten. destruct HAVE_GSSAPI; cbn; repeat split; assumption. }
  destruct H0 as (Hh0 & Hp0 & Hu0 & Hs0).
  unfold auth_challenge. rewrite Hh0.
  rewrite (parse_basic_challenge_text hdl r Hm Hr), bind_Ret.
  cbn [try_challenges basic_challenge_parsed ch_protocol protocol_row challenge].
  fold (basic_challenge_parsed hdl r).
  set (s0 := set_protocol None (token_forgotten sess)).
  assert (Hz0 : cr_status (creds hdl (prompts s0) r (req_attempt areq) (username s0)) = 0).
  { unfold s0. cbn [prompts username set_protocol]. now rewrite Hp0, Hu0. }
  destruct (basic_challenge_fresh s0 (req_attempt areq) (basic_challenge_parsed hdl r)
              hdl r eq_refl eq_refl Hz0)
    as (s1 & Hb & Hba & Hpr & Hreg).
  unfold s0 in Hba, Hpr, Hreg. cbn [prompts username set_protocol] in Hba, Hpr.
  rewrite Hp0, Hu0 in Hba. rewrite Hp0 in Hpr.
  rewrite Hb, !bind_Ret. cbn [Z.eqb]. rewrite bind_Ret.
  cbn [protocol set_protocol non_null Z.eqb].
  set (sel := set_protocol (Some Proto_Basic) s1).
  exists sel. split; [reflexivity|]. split; [reflexivity|]. split; [exact Hpr|].
  assert (Hspec : spec sel = spec sess).
  { unfold registration in Hreg. unfold sel. cbn [spec set_protocol].
    injection Hreg as _ Hsp _. cbn [spec set_protocol] in Hsp. now rewrite Hsp. }
  unfold ah_pre_send. change (protocol sel) with (Some Proto_Basic).
  cbn [protocol_row response]. unfold request_basic. rewrite bind_Ret.
  change (basic sel) with (basic s1). rewrite Hba, Hspec.
  unfold ne_buffer_concat. cbn [ne_concat]. rewrite ?append_nil_r, ?append_assoc.
  reflexivity.
Qed.

Lemma basic_exchange_witness :
  exists sess1,
    ah_post_send (P := demo_platform) (Some get_root)
      (challenge_only "WWW-Authenticate" (basic_challenge_text "x"))
      unauthorized registered_jo
    = Ret (NE_RETRY, sess1, Some (next_attempt get_root))
    /\ protocol sess1 = Some Proto_Basic
    /\ prompts sess1 = prompts registered_jo ++ [("x"%string, req_attempt get_root)]
    /\ ah_pre_send (P := demo_platform) sess1 (Some get_root) EmptyString
       = Ret ("" +:+ req_hdr (spec registered_jo) +:+ ": " +:+ "Basic "
              +:+ "b64(jo:foo)" +:+ CRLF,
              sess1).
Proof.
  apply (basic_exchange (P := demo_platform) registered_jo handler_jo get_root get_root
           (challenge_only "WWW-Authenticate" (basic_challenge_text "x"))
           unauthorized "x" EmptyString);
    first [reflexivity | discriminate].
Defined.

(** ** Blank text where a token is expected *)

Lemma tokenize_blanks (ischall : bool) (blanks : string) :
  blanks <> EmptyString ->
  all_chars (strchr_in key_blanks) blanks = true ->
  tokenize blanks ischall
  = Tok_pair {| tk_key := None; tk_value := None; tk_sep := None;
                tk_hdr := EmptyString |}.
Proof.
  intros Hne Hb. destruct blanks as [|c blanks]; [now contradict Hne|].
  unfold tokenize.
  replace (String c blanks) with (String c blanks +:+ EmptyString)
    by now rewrite append_nil_r.
  rewrite (tok_scan_lead _ _ _ _ Hb). cbn. now rewrite andb_false_r.
Qed.

(** X23. Blank text where [auth_challenge] expects a token.  On a
    header value of blanks only, [tokenize] returns zero and has written
    neither [key] nor [val], and the loop reads [val], which nothing has
    written.  After a parameter of a claimed challenge and a comma,
    blanks up to the end of the value leave [key] NULL while [val] still
    points at the parameter's value, and the loop passes the NULL key to
    [ne_strcasecmp]. *)
Theorem challenge_blank_text {P : Platform} (sess : auth_session) (attempt : Z)
    (blanks : string) :
  blanks <> EmptyString ->
  all_chars (strchr_in key_blanks) blanks = true ->
  auth_challenge sess attempt blanks = Fault UninitRead
  /\ forall (hdl : auth_handler) (r : string),
       handlers sess = [hdl] ->
       Z.land NE_AUTH_BASIC (protomask hdl) <> 0 ->
       no_quotes r = true ->
       auth_challenge sess attempt (basic_challenge_text r +:+ "," +:+ blanks)
       = Fault NullString.
Proof.
  intros Hne Hb. split.
  - unfold auth_challenge, parse_challenges. cbn [challenge_loop cl_pnt].
    rewrite (tokenize_blanks true blanks Hne Hb). reflexivity.
  - intros hdl r Hh Hm Hr. unfold auth_challenge. rewrite Hh.
    change (parse_challenges [hdl] (basic_challenge_text r +:+ "," +:+ blanks))
      with (challenges_from [hdl]
              (chall_locals_init (basic_challenge_text r +:+ "," +:+ blanks))).
    assert (Hshape : basic_challenge_text r +:+ "," +:+ blanks
            = "" +:+ "Basic" +:+
              String " " ("" +:+ "realm" +:+ "=" +:+ quoted r +:+ "," +:+ blanks)).
    { unfold basic_challenge_text. rewrite !append_assoc. reflexivity. }
    erewrite challenges_from_step;
      [ | split; constructor
        | cbn [cl_pnt chall_locals_init]; rewrite Hshape; apply tokenize_key_sep;
          [reflexivity | reflexivity | now left]
        | apply challenge_step_first; [now apply claim_basic | reflexivity] ].
    erewrite challenges_from_step;
      [ | now apply challenges_ok_one
        | cbn [cl_pnt]; apply tokenize_pair_comma;
          [reflexivity | reflexivity
           | apply value_scan_quoted; now apply no_quotes_dquote]
        | now apply challenge_step_param ].
    unfold challenges_from. cbn [challenge_loop cl_pnt].
    rewrite (tokenize_blanks true blanks Hne Hb).
    rewrite (ne_shave_quotes r Hr). reflexivity.
Qed.

Lemma challenge_blank_text_witness :
  auth_challenge (P := demo_platform) registered_jo 0 " " = Fault UninitRead
  /\ auth_challenge (P := demo_platform) registered_jo 0
       (basic_challenge_text "x" +:+ "," +:+ " ")
     = Fault NullString.
Proof.
  destruct (challenge_blank_text (P := demo_platform) registered_jo 0 " ")
    as [Hblank Htail]; [discriminate | reflexivity |].
  split; [exact Hblank|].
  apply (Htail handler_jo "x"); first [reflexivity | discriminate].
Defined.

(** ** The default registrations *)

(** X24. [ne_set_server_auth] registers Basic and Digest, and Negotiate
    as well only when the scheme of the URL is https; [ne_set_proxy_auth]
    registers all three.  A server session registered over another
    scheme than https therefore selects Basic, Digest or nothing,
    whatever the challenge header offers. *)
Theorem default_registration {P : Platform} (scheme : string) (callback : ne_auth_creds) :
  handlers (ne_set_server_auth None scheme callback)
  = [{| protomask := if String.eqb scheme "https"
                     then Z.lor (Z.lor NE_AUTH_BASIC NE_AUTH_DIGEST) NE_AUTH_NEGOTIATE
                     else Z.lor NE_AUTH_BASIC NE_AUTH_DIGEST;
        creds := callback |}]
  /\ handlers (ne_set_proxy_auth None scheme callback)
     = [{| protomask := Z.lor (Z.lor NE_AUTH_BASIC NE_AUTH_DIGEST) NE_AUTH_NEGOTIATE;
           creds := callback |}]
  /\ (scheme <> "https"%string ->
      forall (attempt rc : Z) (value : string) (sess' : auth_session) (p : proto_ref),
        auth_challenge (ne_set_server_auth None scheme callback) attempt value
        = Ret (rc, sess') ->
        protocol sess' = Some p ->
        p = Proto_Basic \/ p = Proto_Digest).
Proof.
  split; [|split].
  - unfold ne_set_server_auth, auth_register_default, auth_register.
    cbn [handlers set_handlers new_session register_handler].
    rewrite orb_false_r. now destruct (String.eqb scheme "https").
  - unfold ne_set_proxy_auth, auth_register_default, auth_register.
    cbn [handlers set_handlers new_session register_handler].
    now rewrite orb_true_r.
  - intros Hs attempt rc value sess' p H Hp.
    destruct (auth_challenge_claimed _ _ _ _ _ p H Hp) as (c & (_ & hdl & _ & Hin & Hm) & Hcp).
    rewrite Hcp in Hm.
    unfold ne_set_server_auth, auth_register_default, auth_register in Hin.
    cbn [handlers set_handlers new_session register_handler] in Hin.
    apply String.eqb_neq in Hs. rewrite Hs in Hin. cbn [orb] in Hin.
    destruct Hin as [<-|[]]. cbn [protomask] in Hm.
    destruct p; auto; now contradict Hm.
Qed.

Lemma default_registration_witness :
  exists sess',
    auth_challenge (P := demo_platform) (ne_set_server_auth None "http" creds_jo) 0
      challenge_priority = Ret (0, sess')
    /\ protocol sess' = Some Proto_Digest
    /\ (Proto_Digest = Proto_Basic \/ Proto_Digest = Proto_Digest).
Proof.
  eexists. split; [vm_compute; reflexivity|]. split; [reflexivity|].
  refine (proj2 (proj2 (default_registration (P := demo_platform) "http" creds_jo))
            _ 0 0 challenge_priority _ Proto_Digest _ _);
    [discriminate | vm_compute; reflexivity | reflexivity].
Defined.

(** ** Authentication-Info before the challenge *)

(** X25. When Digest is the selected scheme and the response carries
    the Authentication-Info header of the class, [ah_post_send] hands that
    header to the verifier and returns what the verifier returns,
    whatever the status: a challenge in the same response is not looked
    at and the attempt is not counted.  The one exception is the 401 a
    proxy session over https gets without the challenge header of its
    class. *)
Theorem post_send_info_first {P : Platform} (areq : auth_request)
    (headers : string -> option string) (status : ne_status) (sess : auth_session)
    (info : string) :
  protocol sess = Some Proto_Digest ->
  headers (resp_info_hdr (spec sess)) = Some info ->
  is_AUTH_CONNECT (context sess) && (code status =? 401)
  && negb (non_null (headers (resp_hdr (spec sess)))) = false ->
  ah_post_send (Some areq) headers status sess
  = verify_digest_response areq (token_forgotten sess) info
    ≫= fun '(ret, sess') => Ret (ret, sess', Some areq).
Proof.
  intros Hp Hi Hq. unfold ah_post_send. rewrite Hq, Hi.
  fold (token_forgotten sess).
  assert (Hp0 : protocol (token_forgotten sess) = Some Proto_Digest)
    by (unfold token_forgotten; destruct HAVE_GSSAPI; exact Hp).
  rewrite Hp0. reflexivity.
Qed.

Lemma post_send_info_first_witness :
  ah_post_send (P := demo_platform) (Some get_root)
    (fun h => if String.eqb h "Authentication-Info" then Some auth_info_deadbeef
              else Some challenge_stale)
    unauthorized sent_once
  = verify_digest_response (P := demo_platform) get_root
      (token_forgotten (P := demo_platform) sent_once) auth_info_deadbeef
    ≫= fun '(ret, sess') => Ret (ret, sess', Some get_root).
Proof.
  apply (post_send_info_first (P := demo_platform) get_root
           (fun h => if String.eqb h "Authentication-Info" then Some auth_info_deadbeef
                     else Some challenge_stale)
           unauthorized sent_once auth_info_deadbeef); vm_compute; reflexivity.
Defined.

(** ** Negotiate and NTLM through SSPI *)

(** X26. [sspi_challenge] creates a context only when the session has
    none, for NTLM exactly when the challenge is for the NTLM row, and
    returns the status of the creation when that is not zero, without
    asking for a token.  Otherwise it returns the status of
    [ne_sspi_authenticate] on the context and the parameter of the
    challenge, and with status zero the token the provider hands out
    becomes the token of the session.  [request_sspi] sends it under the
    name of the selected row. *)
Theorem sspi_challenge_decides {P : Platform} (sess : auth_session) (attempt : Z)
    (parms : auth_chall) :
  let ntlm := match ch_protocol parms with Proto_SSPI_NTLM => true | _ => false end in
  let created := match sspi_context sess with
                 | Some c => (0, Some c)
                 | None => ne_sspi_create_context ntlm
                 end in
  let answer := ne_sspi_authenticate (snd created) (ch_opaque parms) in
  exists rc sess',
    sspi_challenge sess attempt parms = Ret (rc, sess')
    /\ sspi_context sess' = snd created
    /\ rc = (if fst created =? 0 then fst answer else fst created)
    /\ sspi_token sess' = (if (fst created =? 0) && (fst answer =? 0)
                           then snd answer else sspi_token sess)
    /\ forall (p : proto_ref) (req : auth_request) (tok : string),
         sspi_token sess' = Some tok ->
         request_sspi (set_protocol (Some p) sess') req
         = Ret (Some (proto_name p +:+ " " +:+ tok +:+ CRLF),
                set_protocol (Some p) sess').
Proof.
  assert (Hreq : forall s (p : proto_ref) (req : auth_request) (tok : string),
            sspi_token s = Some tok ->
            request_sspi (set_protocol (Some p) s) req
            = Ret (Some (proto_name p +:+ " " +:+ tok +:+ CRLF), set_protocol (Some p) s)).
  { intros s p req tok Ht. unfold request_sspi. cbn [protocol set_protocol sspi_token].
    rewrite Ht. cbn [ne_concat]. now rewrite append_nil_r. }
  assert (Hntlm : (ne_strcasecmp (proto_name (ch_protocol parms)) "NTLM" =? 0)
                  = match ch_protocol parms with Proto_SSPI_NTLM => true | _ => false end)
    by (destruct (ch_protocol parms); reflexivity).
  unfold sspi_challenge. rewrite Hntlm.
  destruct (sspi_context sess) as [c|] eqn:Ec.
  - cbn [fst snd Z.eqb negb andb]. rewrite Ec.
    destruct (ne_sspi_authenticate (Some c) (ch_opaque parms)) as [status resp].
    cbn [fst snd]. destruct (Z.eqb_spec status 0) as [->|Hs]; cbn [negb];
      (eexists _, _; split; [reflexivity|];
       cbn [sspi_context sspi_token set_sspi_token];
       split; [exact Ec|]; split; [reflexivity|]; split; [reflexivity|]; intros p req tok Ht; apply Hreq; exact Ht).
  - destruct (ne_sspi_create_context _) as [status ctx]. cbn [fst snd].
    destruct (Z.eqb_spec status 0) as [->|Hs]; cbn [negb andb].
    + cbn [sspi_context set_sspi_context].
      destruct (ne_sspi_authenticate ctx (ch_opaque parms)) as [status' resp].
      cbn [fst snd]. destruct (Z.eqb_spec status' 0) as [->|Hs']; cbn [negb];
        (eexists _, _; split; [reflexivity|];
         cbn [sspi_context sspi_token set_sspi_token set_sspi_context];
         split; [reflexivity|]; split; [reflexivity|]; split; [reflexivity|]; intros p req tok Ht; apply Hreq; exact Ht).
    + eexists _, _. split; [reflexivity|].
      cbn [sspi_context sspi_token set_sspi_context].
      split; [reflexivity|]. split; [reflexivity|]. split; [reflexivity|]. intros p req tok Ht. apply Hreq. exact Ht.
Qed.

Lemma sspi_challenge_decides_witness :
  exists rc sess',
    sspi_challenge (P := sspi_platform) sspi_registered 0
      (new_challenge Proto_SSPI_NTLM) = Ret (rc, sess')
    /\ rc = 0
    /\ sspi_context sess' = Some 1%nat
    /\ request_sspi (set_protocol (Some Proto_SSPI_NTLM) sess') get_root
       = Ret (Some ("NTLM" +:+ " " +:+ "dG9rZW4=" +:+ CRLF),
              set_protocol (Some Proto_SSPI_NTLM) sess').
Proof.
  destruct (sspi_challenge_decides (P := sspi_platform) sspi_registered 0
              (new_challenge Proto_SSPI_NTLM))
    as (rc & sess' & Hc & Hctx & Hrc & Htok & Hreq).
  exists rc, sess'. split; [exact Hc|]. split; [exact Hrc|]. split; [exact Hctx|].
  apply (Hreq Proto_SSPI_NTLM get_root "dG9rZW4="). exact Htok.
Defined.

(** ** The qop parameter of a challenge *)

Lemma comma_tokens_turn (val : string) :
  comma_tokens val
  = fst (ne_token val ",")
    :: match snd (ne_token val ",") with
       | Some rest => comma_tokens rest
       | None => []
       end.
Proof.
  induction val as [|c val IH]; [reflexivity|].
  cbn [comma_tokens ne_token]. destruct (Ascii.eqb c ","); [reflexivity|].
  rewrite IH. destruct (ne_token val ",") as [tok rest]. reflexivity.
Qed.

(** X27. The loop over the tokens of a qop value, one turn at a time:
    auth is offered when the token [ne_token] cuts off at the first
    comma is auth, blanks and letter case apart, or when the rest of the
    value offers it.  The parameter sets [qop_auth] of the current
    challenge when auth is offered and never clears it, copies [qop_auth]
    to [got_qop], and leaves [val] NULL. *)
Theorem qop_value_scan (val : string) :
  qop_offers_auth val
  = (ne_strcasecmp (ne_shave (fst (ne_token val ",")) (String " " (String TAB ""))) "auth"
     =? 0)
    || match snd (ne_token val ",") with
       | Some rest => qop_offers_auth rest
       | None => false
       end
  /\ forall (i : nat) (l : list auth_chall) (c : auth_chall),
       l !! i = Some c ->
       fst (challenge_param "qop" val i l) !! i
       = Some (set_ch_got_qop (ch_qop_auth c || qop_offers_auth val)
                 (set_ch_qop_auth (ch_qop_auth c || qop_offers_auth val) c))
       /\ snd (challenge_param "qop" val i l) = CNull.
Proof.
  split.
  - unfold qop_offers_auth. rewrite comma_tokens_turn at 1. cbn [existsb].
    now destruct (snd (ne_token val ",")).
  - intros i l c Hc.
    change (challenge_param "qop" val i l)
      with (alter (fun c => let c := if qop_offers_auth val
                                     then set_ch_qop_auth true c else c in
                            set_ch_got_qop (ch_qop_auth c) c) i l, CNull).
    cbn [fst snd]. split; [|reflexivity].
    rewrite list_lookup_alter_eq, Hc. cbn [fmap option_fmap option_map].
    f_equal. destruct (qop_offers_auth val); destruct c as [? ? ? ? ? ? ? [|] ?];
      reflexivity.
Qed.

(** ** Responses that are not challenges for the session *)

(** X28. A response that carries neither the challenge header of the
    class, nor WWW-Authenticate, nor the Authentication-Info header of
    the class: [ah_post_send] returns NE_OK whatever the status, a 401 or
    407 included, and changes nothing in the session but the cached
    GSSAPI token, which it forgets. *)
Theorem post_send_without_headers {P : Platform} (areq : auth_request)
    (headers : string -> option string) (status : ne_status) (sess : auth_session) :
  headers (resp_hdr (spec sess)) = None ->
  headers "WWW-Authenticate"%string = None ->
  headers (resp_info_hdr (spec sess)) = None ->
  ah_post_send (Some areq) headers status sess
  = Ret (NE_OK, token_forgotten sess, Some areq).
Proof.
  intros Hh Hw Hi. unfold ah_post_send. rewrite Hh, Hw, Hi.
  fold (token_forgotten sess).
  assert (Hpair : (if is_AUTH_CONNECT (context sess) && (code status =? 401)
                      && negb (non_null (@None string))
                   then (@None string, @None string) else (None, None))
                  = (None, None)) by now destruct (_ && _ && _).
  rewrite Hpair. now destruct (protocol (token_forgotten sess)).
Qed.

Lemma post_send_without_headers_witness :
  ah_post_send (P := demo_platform) (Some get_root) (fun _ => None) unauthorized sent_once
  = Ret (NE_OK, token_forgotten (P := demo_platform) sent_once, Some get_root).
Proof.
  apply (post_send_without_headers (P := demo_platform) get_root (fun _ => None)
           unauthorized sent_once); reflexivity.
Defined.

(** X29. The 401 of a proxy in answer to CONNECT.  For a session whose
    context is AUTH_CONNECT, a 401 without the challenge header of the
    class is treated as a challenge when it carries WWW-Authenticate:
    that header goes to [auth_challenge], the Authentication-Info header
    is not looked at, the attempt is counted, and the answer is NE_RETRY
    or the failure code of the class. *)
Theorem post_send_connect_401 {P : Platform} (areq : auth_request)
    (headers : string -> option string) (status : ne_status) (sess : auth_session)
    (hdr : string) :
  context sess = AUTH_CONNECT ->
  code status = 401 -> klass status = 4 ->
  headers (resp_hdr (spec sess)) = None ->
  headers "WWW-Authenticate"%string = Some hdr ->
  ah_post_send (Some areq) headers status sess
  = auth_challenge (token_forgotten sess) (req_attempt areq) hdr
    ≫= fun '(rc, sess1) =>
         if rc =? 0 then Ret (NE_RETRY, sess1, Some (next_attempt areq))
         else Ret (fail_code (spec (clean_session sess1)), clean_session sess1,
                   Some (next_attempt areq)).
Proof.
  intros Hc Hcode Hk Hh Hw. unfold ah_post_send.
  rewrite Hh, Hw, Hc, Hcode, Hk. cbn [is_AUTH_CONNECT non_null negb andb].
  change (401 =? 401) with true. cbv iota.
  fold (token_forgotten sess).
  assert (Hc0 : context (token_forgotten sess) = AUTH_CONNECT)
    by (unfold token_forgotten; destruct HAVE_GSSAPI; exact Hc).
  rewrite Hc0. cbn [is_AUTH_CONNECT andb]. cbv beta iota.
  change ((4 =? 2) || (4 =? 3)) with false.
  assert (Hsel : match protocol (token_forgotten sess) with
                 | Some p =>
                     if c_true (flags (protocol_row p)) && c_true AUTH_FLAG_VERIFY_NON40x
                        && false
                     then Some (p, hdr) else None
                 | None => None
                 end = None).
  { destruct (protocol _); [|reflexivity]. now rewrite andb_false_r. }
  rewrite Hsel, orb_true_r. reflexivity.
Qed.

Lemma post_send_connect_401_witness :
  ah_post_send (P := demo_platform) (Some get_root)
    (challenge_only "WWW-Authenticate" challenge_basic) unauthorized
    (ne_set_proxy_auth None "https" creds_jo)
  = auth_challenge (P := demo_platform)
      (token_forgotten (P := demo_platform) (ne_set_proxy_auth None "https" creds_jo))
      (req_attempt get_root) challenge_basic
    ≫= fun '(rc, sess1) =>
         if rc =? 0 then Ret (NE_RETRY, sess1, Some (next_attempt get_root))
         else Ret (fail_code (spec (clean_session (P := demo_platform) sess1)),
                   clean_session (P := demo_platform) sess1,
                   Some (next_attempt get_root)).
Proof.
  apply (post_send_connect_401 (P := demo_platform) get_root
           (challenge_only "WWW-Authenticate" challenge_basic) unauthorized
           (ne_set_proxy_auth None "https" creds_jo) challenge_basic); reflexivity.
Defined.
